(** * H&M retail assistant: scoring, splitting, baselines and evaluation

    A shallow embedding of the offline recommendation pipeline
    ([src/features/build_interactions.py], [src/evaluation/split.py],
    [src/baselines/popularity.py], [src/baselines/cooccurrence.py],
    [src/evaluation/metrics.py]) and the properties its specification
    states about it.

    Conventions of the embedding:
    - a data frame is the list of its rows, in frame order; a row is a record
      holding the columns the code reads;
    - where Polars leaves the row order open ([unique], the groups of
      [group_by], rows of equal keys under [sort]) the embedding computes
      one of the orders Polars may return; a general statement either holds
      for every such order or is stated relative to the frame the code
      itself builds, and only a counterexample run relies on the order
      computed;
    - Python [str] is [string] (bytes; byte-wise lexicographic order is the
      order of both Python and Polars on UTF-8 text), Python [int] is [Z],
      a Python [set] of strings is a [gset string];
    - Python [float] arithmetic is kept behind the interface [PyNum], with
      two instances: exact rationals [Q] (the idealised reading, used for
      the order-theoretic results) and IEEE binary64 [float] (the kernel's
      primitive floats, used to evaluate the metrics on literal inputs). *)

From Stdlib Require Import Rbase Rfunctions Rtrigo_def Exp_prop Rpower Lra.
From Stdlib Require Import ZArith QArith Qround Lqa Floats Uint63 Lia.
From Stdlib Require OrderedTypeEx.
From stdpp Require Import base decidable list sorting gmap strings.

Local Open Scope Z_scope.
#[local] Set Warnings "-clear-no-such-hyp".

(** ** Python numbers *)

Class PyNum (F : Type) := {
  of_int : Z -> F;          (* float(n), the implicit int -> float coercion *)
  fadd : F -> F -> F;       (* x + y *)
  fdiv : F -> F -> F        (* x / y, only ever called with y <> 0 *)
}.

(** [0.0] *)
Definition fzero {F} `{PyNum F} : F := of_int 0.

(** [a / b] on two Python ints (true division). *)
Definition truediv_int {F} `{PyNum F} (a b : Z) : F := fdiv (of_int a) (of_int b).

(** Exact rationals. *)
#[export] Instance PyNum_Q : PyNum Q := {
  of_int := inject_Z;
  fadd := Qplus;
  fdiv := Qdiv
}.

(** binary64; [of_int] is exact on the ints the metrics convert (counts
    and ranks, all in [0, 2^53)). *)
#[export] Instance PyNum_float : PyNum float := {
  of_int := fun z => PrimFloat.of_uint63 (Uint63.of_Z z);
  fadd := PrimFloat.add;
  fdiv := PrimFloat.div
}.

(** ** Python sequences *)

(** [xs[:k]]: the first [k] items for [k >= 0], all but the last [-k]
    items for [k < 0]. *)
Definition py_prefix {A} (xs : list A) (k : Z) : list A :=
  if decide (0 <= k) then take (Z.to_nat k) xs
  else take (length xs - Z.to_nat (- k)) xs.

(** [len(xs)] *)
Definition len {A} (xs : list A) : Z := Z.of_nat (length xs).

(** [sum(...)] of Python ints. *)
Definition py_sum (xs : list Z) : Z := foldl Z.add 0 xs.

(** ** Data frames *)

(** A [pl.Date]: days since the epoch. *)
Definition date := Z.

(** One row of [interactions.parquet] and of the train and test snapshots.
    Columns are nullable in Polars; [last_seen] keeps its null ([None])
    because the splitter compares it, the other columns are read as
    values. A stored [implicit_score] is a finite float, that is a
    rational number, and is only ever compared. *)
Record Interaction := {
  customer_id : string;
  article_id : string;
  freq : Z;
  last_seen : option date;
  implicit_score : Q
}.

(** One row of a [recs_<model>.parquet] frame; the list column may be null. *)
Record RecsRow := {
  rr_customer_id : string;
  rr_recs : option (list string)
}.

(** [.unique()]: the distinct values. Polars leaves their order open
    ([maintain_order=False]); the embedding keeps first occurrences in
    frame order. *)
Fixpoint pl_unique {A} `{EqDecision A} (xs : list A) : list A :=
  match xs with
  | [] => []
  | x :: rest => x :: filter (fun y => y <> x) (pl_unique rest)
  end.

(** [.head(n)] / [.limit(n)] on a frame, [n >= 0]. *)
Definition pl_head {A} (n : nat) (xs : list A) : list A := take n xs.

(** [.head(max_users)] under [if max_users is not None]. *)
Definition pl_head_opt {A} (n : option nat) (xs : list A) : list A :=
  match n with Some n => pl_head n xs | None => xs end.

(** [.group_by(key)]: the groups, keyed, each holding its rows in frame
    order (Polars keeps the order inside a group); the groups themselves
    come in order of first occurrence. *)
Definition pl_group_by {A K} `{EqDecision K} (key : A -> K) (rows : list A)
    : list (K * list A) :=
  (fun k => (k, filter (fun r => key r = k) rows)) <$> pl_unique (key <$> rows).

(** [left.join(right, on=key, how="inner")]: every left row, in frame
    order, paired with each right row of the same key. *)
Definition pl_join_inner {A B K} `{EqDecision K}
    (kl : A -> K) (kr : B -> K) (left : list A) (right : list B) : list (A * B) :=
  l ← left; (fun r => (l, r)) <$> filter (fun r => kr r = kl l) right.

(** [left.join(right, on=key, how="left")]: as the inner join, and a left
    row without partner is kept with a null right side. *)
Definition pl_join_left {A B K} `{EqDecision K}
    (kl : A -> K) (kr : B -> K) (left : list A) (right : list B)
    : list (A * option B) :=
  l ← left;
  match filter (fun r => kr r = kl l) right with
  | [] => [(l, None)]
  | ms => (fun r => (l, Some r)) <$> ms
  end.

(** ** src/evaluation/metrics.py *)

Module Metrics.

Section Metrics.
Context {F : Type} `{PyNum F}.

(** [recall_at_k(recs, truth, k)] *)
Definition recall_at_k (recs : list string) (truth : gset string) (k : Z) : F :=
  if decide (truth = ∅) then fzero
  else
    let pred := py_prefix recs k in
    let hit := py_sum ((fun _ => 1) <$> filter (fun a => a ∈ truth) pred) in
    fdiv (of_int hit) (of_int (Z.of_nat (size truth))).

(** The [for i, a in enumerate(pred, start=1)] loop of [ap_at_k], on the
    state [(hits, s)]. *)
Fixpoint ap_loop (truth : gset string) (pred : list string)
    (i hits : Z) (s : F) : F :=
  match pred with
  | [] => s
  | a :: rest =>
      if decide (a ∈ truth) then
        let hits' := hits + 1 in
        ap_loop truth rest (i + 1) hits' (fadd s (truediv_int hits' i))
      else ap_loop truth rest (i + 1) hits s
  end.

(** [ap_at_k(recs, truth, k)] *)
Definition ap_at_k (recs : list string) (truth : gset string) (k : Z) : F :=
  let pred := py_prefix recs k in
  if decide (truth = ∅) then fzero
  else
    let s := ap_loop truth pred 1 0 fzero in
    let denom := Z.min (Z.of_nat (size truth)) k in
    if decide (0 < denom) then fdiv s (of_int denom) else fzero.

(** [MetricResult] *)
Record MetricResult := {
  mr_model : string;
  mr_recall_at_k : F;
  mr_map_at_k : F;
  mr_users : Z
}.

(** [users]: the customers of the recs frame, capped. *)
Definition eval_users (recs_df : list RecsRow) (max_users : option nat) : list string :=
  pl_head_opt max_users (pl_unique (rr_customer_id <$> recs_df)).

(** [truth_df]: one row [(customer_id, truth)] per capped user that has
    test rows. *)
Definition truth_df (recs_df : list RecsRow) (test : list Interaction)
    (max_users : option nat) : list (string * list string) :=
  let users := eval_users recs_df max_users in
  let joined := fst <$> pl_join_inner customer_id id test users in
  (fun g => (g.1, pl_unique (article_id <$> g.2))) <$> pl_group_by customer_id joined.

(** [eval_df = recs_df.join(truth_df, on="customer_id", how="inner")] *)
Definition eval_df (recs_df : list RecsRow) (test : list Interaction)
    (max_users : option nat) : list (RecsRow * (string * list string)) :=
  pl_join_inner rr_customer_id fst recs_df (truth_df recs_df test max_users).

(** [float(sum(xs) / len(xs)) if xs else 0.0]; [sum] starts from the int 0. *)
Definition mean (xs : list F) : F :=
  match xs with
  | [] => fzero
  | _ => fdiv (foldl fadd (of_int 0) xs) (of_int (len xs))
  end.

(** [evaluate_recs(model_name, recs_path, test_path, k, max_users)], on the
    two frames the paths are read from. *)
Definition evaluate_recs (model_name : string) (recs_df : list RecsRow)
    (test : list Interaction) (k : Z) (max_users : option nat) : MetricResult :=
  let rows := eval_df recs_df test max_users in
  let recalls :=
    (fun row => recall_at_k (default [] (rr_recs row.1)) (list_to_set row.2.2) k) <$> rows in
  let aps :=
    (fun row => ap_at_k (default [] (rr_recs row.1)) (list_to_set row.2.2) k) <$> rows in
  {| mr_model := model_name;
     mr_recall_at_k := mean recalls;
     mr_map_at_k := mean aps;
     mr_users := len recalls |}.
End Metrics.

End Metrics.

(** ** Sort keys *)

(** Strings sort by code unit, as [String.compare] does. *)
Definition str_lt (a b : string) : Prop := String.compare a b = Lt.

#[export] Instance comparison_eq_dec : EqDecision comparison.
Proof. solve_decision. Defined.

#[export] Instance str_lt_dec a b : Decision (str_lt a b).
Proof. unfold str_lt. apply _. Defined.

#[export] Instance Qle_decision (x y : Q) : Decision (x <= y)%Q.
Proof. unfold Qle. apply _. Defined.

(** [.sort(keys)]. Polars does not promise an order among rows whose keys
    are all equal; the embedding sorts by insertion on exactly the keys the
    source names, which is stable: such rows keep their frame order. *)
Fixpoint pl_insert {A} (R : relation A) `{forall x y, Decision (R x y)}
    (x : A) (sorted : list A) : list A :=
  match sorted with
  | [] => [x]
  | y :: rest => if decide (R x y) then x :: y :: rest else y :: pl_insert R x rest
  end.

Fixpoint pl_sort {A} (R : relation A) `{forall x y, Decision (R x y)}
    (rows : list A) : list A :=
  match rows with
  | [] => []
  | x :: rest => pl_insert R x (pl_sort R rest)
  end.

(** [.group_by(key).head(n)]: the first [n] rows of every group. *)
Definition pl_group_head {A K} `{EqDecision K} (key : A -> K) (n : nat)
    (rows : list A) : list A :=
  g ← pl_group_by key rows; pl_head n g.2.

(** ** src/evaluation/split.py *)

Module Split.

(** [pl.col("last_seen") < cutoff] and [>=]: a null date compares to null. *)
Definition date_lt (d : option date) (cutoff : date) : option bool :=
  (fun d => bool_decide (d < cutoff)) <$> d.

Definition date_ge (d : option date) (cutoff : date) : option bool :=
  (fun d => bool_decide (d >= cutoff)) <$> d.

(** [lf.filter(mask)]: the rows whose mask is true; false and null drop. *)
Definition pl_filter {A} (mask : A -> option bool) (rows : list A) : list A :=
  filter (fun r => mask r = Some true) rows.

(** The two frames [make_time_split] writes. *)
Record SplitFrames := {
  train : list Interaction;
  test : list Interaction
}.

(** [make_time_split(interactions_path, out_dir, cutoff_date)], on the
    frame read from the path and the parsed cutoff; the cast of
    [last_seen] to [pl.Date] leaves a date column as it is. *)
Definition make_time_split (interactions : list Interaction) (cutoff_date : date)
    : SplitFrames :=
  {| train := pl_filter (fun r => date_lt (last_seen r) cutoff_date) interactions;
     test := pl_filter (fun r => date_ge (last_seen r) cutoff_date) interactions |}.

End Split.

(** ** src/baselines/popularity.py *)

Module Popularity.

(** [.sort("cnt", descending=True)] *)
Definition cnt_desc (x y : string * Z) : Prop := y.2 <= x.2.

#[global] Instance cnt_desc_dec x y : Decision (cnt_desc x y).
Proof. unfold cnt_desc. apply _. Defined.

(** [train.group_by("article_id").agg(pl.len().alias("cnt"))] *)
Definition item_counts (train : list Interaction) : list (string * Z) :=
  (fun g => (g.1, len g.2)) <$> pl_group_by article_id train.

(** [top_items]: the popularity pool. *)
Definition top_items (train : list Interaction) : list string :=
  pl_head 5000 (fst <$> pl_sort cnt_desc (item_counts train)).

(** [users]: the customers of train, capped when [max_users is not None]. *)
Definition users (train : list Interaction) (max_users : option nat) : list string :=
  pl_head_opt max_users (pl_unique (customer_id <$> train)).

(** [user_seen]: per customer, the distinct articles of train. *)
Definition user_seen (train : list Interaction) : list (string * list string) :=
  (fun g => (g.1, pl_unique (article_id <$> g.2))) <$> pl_group_by customer_id train.

(** [base]: users joined with their seen lists, null filled with []. *)
Definition base (train : list Interaction) (max_users : option nat)
    : list (string * list string) :=
  (fun ur => (ur.1, default [] (snd <$> ur.2))) <$>
    pl_join_left id fst (users train max_users) (user_seen train).

(** The loop of [recs_for_seen], on the list [out]. *)
Fixpoint recs_loop (seen_set : gset string) (k : Z) (items out : list string)
    : list string :=
  match items with
  | [] => out
  | a :: rest =>
      let out' := if decide (a ∉ seen_set) then out ++ [a] else out in
      if decide (len out' = k) then out' else recs_loop seen_set k rest out'
  end.

(** [recs_for_seen(seen)], closed over [top_items] and [k]. *)
Definition recs_for_seen (top_items : list string) (k : Z) (seen : list string)
    : list string :=
  recs_loop (list_to_set seen) k top_items [].

(** [build_popularity_recs(train_path, k, max_users)] *)
Definition build_popularity_recs (train : list Interaction) (k : Z)
    (max_users : option nat) : list RecsRow :=
  let pool := top_items train in
  (fun us => {| rr_customer_id := us.1;
                rr_recs := Some (recs_for_seen pool k us.2) |}) <$>
    base train max_users.

End Popularity.

(** ** src/baselines/cooccurrence.py *)

Module Cooccurrence.

(** One row of the neighbour frame: [item | neighbor | cnt]. *)
Record NeighborEdge := {
  item : string;
  neighbor : string;
  cnt : Z
}.

(** One row of [scored]: [customer_id | neighbor | score]. *)
Record Scored := {
  sc_customer_id : string;
  sc_neighbor : string;
  sc_score : Z
}.

(** [.sort(["customer_id", "implicit_score"], descending=[False, True])] *)
Definition by_customer_score (x y : Interaction) : Prop :=
  str_lt (customer_id x) (customer_id y)
  \/ (customer_id x = customer_id y /\ (implicit_score y <= implicit_score x)%Q).

#[global] Instance by_customer_score_dec x y : Decision (by_customer_score x y).
Proof. unfold by_customer_score. apply _. Defined.

(** [.sort(["item", "cnt"], descending=[False, True])] *)
Definition by_item_cnt (x y : NeighborEdge) : Prop :=
  str_lt (item x) (item y) \/ (item x = item y /\ cnt y <= cnt x).

#[global] Instance by_item_cnt_dec x y : Decision (by_item_cnt x y).
Proof. unfold by_item_cnt. apply _. Defined.

(** [.sort(["customer_id", "score"], descending=[False, True])] *)
Definition by_customer_sc (x y : Scored) : Prop :=
  str_lt (sc_customer_id x) (sc_customer_id y)
  \/ (sc_customer_id x = sc_customer_id y /\ sc_score y <= sc_score x).

#[global] Instance by_customer_sc_dec x y : Decision (by_customer_sc x y).
Proof. unfold by_customer_sc. apply _. Defined.

(** [seeds]: per customer the first [seed_items_per_user] rows of train
    sorted by customer and score, as [(customer_id, article_id)]. *)
Definition seeds (train : list Interaction) (seed_items_per_user : nat)
    : list (string * string) :=
  (fun r => (customer_id r, article_id r)) <$>
    pl_group_head customer_id seed_items_per_user (pl_sort by_customer_score train).

(** [pairs]: the self-join of the seeds on the customer, without the
    pairs of an item with itself, as [(item, neighbor)]. *)
Definition pairs (sds : list (string * string)) : list (string * string) :=
  filter (fun p => p.1 <> p.2)
    ((fun lr => (lr.1.2, lr.2.2)) <$> pl_join_inner fst fst sds sds).

(** [counts]: the number of rows per pair, sorted by item and count. *)
Definition counts (prs : list (string * string)) : list NeighborEdge :=
  pl_sort by_item_cnt
    ((fun g => {| item := g.1.1; neighbor := g.1.2; cnt := len g.2 |}) <$>
       pl_group_by id prs).

(** [build_item_neighbors(train_path, seed_items_per_user, neighbors_per_item)] *)
Definition build_item_neighbors (train : list Interaction)
    (seed_items_per_user neighbors_per_item : nat) : list NeighborEdge :=
  pl_group_head item neighbors_per_item (counts (pairs (seeds train seed_items_per_user))).

(** [users]: the customers of train, capped when [max_users] is truthy
    (neither [None] nor 0). *)
Definition users (train : list Interaction) (max_users : option nat) : list string :=
  let all := pl_unique (customer_id <$> train) in
  match max_users with
  | Some (S n) => pl_head (S n) all
  | _ => all
  end.

(** [user_seen] and [base], as in the popularity baseline. *)
Definition user_seen (train : list Interaction) : list (string * list string) :=
  (fun g => (g.1, pl_unique (article_id <$> g.2))) <$> pl_group_by customer_id train.

Definition base (train : list Interaction) (max_users : option nat)
    : list (string * list string) :=
  (fun ur => (ur.1, default [] (snd <$> ur.2))) <$>
    pl_join_left id fst (users train max_users) (user_seen train).

(** [scored]: seeds joined with the edges of their item, the counts summed
    per (customer, neighbor), sorted by customer and score. *)
Definition scored (sds : list (string * string)) (neighbors_df : list NeighborEdge)
    : list Scored :=
  pl_sort by_customer_sc
    ((fun g => {| sc_customer_id := g.1.1; sc_neighbor := g.1.2;
                  sc_score := py_sum ((fun se => cnt se.2) <$> g.2) |}) <$>
       pl_group_by (fun se => (se.1.1, neighbor se.2))
         (pl_join_inner snd item sds neighbors_df)).

(** [not_seen(neighbor, seen)] *)
Definition not_seen (nb : string) (seen : list string) : bool :=
  bool_decide (nb ∉ (list_to_set seen : gset string)).

(** [filtered]: the scored rows of the users of [base] whose neighbour is
    not in the user's seen list. *)
Definition filtered (scd : list Scored) (bs : list (string * list string))
    : list Scored :=
  fst <$> filter (fun sb => not_seen (sc_neighbor sb.1) sb.2.2 = true)
            (pl_join_inner sc_customer_id fst scd bs).

(** [build_cooccurrence_recs(train_path, neighbors_df, k, seed_items_per_user,
    max_users)] *)
Definition build_cooccurrence_recs (train : list Interaction)
    (neighbors_df : list NeighborEdge) (k seed_items_per_user : nat)
    (max_users : option nat) : list RecsRow :=
  let scd := scored (seeds train seed_items_per_user) neighbors_df in
  let flt := filtered scd (base train max_users) in
  (fun g => {| rr_customer_id := g.1;
               rr_recs := Some (pl_head k (sc_neighbor <$> g.2)) |}) <$>
    pl_group_by sc_customer_id flt.

End Cooccurrence.

(** ** src/features/build_interactions.py *)

Module ScoreBuilder.

(** One row of [transactions_train.csv] after the casts; each column may
    be null. *)
Record RawEvent := {
  t_dat : option date;
  ev_customer_id : option string;
  ev_article_id : option string
}.

(** One row of the output frame. [implicit_score] is computed with [log1p]
    and [exp]; it is read here as a real number. *)
Record ScoredRow := {
  sb_customer_id : string;
  sb_article_id : string;
  sb_freq : Z;
  sb_last_seen : date;
  sb_implicit_score : R
}.

(** [half_life_days = 30.0] *)
Definition half_life_days : R := 30.

(** [.drop_nulls(["customer_id", "article_id", "t_dat"])] *)
Definition drop_nulls (events : list RawEvent) : list (string * string * date) :=
  omap (fun e => match ev_customer_id e, ev_article_id e, t_dat e with
                 | Some c, Some a, Some d => Some (c, a, d)
                 | _, _, _ => None
                 end) events.

(** [pl.col("t_dat").max()] over a group. *)
Definition max_date (ds : list date) : date :=
  match ds with
  | [] => 0
  | d :: rest => foldl Z.max d rest
  end.

(** [freq_score = log1p(freq)] *)
Definition freq_score (freq : Z) : R := ln (1 + IZR freq).

(** [days_since_last = (today - last_seen).dt.total_days()] *)
Definition days_since_last (today last_seen : date) : R := IZR (today - last_seen).

(** [recency_score = exp(-days_since_last / half_life_days)] *)
Definition recency_score (days : R) : R := exp (- days / half_life_days).

(** [.sort(["customer_id", "implicit_score"], descending=[False, True])] *)
Definition by_customer_score (x y : ScoredRow) : Prop :=
  str_lt (sb_customer_id x) (sb_customer_id y)
  \/ (sb_customer_id x = sb_customer_id y
      /\ (sb_implicit_score y <= sb_implicit_score x)%R).

#[global] Instance Rle_decision (x y : R) : Decision (x <= y)%R := Rle_dec x y.

#[global] Instance by_customer_score_dec x y : Decision (by_customer_score x y).
Proof. unfold by_customer_score. apply _. Defined.

(** [main()], on the events read from the CSV file; [today] is the value
    of [date.today()], which [main] reads from the system clock. *)
Definition main (today : date) (events : list RawEvent) : list ScoredRow :=
  let lf := pl_group_by (fun e => (e.1.1, e.1.2)) (drop_nulls events) in
  pl_sort by_customer_score
    ((fun g =>
        let freq := len g.2 in
        let last_seen := max_date (snd <$> g.2) in
        {| sb_customer_id := g.1.1;
           sb_article_id := g.1.2;
           sb_freq := freq;
           sb_last_seen := last_seen;
           sb_implicit_score :=
             (freq_score freq * recency_score (days_since_last today last_seen))%R |})
       <$> lf).

End ScoreBuilder.

(** ** Exceptions and files *)

(** The exceptions the scripts raise themselves. *)
Inductive py_error := FileNotFoundError | ValueError | TypeError.

(** The outcome of a script: [inl e] when it raises [e]. *)
Definition result (A : Type) : Type := py_error + A.

(** ** The [main] functions of the split, the baselines and the evaluator *)

Module Mains.

#[local] Set Warnings "-abstract-large-number".

(** [cutoff_date = "2020-09-01"], as days since the epoch. *)
Definition cutoff_date : date := 18506.

(** [split.main()]: [interactions] is the frame at
    [data/processed/interactions.parquet], [None] when the file is
    missing. *)
Definition split_main (interactions : option (list Interaction))
    : result Split.SplitFrames :=
  match interactions with
  | None => inl FileNotFoundError
  | Some rows => inr (Split.make_time_split rows cutoff_date)
  end.

(** [popularity.main()], on the train frame: the frame it writes. *)
Definition popularity_main (train : list Interaction) : list RecsRow :=
  Popularity.build_popularity_recs train 12 (Some 100000%nat).

(** [cooccurrence.main()], on the train frame: the neighbour frame and the
    recs frame it writes. *)
Definition cooccurrence_main (train : list Interaction)
    : list Cooccurrence.NeighborEdge * list RecsRow :=
  let neighbors_df := Cooccurrence.build_item_neighbors train 10 50 in
  let recs_df :=
    Cooccurrence.build_cooccurrence_recs train neighbors_df 12 10 (Some 100000%nat) in
  (neighbors_df, recs_df).

(** [metrics.main()], on the two recs frames and the test frame: the two
    results it prints. *)
Definition metrics_main {F} `{PyNum F} (pop_recs co_recs : list RecsRow)
    (test : list Interaction) : Metrics.MetricResult * Metrics.MetricResult :=
  let res_pop := Metrics.evaluate_recs "popularity" pop_recs test 12 (Some 100000%nat) in
  let res_co := Metrics.evaluate_recs "cooccurrence" co_recs test 12 (Some 100000%nat) in
  (res_pop, res_co).

End Mains.

(** ** src/features/build_item_features.py *)

Module ItemFeatures.

Section ItemFeatures.
(** The values of a CSV column, and the cast of one to [pl.Utf8]. *)
Context {cell : Type} (cast_utf8 : cell -> cell).

(** A frame by columns, in schema order: name and values. *)
Definition frame : Type := list (string * list cell).

(** [keep_cols] *)
Definition keep_cols : list string :=
  [ "article_id"; "product_type_no"; "product_group_name";
    "graphical_appearance_name"; "colour_group_name";
    "perceived_colour_value_name"; "perceived_colour_master_name";
    "department_name"; "index_name"; "index_group_name"; "section_name";
    "garment_group_name" ]%string.

(** [lf.collect_schema().names()] *)
Definition schema_names (lf : frame) : list string := lf.*1.

(** [existing = [c for c in keep_cols if c in schema_names]] *)
Definition existing (lf : frame) : list string :=
  filter (fun c => c ∈ schema_names lf) keep_cols.

(** The column of a name. *)
Fixpoint get_column (c : string) (lf : frame) : option (list cell) :=
  match lf with
  | [] => None
  | col :: rest => if decide (col.1 = c) then Some col.2 else get_column c rest
  end.

(** [lf.select(names)]: the named columns, in the order of [names]. *)
Definition select (names : list string) (lf : frame) : frame :=
  omap (fun c => (fun vs => (c, vs)) <$> get_column c lf) names.

(** [.with_columns(pl.col("article_id").cast(pl.Utf8))]: the column is
    replaced in place. *)
Definition cast_article_id (lf : frame) : frame :=
  (fun col : string * list cell =>
     if decide (col.1 = "article_id"%string)
     then (col.1, cast_utf8 <$> col.2) else col) <$> lf.

(** [main()]: [articles_csv] is the frame scanned from
    [data/raw/articles.csv], [None] when the file is missing; the result
    is the frame written to [item_features.parquet]. *)
Definition main (articles_csv : option frame) : result frame :=
  match articles_csv with
  | None => inl FileNotFoundError
  | Some lf =>
      let existing := existing lf in
      if decide ("article_id"%string ∉ existing) then inl ValueError
      else inr (cast_article_id (select existing lf))
  end.
End ItemFeatures.

End ItemFeatures.

(** ** src/features/build_feature_schema.py *)

Module FeatureSchema.

(** [series.min()] and [series.max()]: [None] on an empty column. *)
Definition min_Q (xs : list Q) : option Q :=
  match xs with
  | [] => None
  | x :: rest => Some (foldl (fun m y => if Qle_bool y m then y else m) x rest)
  end.

Definition max_Q (xs : list Q) : option Q :=
  match xs with
  | [] => None
  | x :: rest => Some (foldl (fun m y => if Qle_bool m y then y else m) x rest)
  end.

Definition min_Z (xs : list Z) : option Z :=
  match xs with
  | [] => None
  | x :: rest => Some (foldl Z.min x rest)
  end.

Definition max_Z (xs : list Z) : option Z :=
  match xs with
  | [] => None
  | x :: rest => Some (foldl Z.max x rest)
  end.

(** [float(x)] and [int(x)] on the result of [min()] / [max()]: [None]
    raises [TypeError]. *)
Definition py_number {A} (x : option A) : result A :=
  match x with
  | None => inl TypeError
  | Some v => inr v
  end.

(** [interactions_stats] *)
Record InteractionsStats := {
  st_rows : Z;
  st_cols : Z;
  implicit_score_min : Q;
  implicit_score_max : Q;
  freq_min : Z;
  freq_max : Z
}.

Section FeatureSchema.
(** A Polars data type and [str(dtype)]. *)
Context {dtype : Type} (pl_dtype_to_str : dtype -> string).

(** What [main] reads of a frame: [df.columns], [df.dtypes] and the rows. *)
Record Frame (row : Type) := {
  columns : list string;
  dtypes : list dtype;
  rows : list row
}.
Arguments columns {row}.
Arguments dtypes {row}.
Arguments rows {row}.

(** [{name: pl_dtype_to_str(dtype) for name, dtype in zip(df.columns, df.dtypes)}] *)
Definition dtypes_dict {row} (df : Frame row) : gmap string string :=
  foldl (fun d nd => <[nd.1 := pl_dtype_to_str nd.2]> d) ∅
    (zip (columns df) (dtypes df)).

(** The bind of the exception monad. *)
Definition bind_result {A B} (x : result A) (f : A -> result B) : result B :=
  match x with
  | inl e => inl e
  | inr v => f v
  end.

(** The [interactions_stats] dict; its entries are evaluated in order. *)
Definition interactions_stats (interactions : Frame Interaction)
    : result InteractionsStats :=
  let scores := implicit_score <$> rows interactions in
  let freqs := freq <$> rows interactions in
  bind_result (py_number (min_Q scores)) (fun smin =>
  bind_result (py_number (max_Q scores)) (fun smax =>
  bind_result (py_number (min_Z freqs)) (fun fmin =>
  bind_result (py_number (max_Z freqs)) (fun fmax =>
  inr {| st_rows := len (rows interactions);
         st_cols := len (columns interactions);
         implicit_score_min := smin;
         implicit_score_max := smax;
         freq_min := fmin;
         freq_max := fmax |})))).

(** The [schema] dict written to [feature_schema.json] (without the two
    path strings). *)
Record Schema := {
  interactions_dtypes : gmap string string;
  interactions_stats_of : InteractionsStats;
  item_features_dtypes : gmap string string;
  item_rows : Z;
  item_cols : Z
}.

(** [main()]: the two frames are those read from [interactions.parquet]
    and [item_features.parquet], [None] for a missing file. *)
Definition main {item_row : Type} (interactions : option (Frame Interaction))
    (item_features : option (Frame item_row)) : result Schema :=
  match interactions with
  | None => inl FileNotFoundError
  | Some interactions =>
      match item_features with
      | None => inl FileNotFoundError
      | Some item_features =>
          bind_result (interactions_stats interactions) (fun stats =>
          inr {| interactions_dtypes := dtypes_dict interactions;
                 interactions_stats_of := stats;
                 item_features_dtypes := dtypes_dict item_features;
                 item_rows := len (rows item_features);
                 item_cols := len (columns item_features) |})
      end
  end.
End FeatureSchema.

Arguments columns {dtype row}.
Arguments dtypes {dtype row}.
Arguments rows {dtype row}.

End FeatureSchema.

(** * Specification vocabulary

    The predicates, formulas and sample inputs the properties below are
    stated with. *)

(** ** Metrics *)

(** The number of positions of [pred] holding an item of [truth]. *)
Definition hits_in (truth : gset string) (pred : list string) : Z :=
  len (filter (fun a => a ∈ truth) pred).

(** The specification's formula, read with a set intersection:
    [|recs[:K] ∩ truth| / |truth|], and [0.0] for an empty truth set. *)
Definition recall_set_formula {F} `{PyNum F}
    (recs : list string) (truth : gset string) (k : Z) : F :=
  if decide (truth = ∅) then fzero
  else fdiv (of_int (Z.of_nat (size (list_to_set (py_prefix recs k) ∩ truth : gset string))))
            (of_int (Z.of_nat (size truth))).

(** C5 as stated, at one input: the code agrees with the set formula. *)
Definition recall_is_set_formula {F} `{PyNum F}
    (recs : list string) (truth : gset string) (k : Z) : Prop :=
  Metrics.recall_at_k (F:=F) recs truth k = recall_set_formula recs truth k.

(** The specification's running sum: ranks [i = 1 .. |pred|] in order, each
    rank whose item is in the truth set adds (hits among the first [i]
    items) / [i]. *)
Definition ap_rank_step {F} `{PyNum F} (truth : gset string) (pred : list string)
    (s : F) (i : nat) : F :=
  match pred !! (i - 1)%nat with
  | Some a =>
      if decide (a ∈ truth)
      then fadd s (truediv_int (hits_in truth (take i pred)) (Z.of_nat i))
      else s
  | None => s
  end.

Definition ap_rank_sum {F} `{PyNum F} (truth : gset string) (pred : list string) : F :=
  foldl (ap_rank_step truth pred) fzero (seq 1 (length pred)).

(** The specification's AP@K: the running sum over the first K predictions
    divided by [min(|truth|, K)], and [0.0] for an empty truth set. *)
Definition ap_formula {F} `{PyNum F}
    (recs : list string) (truth : gset string) (k : Z) : F :=
  if decide (truth = ∅) then fzero
  else fdiv (ap_rank_sum truth (take (Z.to_nat k) recs))
            (of_int (Z.min (Z.of_nat (size truth)) k)).

(** ** Evaluator *)

(** The rows of the recs frame that reach the metric loop: the customer is
    within the cap and has at least one test row. *)
Definition evaluated (recs_df : list RecsRow) (test : list Interaction)
    (max_users : option nat) (row : RecsRow) : Prop :=
  rr_customer_id row ∈ Metrics.eval_users recs_df max_users
  /\ rr_customer_id row ∈ customer_id <$> test.

#[export] Instance evaluated_dec recs_df test max_users row :
  Decision (evaluated recs_df test max_users row).
Proof. unfold evaluated. apply _. Defined.

(** The specification's reading (C1 as stated): every row whose customer
    is within the cap is counted in [users], with or without test rows. *)
Definition counts_users_without_test {F} `{PyNum F} (recs_df : list RecsRow)
    (test : list Interaction) (k : Z) (max_users : option nat) : Prop :=
  Metrics.mr_users (Metrics.evaluate_recs (F:=F) "model" recs_df test k max_users) =
    len (filter (fun row => rr_customer_id row ∈ Metrics.eval_users recs_df max_users)
           recs_df).

(** ** Splitter *)

(** [last_seen < cutoff] and [last_seen >= cutoff] on a row, as the
    specification words them. *)
Definition seen_before (cutoff : date) (r : Interaction) : Prop :=
  exists d, last_seen r = Some d /\ d < cutoff.

Definition seen_from (cutoff : date) (r : Interaction) : Prop :=
  exists d, last_seen r = Some d /\ cutoff <= d.

#[global] Instance seen_before_dec (c : date) (r : Interaction) : Decision (seen_before c r).
Proof.
  unfold seen_before. destruct (last_seen r) as [d|].
  - destruct (decide (d < c)) as [Hd|Hd]; [left; by exists d | right].
    intros (d' & [= <-] & Hlt). done.
  - right. by intros (d' & ? & _).
Defined.

#[global] Instance seen_from_dec (c : date) (r : Interaction) : Decision (seen_from c r).
Proof.
  unfold seen_from. destruct (last_seen r) as [d|].
  - destruct (decide (c <= d)) as [Hd|Hd]; [left; by exists d | right].
    intros (d' & [= <-] & Hlt). done.
  - right. by intros (d' & ? & _).
Defined.

(** ** Neighbour graph *)

(** The edges of one item, in frame order. *)
Definition neighbor_list (edges : list Cooccurrence.NeighborEdge) (i : string)
    : list Cooccurrence.NeighborEdge :=
  filter (fun e => Cooccurrence.item e = i) edges.

(** Count descending. *)
Definition cnt_ge (x y : Cooccurrence.NeighborEdge) : Prop :=
  Cooccurrence.cnt y <= Cooccurrence.cnt x.

(** Count descending, ties by neighbour id ascending (the order of C8 as
    stated). *)
Definition cnt_ge_then_neighbor (x y : Cooccurrence.NeighborEdge) : Prop :=
  Cooccurrence.cnt y < Cooccurrence.cnt x
  \/ (Cooccurrence.cnt y = Cooccurrence.cnt x
      /\ (str_lt (Cooccurrence.neighbor x) (Cooccurrence.neighbor y)
          \/ Cooccurrence.neighbor x = Cooccurrence.neighbor y)).

(** One customer with three equally scored train rows a, c, b. *)
Definition tied_train : list Interaction :=
  [ {| customer_id := "u1"; article_id := "a"; freq := 1;
       last_seen := Some 18500; implicit_score := 1 |};
    {| customer_id := "u1"; article_id := "c"; freq := 1;
       last_seen := Some 18500; implicit_score := 1 |};
    {| customer_id := "u1"; article_id := "b"; freq := 1;
       last_seen := Some 18500; implicit_score := 1 |} ].

(** ** Recommendation lists *)

(** The articles of a customer's train rows. *)
Definition train_items (train : list Interaction) (u : string) : list string :=
  article_id <$> filter (fun r => customer_id r = u) train.

(** Three customers; "b" is bought twice, "a" once. *)
Definition popular_b_train : list Interaction :=
  [ {| customer_id := "u1"; article_id := "a"; freq := 1;
       last_seen := Some 18500; implicit_score := 1 |};
    {| customer_id := "u2"; article_id := "b"; freq := 1;
       last_seen := Some 18500; implicit_score := 1 |};
    {| customer_id := "u3"; article_id := "b"; freq := 1;
       last_seen := Some 18500; implicit_score := 1 |} ].

(** ** Cold start *)

(** C3 as stated: the customer has a row whose list is empty. *)
Definition has_empty_entry (recs_df : list RecsRow) (u : string) : Prop :=
  exists row, row ∈ recs_df /\ rr_customer_id row = u /\ rr_recs row = Some [].

(** No seed of the customer has an edge in the neighbour frame (true in
    particular of a customer without train rows). *)
Definition no_seed_edge (train : list Interaction) (seed_items_per_user : nat)
    (neighbors_df : list Cooccurrence.NeighborEdge) (u : string) : Prop :=
  forall sd e, sd ∈ Cooccurrence.seeds train seed_items_per_user -> sd.1 = u ->
               e ∈ neighbors_df -> Cooccurrence.item e <> sd.2.

(** "u1" holds an article nobody else holds; "u2" and "u3" share "b". *)
Definition lonely_train : list Interaction :=
  [ {| customer_id := "u1"; article_id := "a"; freq := 1;
       last_seen := Some 18500; implicit_score := 1 |};
    {| customer_id := "u2"; article_id := "b"; freq := 1;
       last_seen := Some 18500; implicit_score := 1 |};
    {| customer_id := "u2"; article_id := "c"; freq := 1;
       last_seen := Some 18500; implicit_score := 1 |};
    {| customer_id := "u3"; article_id := "b"; freq := 1;
       last_seen := Some 18500; implicit_score := 1 |} ].

(** ** Top-N selections *)

(** Score descending. *)
Definition score_ge (x y : Interaction) : Prop :=
  (implicit_score y <= implicit_score x)%Q.

(** Score descending, ties by article id ascending (the order C2 states). *)
Definition score_ge_then_item (x y : Interaction) : Prop :=
  (implicit_score y < implicit_score x)%Q
  \/ ((implicit_score y == implicit_score x)%Q
      /\ (str_lt (article_id x) (article_id y) \/ article_id x = article_id y)).

#[export] Instance score_ge_then_item_dec x y : Decision (score_ge_then_item x y).
Proof. unfold score_ge_then_item, Qlt, Qeq. apply _. Defined.

(** The rows the seed selection keeps, before the projection to
    [(customer_id, article_id)]. *)
Definition seed_rows (train : list Interaction) (seed_items_per_user : nat)
    : list Interaction :=
  pl_group_head customer_id seed_items_per_user
    (pl_sort Cooccurrence.by_customer_score train).

(** The seed articles of one customer, as the code selects them. *)
Definition user_seeds (train : list Interaction) (seed_items_per_user : nat)
    (u : string) : list string :=
  snd <$> filter (fun sd => sd.1 = u) (Cooccurrence.seeds train seed_items_per_user).

(** The seed articles of one customer, as C2 states the selection. *)
Definition user_seeds_by_id (train : list Interaction) (seed_items_per_user : nat)
    (u : string) : list string :=
  article_id <$>
    take seed_items_per_user
      (pl_sort score_ge_then_item (filter (fun r => customer_id r = u) train)).

(** The popularity of an article: its number of train rows. *)
Definition popularity (train : list Interaction) (a : string) : Z :=
  len (filter (fun r => article_id r = a) train).

Definition popularity_ge (train : list Interaction) (a b : string) : Prop :=
  popularity train b <= popularity train a.

Definition popularity_ge_then_item (train : list Interaction) (a b : string) : Prop :=
  popularity train b < popularity train a
  \/ (popularity train b = popularity train a /\ (str_lt a b \/ a = b)).

(** C2 as stated, for one train frame: the three selections break ties by
    id ascending. *)
Definition ties_broken_by_id (train : list Interaction)
    (seed_items_per_user neighbors_per_item : nat) : Prop :=
  (forall u, user_seeds train seed_items_per_user u =
             user_seeds_by_id train seed_items_per_user u)
  /\ (forall i, Sorted cnt_ge_then_neighbor
                  (neighbor_list (Cooccurrence.build_item_neighbors train
                                    seed_items_per_user neighbors_per_item) i))
  /\ Sorted (popularity_ge_then_item train) (Popularity.top_items train).

(** ** Score builder *)

(** The score of a pair seen [freq] times, last on [last_seen], in a run
    on the day [today]. *)
Definition implicit_score_on (today : date) (freq : Z) (last_seen : date) : R :=
  (ScoreBuilder.freq_score freq *
   ScoreBuilder.recency_score (ScoreBuilder.days_since_last today last_seen))%R.

(** C9 as stated, for one event log: any two runs give the same
    implicit_score column. *)
Definition reproducible (events : list ScoreBuilder.RawEvent) : Prop :=
  forall today1 today2 : date,
    ScoreBuilder.sb_implicit_score <$> ScoreBuilder.main today1 events =
    ScoreBuilder.sb_implicit_score <$> ScoreBuilder.main today2 events.

(** One purchase of "a" by "u1" on day 18500. *)
Definition one_purchase : list ScoreBuilder.RawEvent :=
  [ {| ScoreBuilder.t_dat := Some 18500;
       ScoreBuilder.ev_customer_id := Some "u1"%string;
       ScoreBuilder.ev_article_id := Some "a"%string |} ].

(** A row with its score multiplied by [c]. *)
Definition rescale (c : R) (row : ScoreBuilder.ScoredRow) : ScoreBuilder.ScoredRow :=
  {| ScoreBuilder.sb_customer_id := ScoreBuilder.sb_customer_id row;
     ScoreBuilder.sb_article_id := ScoreBuilder.sb_article_id row;
     ScoreBuilder.sb_freq := ScoreBuilder.sb_freq row;
     ScoreBuilder.sb_last_seen := ScoreBuilder.sb_last_seen row;
     ScoreBuilder.sb_implicit_score := (ScoreBuilder.sb_implicit_score row * c)%R |}.

(** The decay between two run dates. *)
Definition decay (today1 today2 : date) : R :=
  exp (- IZR (today2 - today1) / ScoreBuilder.half_life_days).

(** ** Co-occurrence recommender *)

(** Score descending. *)
Definition sc_score_ge (x y : Cooccurrence.Scored) : Prop :=
  Cooccurrence.sc_score y <= Cooccurrence.sc_score x.

(** The candidates of a customer: the scored rows of the customer whose
    neighbour is not among the customer's train articles, in the order of
    [scored]. *)
Definition candidates (train : list Interaction)
    (neighbors_df : list Cooccurrence.NeighborEdge) (seed_items_per_user : nat)
    (u : string) : list Cooccurrence.Scored :=
  filter (fun sc => Cooccurrence.sc_customer_id sc = u
                    /\ Cooccurrence.sc_neighbor sc ∉ train_items train u)
    (Cooccurrence.scored (Cooccurrence.seeds train seed_items_per_user) neighbors_df).

(** The customers with a row: those within the cap that have a candidate,
    in order of first occurrence in [scored]. *)
Definition served_customers (train : list Interaction)
    (neighbors_df : list Cooccurrence.NeighborEdge) (seed_items_per_user : nat)
    (max_users : option nat) : list string :=
  pl_unique
    (Cooccurrence.sc_customer_id <$>
       filter (fun sc => Cooccurrence.sc_customer_id sc ∈ Cooccurrence.users train max_users
                         /\ Cooccurrence.sc_neighbor sc ∉
                              train_items train (Cooccurrence.sc_customer_id sc))
         (Cooccurrence.scored (Cooccurrence.seeds train seed_items_per_user) neighbors_df)).

(** The seed-edge matches behind a candidate: the rows of the join of the
    seeds with the neighbour frame that lead from the customer to the
    neighbour. *)
Definition matches (sds : list (string * string))
    (neighbors_df : list Cooccurrence.NeighborEdge) (u nb : string)
    : list (string * string * Cooccurrence.NeighborEdge) :=
  filter (fun se => (se.1.1, Cooccurrence.neighbor se.2) = (u, nb))
    (pl_join_inner snd Cooccurrence.item sds neighbors_df).

(** * Properties *)

(** ** Facts about the Python helpers *)

Lemma py_sum_ones_from {A} (xs : list A) (a : Z) :
  foldl Z.add a ((fun _ => 1) <$> xs) = a + len xs.
Proof.
  revert a. induction xs as [|x xs IH]; intros a; unfold len in *; simpl.
  - lia.
  - rewrite IH. lia.
Qed.

Lemma py_sum_ones {A} (xs : list A) : py_sum ((fun _ => 1) <$> xs) = len xs.
Proof. unfold py_sum. rewrite py_sum_ones_from. lia. Qed.

Lemma py_prefix_nonneg {A} (xs : list A) (k : Z) :
  0 <= k -> py_prefix xs k = take (Z.to_nat k) xs.
Proof. intros Hk. unfold py_prefix. by destruct (decide (0 <= k)). Qed.

Lemma py_prefix_neg {A} (xs : list A) (k : Z) :
  k < 0 -> py_prefix xs k = take (length xs - Z.to_nat (- k)) xs.
Proof. intros Hk. unfold py_prefix. destruct (decide (0 <= k)); [lia | done]. Qed.

Lemma py_prefix_sublist {A} (xs : list A) (k : Z) : py_prefix xs k `sublist_of` xs.
Proof. unfold py_prefix. destruct (decide (0 <= k)); apply sublist_take. Qed.

Lemma py_prefix_NoDup {A} (xs : list A) (k : Z) : NoDup xs -> NoDup (py_prefix xs k).
Proof. intros Hnd. exact (sublist_NoDup _ _ Hnd (py_prefix_sublist xs k)). Qed.

Lemma py_prefix_length {A} (xs : list A) (k : Z) :
  0 <= k -> len (py_prefix xs k) <= k.
Proof.
  intros Hk. rewrite py_prefix_nonneg by done. unfold len.
  rewrite length_take. lia.
Qed.

Lemma size_nonempty_pos (truth : gset string) : truth <> ∅ -> 0 < Z.of_nat (size truth).
Proof.
  intros Hne. destruct (decide (size truth = 0%nat)) as [H0|]; [|lia].
  by apply size_empty_inv, leibniz_equiv in H0.
Qed.

Lemma hits_in_nonneg truth pred : 0 <= hits_in truth pred.
Proof. unfold hits_in, len. lia. Qed.

Lemma hits_in_le_len truth pred : hits_in truth pred <= len pred.
Proof. unfold hits_in, len. pose proof (length_filter (fun a => a ∈ truth) pred). lia. Qed.

(** Without repeated items, the hits are the items of the intersection. *)
Lemma hits_in_NoDup truth pred :
  NoDup pred ->
  hits_in truth pred = Z.of_nat (size (list_to_set pred ∩ truth : gset string)).
Proof.
  intros Hnd. unfold hits_in, len. f_equal.
  assert (list_to_set pred ∩ truth = (list_to_set (filter (fun a => a ∈ truth) pred) : gset string)) as ->.
  { apply set_eq. intros x. rewrite elem_of_intersection, !elem_of_list_to_set, list_elem_of_filter. tauto. }
  rewrite size_list_to_set; [done |]. by apply NoDup_filter.
Qed.

Lemma hits_in_le_truth truth pred :
  NoDup pred -> hits_in truth pred <= Z.of_nat (size truth).
Proof.
  intros Hnd. rewrite hits_in_NoDup by done.
  apply inj_le, subseteq_size. apply intersection_subseteq_r.
Qed.

(** ** Recall@K *)

(** What [recall_at_k] computes, in closed form: hits counted per position. *)
Lemma recall_at_k_unfold {F} `{PyNum F} recs truth k :
  Metrics.recall_at_k recs truth k =
    if decide (truth = ∅) then fzero
    else fdiv (of_int (hits_in truth (py_prefix recs k)))
              (of_int (Z.of_nat (size truth))).
Proof.
  unfold Metrics.recall_at_k. destruct (decide (truth = ∅)); [done |].
  cbv zeta. by rewrite py_sum_ones.
Qed.

(** C5 (as stated) fails on a list that repeats a truth item: the code
    scores [["a";"a"]] against [{a}] at K = 2 as 2/1, the set formula
    gives 1/1. Shown on binary64 floats. *)
Lemma recall_at_k_counts_repeats :
  ~ recall_is_set_formula (F:=float) ["a"; "a"]%string {["a"%string]} 2.
Proof. unfold recall_is_set_formula. vm_compute. discriminate. Qed.

(** C5 (amended): for every list, truth set and K, [recall_at_k] is 0.0 on
    an empty truth set and otherwise the number of positions of [recs[:K]]
    whose item is in the truth set, divided by the size of the truth set;
    when [recs[:K]] has no repeated item that number is the size of the
    intersection, so the code equals the set formula. In particular
    [recall_at_k(["x","a","y"], {"a","b"}, 3) = 0.5] and
    [recall_at_k([], {"a"}, 5) = 0.0] (on binary64 floats and on Q). *)
Theorem recall_at_k_spec :
  (forall F (N : PyNum F) (recs : list string) (truth : gset string) (k : Z),
      Metrics.recall_at_k (F:=F) recs truth k =
        (if decide (truth = ∅) then fzero
         else fdiv (of_int (hits_in truth (py_prefix recs k)))
                   (of_int (Z.of_nat (size truth))))
      /\ (NoDup (py_prefix recs k) -> recall_is_set_formula (F:=F) recs truth k))
  /\ Metrics.recall_at_k (F:=float) ["x"; "a"; "y"]%string {["a"%string; "b"%string]} 3 = 0.5%float
  /\ Metrics.recall_at_k (F:=float) [] {["a"%string]} 5 = 0%float
  /\ Metrics.recall_at_k (F:=Q) ["x"; "a"; "y"]%string {["a"%string; "b"%string]} 3 = (1 # 2)%Q
  /\ Metrics.recall_at_k (F:=Q) [] {["a"%string]} 5 = 0%Q.
Proof.
  split; [| repeat split; vm_compute; reflexivity].
  intros F N recs truth k. split; [apply recall_at_k_unfold |].
  intros Hnd. unfold recall_is_set_formula, recall_set_formula.
  rewrite recall_at_k_unfold. destruct (decide (truth = ∅)); [done |].
  by rewrite hits_in_NoDup.
Qed.

Lemma recall_at_k_spec_witness :
  recall_is_set_formula (F:=Q) ["x"; "a"; "y"]%string {["a"%string; "b"%string]} 3.
Proof.
  apply (proj1 recall_at_k_spec Q PyNum_Q ["x"; "a"; "y"]%string {["a"%string; "b"%string]} 3).
  rewrite py_prefix_nonneg by lia. simpl.
  repeat constructor; rewrite ?elem_of_cons, ?elem_of_nil; intros Hx;
    repeat (destruct Hx as [Hx | Hx]; try discriminate Hx); done.
Defined.

(** ** AP@K *)

Lemma hits_in_snoc truth pre a :
  hits_in truth (pre ++ [a]) =
    if decide (a ∈ truth) then hits_in truth pre + 1 else hits_in truth pre.
Proof.
  unfold hits_in, len. rewrite filter_app, length_app.
  rewrite filter_cons, filter_nil. destruct (decide (a ∈ truth)); simpl; lia.
Qed.

(** Loop invariant of [ap_at_k]: after the items [pre], the counter [i] is
    [|pre| + 1] and [hits] is the number of hits in [pre]. *)
Lemma ap_loop_rank_sum {F} `{PyNum F} truth rest : forall pre (s : F),
  Metrics.ap_loop truth rest (len pre + 1) (hits_in truth pre) s =
    foldl (ap_rank_step truth (pre ++ rest)) s (seq (S (length pre)) (length rest)).
Proof.
  induction rest as [|a rest IH]; intros pre s; [done |].
  cbn [Metrics.ap_loop length seq foldl].
  assert (len (pre ++ [a]) + 1 = len pre + 1 + 1) as Hi
    by (unfold len; rewrite length_app; simpl; lia).
  assert (S (length pre) = length (pre ++ [a])) as Hn
    by (rewrite length_app; simpl; lia).
  assert (pre ++ a :: rest = (pre ++ [a]) ++ rest) as Hpre
    by (by rewrite <- app_assoc).
  unfold ap_rank_step at 2. rewrite Nat.sub_succ, Nat.sub_0_r.
  rewrite lookup_app_r, Nat.sub_diag by done. cbn [lookup list_lookup].
  replace (take (S (length pre)) (pre ++ a :: rest)) with (pre ++ [a]).
  2:{ rewrite Hpre, Hn. by rewrite take_app_length. }
  rewrite hits_in_snoc.
  destruct (decide (a ∈ truth)).
  - rewrite <- Hi. specialize (IH (pre ++ [a])).
    rewrite hits_in_snoc in IH. destruct (decide (a ∈ truth)); [|done].
    rewrite IH, <- Hpre, <- Hn. do 3 f_equal. unfold len. lia.
  - rewrite <- Hi. specialize (IH (pre ++ [a])).
    rewrite hits_in_snoc in IH. destruct (decide (a ∈ truth)); [done |].
    by rewrite IH, <- Hpre, <- Hn.
Qed.

Lemma ap_loop_is_rank_sum {F} `{PyNum F} truth pred :
  Metrics.ap_loop (F:=F) truth pred 1 0 fzero = ap_rank_sum truth pred.
Proof. exact (ap_loop_rank_sum truth pred [] fzero). Qed.

(** C6: for every list, truth set and K >= 1, [ap_at_k] walks the first K
    predictions in rank order, keeps the running hit count, adds
    hit_count / i at every rank whose item is in the truth set and returns
    the sum divided by [min(|truth|, K)], or 0.0 for an empty truth set
    (for K <= 0 no rank is visited and the code returns 0.0). In particular
    [ap_at_k(["a","b"], {"a"}, 5) = 1.0] and
    [ap_at_k(["b","a"], {"a"}, 5) = 0.5] (on binary64 floats and on Q). *)
Theorem ap_at_k_spec :
  (forall F (N : PyNum F) (recs : list string) (truth : gset string) (k : Z),
      (1 <= k -> Metrics.ap_at_k (F:=F) recs truth k = ap_formula recs truth k)
      /\ (k <= 0 -> Metrics.ap_at_k (F:=F) recs truth k = fzero))
  /\ Metrics.ap_at_k (F:=float) ["a"; "b"]%string {["a"%string]} 5 = 1%float
  /\ Metrics.ap_at_k (F:=float) ["b"; "a"]%string {["a"%string]} 5 = 0.5%float
  /\ Metrics.ap_at_k (F:=Q) ["a"; "b"]%string {["a"%string]} 5 = 1%Q
  /\ Metrics.ap_at_k (F:=Q) ["b"; "a"]%string {["a"%string]} 5 = (1 # 2)%Q.
Proof.
  split; [| repeat split; vm_compute; reflexivity].
  intros F N recs truth k. split.
  - intros Hk. unfold Metrics.ap_at_k, ap_formula. cbv zeta.
    destruct (decide (truth = ∅)) as [|Hne]; [done |].
    pose proof (size_nonempty_pos truth Hne).
    destruct (decide (0 < Z.of_nat (size truth) `min` k)); [|lia].
    by rewrite ap_loop_is_rank_sum, py_prefix_nonneg by lia.
  - intros Hk. unfold Metrics.ap_at_k. cbv zeta.
    destruct (decide (truth = ∅)); [done |].
    destruct (decide (0 < Z.of_nat (size truth) `min` k)); [lia | done].
Qed.

Lemma ap_at_k_spec_witness :
  Metrics.ap_at_k (F:=Q) ["b"; "a"; "c"]%string {["a"%string; "c"%string]} 2
  = ap_formula ["b"; "a"; "c"]%string {["a"%string; "c"%string]} 2.
Proof.
  apply (proj1 ap_at_k_spec Q PyNum_Q ["b"; "a"; "c"]%string {["a"%string; "c"%string]} 2).
  lia.
Defined.

(** ** Range of the two metrics (on exact rationals) *)

Lemma Q_ratio_bounds (h n : Z) :
  0 <= h <= n -> 0 < n -> (0 <= inject_Z h / inject_Z n <= 1)%Q.
Proof.
  intros [Hh Hn] Hpos.
  assert (0 < inject_Z n)%Q as Hq
    by (change (inject_Z 0 < inject_Z n)%Q; by rewrite <- Zlt_Qlt).
  assert (0 <= inject_Z h)%Q
    by (change (inject_Z 0 <= inject_Z h)%Q; by rewrite <- Zle_Qle).
  assert (inject_Z h <= inject_Z n)%Q by (by rewrite <- Zle_Qle).
  split.
  - apply Qle_shift_div_l; [done | Lqa.lra].
  - apply Qle_shift_div_r; [done | Lqa.lra].
Qed.

Lemma Q_div_bounds (s : Q) (h n : Z) :
  (0 <= s <= inject_Z h)%Q -> h <= n -> 0 < n -> (0 <= s / inject_Z n <= 1)%Q.
Proof.
  intros [Hs Hh] Hn Hpos.
  assert (0 < inject_Z n)%Q as Hq
    by (change (inject_Z 0 < inject_Z n)%Q; by rewrite <- Zlt_Qlt).
  assert (inject_Z h <= inject_Z n)%Q by (by rewrite <- Zle_Qle).
  split.
  - apply Qle_shift_div_l; [done | Lqa.lra].
  - apply Qle_shift_div_r; [done | Lqa.lra].
Qed.

(** Every visited rank adds a term in [0, 1], so the running sum grows by
    at most the number of hits. *)
Lemma ap_loop_bounds truth pred : forall (i hits : Z) (s : Q),
  0 <= hits < i ->
  (s <= Metrics.ap_loop truth pred i hits s <= s + inject_Z (hits_in truth pred))%Q.
Proof.
  induction pred as [|a pred IH]; intros i hits s Hi.
  - cbn. unfold hits_in, len. cbn. change (inject_Z (Z.of_nat 0)) with 0%Q. Lqa.lra.
  - cbn [Metrics.ap_loop]. unfold hits_in, len in *. rewrite filter_cons.
    destruct (decide (a ∈ truth)).
    + cbv zeta. specialize (IH (i + 1) (hits + 1) (fadd s (truediv_int (hits + 1) i))).
      destruct IH as [IH1 IH2]; [lia |].
      pose proof (Q_ratio_bounds (hits + 1) i) as [Ht0 Ht1]; [lia | lia |].
      change (truediv_int (F:=Q) (hits + 1) i) with (inject_Z (hits + 1) / inject_Z i)%Q in *.
      change (fadd (F:=Q)) with Qplus in *.
      set (t := (inject_Z (hits + 1) / inject_Z i)%Q) in *.
      set (v := Metrics.ap_loop truth pred (i + 1) (hits + 1) (s + t)%Q) in *.
      cbn [length]. rewrite Nat2Z.inj_succ, <- Z.add_1_l, inject_Z_plus.
      change (inject_Z 1) with 1%Q. split; Lqa.lra.
    + apply IH. lia.
Qed.

(** C10: on a prediction list without repeated items, for every truth set
    and every K >= 1, [recall_at_k] and [ap_at_k] lie in [0, 1]; the bound
    needs the hypothesis, since a repeated truth item is counted once per
    occurrence: [ap_at_k(["a","a"], {"a"}, 5)] and
    [recall_at_k(["a","a"], {"a"}, 5)] both exceed 1. *)
Theorem metrics_in_unit_interval :
  (forall (recs : list string) (truth : gset string) (k : Z),
      NoDup recs -> 1 <= k ->
      (0 <= Metrics.recall_at_k (F:=Q) recs truth k <= 1)%Q
      /\ (0 <= Metrics.ap_at_k (F:=Q) recs truth k <= 1)%Q)
  /\ (1 < Metrics.ap_at_k (F:=Q) ["a"; "a"]%string {["a"%string]} 5)%Q
  /\ (1 < Metrics.recall_at_k (F:=Q) ["a"; "a"]%string {["a"%string]} 5)%Q
  /\ PrimFloat.ltb 1 (Metrics.ap_at_k (F:=float) ["a"; "a"]%string {["a"%string]} 5) = true.
Proof.
  split; [| repeat split; vm_compute; reflexivity].
  intros recs truth k Hnd Hk.
  pose proof (py_prefix_NoDup recs k Hnd) as Hnd'.
  pose proof (hits_in_le_truth truth _ Hnd') as Hle.
  pose proof (hits_in_nonneg truth (py_prefix recs k)) as H0.
  pose proof (hits_in_le_len truth (py_prefix recs k)) as Hlen.
  pose proof (py_prefix_length recs k ltac:(lia)) as Hpk.
  split.
  - rewrite recall_at_k_unfold.
    destruct (decide (truth = ∅)) as [|Hne]; [vm_compute; split; discriminate |].
    pose proof (size_nonempty_pos truth Hne). apply Q_ratio_bounds; lia.
  - unfold Metrics.ap_at_k. cbv zeta.
    destruct (decide (truth = ∅)); [vm_compute; split; discriminate |].
    destruct (decide (0 < Z.of_nat (size truth) `min` k));
      [| vm_compute; split; discriminate].
    pose proof (ap_loop_bounds truth (py_prefix recs k) 1 0 fzero ltac:(lia)) as [Hl Hu].
    change (fzero (F:=Q)) with 0%Q in *.
    apply (Q_div_bounds _ (hits_in truth (py_prefix recs k))); [split; Lqa.lra | lia | lia].
Qed.

Lemma metrics_in_unit_interval_witness :
  (0 <= Metrics.recall_at_k (F:=Q) ["x"; "a"; "y"]%string {["a"%string; "b"%string]} 3 <= 1)%Q
  /\ (0 <= Metrics.ap_at_k (F:=Q) ["x"; "a"; "y"]%string {["a"%string; "b"%string]} 3 <= 1)%Q.
Proof.
  apply (proj1 metrics_in_unit_interval ["x"; "a"; "y"]%string {["a"%string; "b"%string]} 3);
    [| lia].
  repeat constructor; rewrite ?elem_of_cons, ?elem_of_nil; intros Hx;
    repeat (destruct Hx as [Hx | Hx]; try discriminate Hx); done.
Defined.

(** ** Facts about the frame operations *)

Section unique.
Context {A : Type} `{EqDecision A}.

Lemma elem_of_pl_unique (xs : list A) (x : A) : x ∈ pl_unique xs <-> x ∈ xs.
Proof.
  induction xs as [|y xs IH]; simpl; [done |].
  rewrite !elem_of_cons, list_elem_of_filter, IH.
  destruct (decide (x = y)); naive_solver.
Qed.

Lemma NoDup_pl_unique (xs : list A) : NoDup (pl_unique xs).
Proof.
  induction xs as [|y xs IH]; simpl; constructor.
  - rewrite list_elem_of_filter. naive_solver.
  - by apply NoDup_filter.
Qed.

Lemma pl_unique_nil_inv (xs : list A) : pl_unique xs = [] -> xs = [].
Proof. by destruct xs. Qed.

Lemma pl_head_opt_sublist (n : option nat) (xs : list A) :
  pl_head_opt n xs `sublist_of` xs.
Proof. destruct n; simpl; [apply sublist_take | done]. Qed.

End unique.

Section frames.
Context {A K : Type} `{EqDecision K}.

(** Keys of a grouped frame: distinct, and exactly the keys of the rows. *)
Lemma pl_group_by_keys (key : A -> K) (rows : list A) :
  (pl_group_by key rows).*1 = pl_unique (key <$> rows).
Proof.
  unfold pl_group_by. rewrite <- list_fmap_compose.
  induction (pl_unique (key <$> rows)) as [|k ks IH]; simpl; [done | by f_equal].
Qed.

Lemma elem_of_pl_group_by (key : A -> K) (rows : list A) (g : K * list A) :
  g ∈ pl_group_by key rows <->
  g.1 ∈ key <$> rows /\ g.2 = filter (fun r => key r = g.1) rows.
Proof.
  unfold pl_group_by. rewrite list_elem_of_fmap. split.
  - intros (k & -> & Hk). rewrite elem_of_pl_unique in Hk. by split.
  - intros [Hk Hg]. exists g.1. split; [|by apply elem_of_pl_unique].
    destruct g as [k rs]. simpl in *. by subst.
Qed.
End frames.

Section joins.
Context {A B K : Type} `{EqDecision K}.

Lemma elem_of_pl_join_inner (kl : A -> K) (kr : B -> K) ls rs (l : A) (r : B) :
  (l, r) ∈ pl_join_inner kl kr ls rs <-> l ∈ ls /\ r ∈ rs /\ kr r = kl l.
Proof.
  unfold pl_join_inner. rewrite list_elem_of_bind. split.
  - intros (l' & Hin & Hl'). apply list_elem_of_fmap in Hin as (r' & [= -> ->] & Hr').
    apply list_elem_of_filter in Hr'. naive_solver.
  - intros (Hl & Hr & Hk). exists l. split; [|done].
    apply list_elem_of_fmap. exists r. split; [done |]. by apply list_elem_of_filter.
Qed.

(** With distinct right keys, a left row has one partner or none. *)
Lemma filter_key_NoDup_length (kr : B -> K) (rs : list B) (k : K) :
  NoDup (kr <$> rs) ->
  length (filter (fun r => kr r = k) rs) = if decide (k ∈ kr <$> rs) then 1%nat else 0%nat.
Proof.
  induction rs as [|r rs IH]; intros Hnd; [done |].
  rewrite fmap_cons in Hnd. apply NoDup_cons in Hnd as [Hr Hnd].
  rewrite filter_cons, fmap_cons. specialize (IH Hnd).
  destruct (decide (kr r = k)) as [<-|Hne]; simpl.
  - rewrite IH. destruct (decide (kr r ∈ kr <$> rs)); [done |].
    destruct (decide (kr r ∈ kr r :: (kr <$> rs))) as [|Hn]; [done |].
    exfalso. apply Hn. by left.
  - rewrite IH. destruct (decide (k ∈ kr <$> rs)) as [|Hn].
    + destruct (decide (k ∈ kr r :: (kr <$> rs))) as [|Hn']; [done |].
      exfalso. apply Hn'. by right.
    + destruct (decide (k ∈ kr r :: (kr <$> rs))) as [Hin|]; [|done].
      apply elem_of_cons in Hin as [->|]; done.
Qed.

Lemma pl_join_inner_NoDup_length (kl : A -> K) (kr : B -> K) ls rs :
  NoDup (kr <$> rs) ->
  length (pl_join_inner kl kr ls rs) =
    length (filter (fun l => kl l ∈ kr <$> rs) ls).
Proof.
  intros Hnd. unfold pl_join_inner.
  induction ls as [|l ls IH]; [done |].
  rewrite bind_cons, length_app, length_fmap, IH, filter_cons.
  rewrite filter_key_NoDup_length by done.
  by destruct (decide (kl l ∈ kr <$> rs)).
Qed.
End joins.

(** ** Evaluator: who is evaluated *)

Lemma elem_of_joined (test : list Interaction) (users : list string) (r : Interaction) :
  r ∈ (pl_join_inner customer_id id test users).*1 <->
  r ∈ test /\ customer_id r ∈ users.
Proof.
  rewrite list_elem_of_fmap. split.
  - intros ([r' u] & -> & Hin). apply elem_of_pl_join_inner in Hin as (? & ? & Hu).
    simpl in *. by subst.
  - intros [Hr Hu]. exists (r, customer_id r). split; [done |].
    by apply elem_of_pl_join_inner.
Qed.

Lemma truth_df_keys recs_df test max_users :
  (Metrics.truth_df recs_df test max_users).*1 =
    pl_unique (customer_id <$>
      (pl_join_inner customer_id id test (Metrics.eval_users recs_df max_users)).*1).
Proof.
  unfold Metrics.truth_df. cbv zeta. rewrite <- pl_group_by_keys.
  rewrite <- list_fmap_compose. by apply list_fmap_ext.
Qed.

Lemma truth_df_key_iff recs_df test max_users (u : string) :
  u ∈ (Metrics.truth_df recs_df test max_users).*1 <->
  u ∈ Metrics.eval_users recs_df max_users /\ u ∈ customer_id <$> test.
Proof.
  rewrite truth_df_keys, elem_of_pl_unique, !list_elem_of_fmap. split.
  - intros (r & -> & Hr). apply elem_of_joined in Hr as [? ?].
    split; [done | by exists r].
  - intros [Hu (r & -> & Hr)]. exists r. split; [done |]. by apply elem_of_joined.
Qed.

(** The truth list of an evaluated customer holds exactly the articles of
    the customer's test rows. *)
Lemma truth_df_truth recs_df test max_users (u : string) (truth : list string) :
  (u, truth) ∈ Metrics.truth_df recs_df test max_users ->
  forall a, a ∈ truth <-> a ∈ article_id <$> filter (fun r => customer_id r = u) test.
Proof.
  unfold Metrics.truth_df. cbv zeta. intros Hin a.
  apply list_elem_of_fmap in Hin as (g & [= -> ->] & Hg).
  apply elem_of_pl_group_by in Hg as [Hk ->].
  apply list_elem_of_fmap in Hk as (r0 & Hr0 & Hin0).
  apply elem_of_joined in Hin0 as [_ Hu]. rewrite <- Hr0 in Hu.
  rewrite elem_of_pl_unique, !list_elem_of_fmap.
  split; intros (r & -> & Hr); exists r; (split; [done |]);
    rewrite list_elem_of_filter in *; rewrite elem_of_joined in *.
  - naive_solver.
  - destruct Hr as [Hc Hr]. rewrite Hc. done.
Qed.

(** C1 (as stated) fails: with recs for "u1" and "u2" and test rows for
    "u1" only, [evaluate_recs] reports 1 evaluated user, not 2: "u2" is
    dropped by the inner joins instead of being scored 0.0. *)
Lemma evaluate_recs_drops_users_without_test :
  ~ counts_users_without_test (F:=Q)
      [ {| rr_customer_id := "u1"; rr_recs := Some ["a"%string] |};
        {| rr_customer_id := "u2"; rr_recs := Some ["b"%string] |} ]
      [ {| customer_id := "u1"; article_id := "a"; freq := 1;
           last_seen := Some 18506; implicit_score := 1 |} ]
      12 (Some 100%nat).
Proof. unfold counts_users_without_test. vm_compute. discriminate. Qed.

(** C1 (amended): [evaluate_recs] evaluates exactly the rows of the recs
    frame whose customer is within the [max_users] cap and has at least
    one row in test. [users] is the number of these rows, and both means
    are taken over these rows only; each carries as truth the non-empty
    set of the customer's test articles. A customer of the recs frame
    without test rows gets no entry: it is counted neither in [users] nor
    in the denominators of the means. *)
Theorem evaluate_recs_evaluates_joined_users :
  forall F (N : PyNum F) (model_name : string) (recs_df : list RecsRow)
         (test : list Interaction) (k : Z) (max_users : option nat),
    let res := Metrics.evaluate_recs (F:=F) model_name recs_df test k max_users in
    let rows := Metrics.eval_df recs_df test max_users in
    Metrics.mr_users res = len (filter (evaluated recs_df test max_users) recs_df)
    /\ len rows = Metrics.mr_users res
    /\ Metrics.mr_recall_at_k res =
         Metrics.mean ((fun row => Metrics.recall_at_k (default [] (rr_recs row.1))
                                     (list_to_set row.2.2) k) <$> rows)
    /\ Metrics.mr_map_at_k res =
         Metrics.mean ((fun row => Metrics.ap_at_k (default [] (rr_recs row.1))
                                     (list_to_set row.2.2) k) <$> rows)
    /\ (forall row u truth, (row, (u, truth)) ∈ rows ->
          row ∈ recs_df /\ u = rr_customer_id row
          /\ evaluated recs_df test max_users row
          /\ (list_to_set truth : gset string) =
               list_to_set (article_id <$> filter (fun r => customer_id r = u) test)
          /\ (list_to_set truth : gset string) <> ∅)
    /\ (forall row, row ∈ recs_df -> rr_customer_id row ∉ customer_id <$> test ->
          row ∉ rows.*1).
Proof.
  intros F N model_name recs_df test k max_users res rows.
  assert (len rows = len (filter (evaluated recs_df test max_users) recs_df)) as Hlen.
  { unfold rows, Metrics.eval_df, len. f_equal.
    rewrite pl_join_inner_NoDup_length.
    2:{ rewrite truth_df_keys. apply NoDup_pl_unique. }
    f_equal. apply list_filter_iff. intros row.
    unfold evaluated. by rewrite truth_df_key_iff. }
  assert (forall row u truth, (row, (u, truth)) ∈ rows ->
            row ∈ recs_df /\ u = rr_customer_id row
            /\ evaluated recs_df test max_users row
            /\ (forall a, a ∈ truth <->
                  a ∈ article_id <$> filter (fun r => customer_id r = u) test)) as Hrows.
  { intros row u truth Hin. unfold rows, Metrics.eval_df in Hin.
    apply elem_of_pl_join_inner in Hin as (Hrow & Htr & Hu). simpl in Hu.
    split; [done |]. split; [done |]. split.
    - unfold evaluated. apply truth_df_key_iff. rewrite <- Hu.
      apply list_elem_of_fmap. by exists (u, truth).
    - by apply (truth_df_truth recs_df test max_users). }
  unfold res, Metrics.evaluate_recs. cbn [Metrics.mr_users Metrics.mr_recall_at_k
    Metrics.mr_map_at_k]. fold rows.
  split; [by unfold len in *; rewrite length_fmap |].
  split; [by unfold len; rewrite length_fmap |].
  split; [done |]. split; [done |]. split.
  - intros row u truth Hin. destruct (Hrows row u truth Hin) as (H1 & H2 & H3 & H4).
    split; [done |]. split; [done |]. split; [done |].
    assert ((list_to_set truth : gset string) =
            list_to_set (article_id <$> filter (fun r => customer_id r = u) test)) as Heq.
    { apply set_eq. intros a. by rewrite !elem_of_list_to_set. }
    split; [done |]. rewrite Heq.
    destruct H3 as [_ Htest]. apply list_elem_of_fmap in Htest as (r & Hr & Hrin).
    intros Hempty. apply (not_elem_of_empty (C:=gset string) (article_id r)).
    rewrite <- Hempty, elem_of_list_to_set. apply list_elem_of_fmap.
    exists r. split; [done |]. apply list_elem_of_filter. by subst.
  - intros row Hrow Hno Hin. apply list_elem_of_fmap in Hin as ([row' [u truth]] & -> & Hin).
    destruct (Hrows _ _ _ Hin) as (_ & _ & [_ Ht] & _). done.
Qed.

(** ** Splitter *)

Lemma date_lt_true (r : Interaction) cutoff :
  Split.date_lt (last_seen r) cutoff = Some true <-> seen_before cutoff r.
Proof.
  unfold Split.date_lt, seen_before. destruct (last_seen r) as [d|]; simpl.
  - split.
    + intros [= Hd]. apply bool_decide_eq_true in Hd. by exists d.
    + intros (d' & [= <-] & Hd). f_equal. by apply bool_decide_eq_true.
  - split; [done | by intros (d' & ? & _)].
Qed.

Lemma date_ge_true (r : Interaction) cutoff :
  Split.date_ge (last_seen r) cutoff = Some true <-> seen_from cutoff r.
Proof.
  unfold Split.date_ge, seen_from. destruct (last_seen r) as [d|]; simpl.
  - split.
    + intros [= Hd]. apply bool_decide_eq_true in Hd. exists d. split; [done | lia].
    + intros (d' & [= <-] & Hd). f_equal. apply bool_decide_eq_true. lia.
  - split; [done | by intros (d' & ? & _)].
Qed.

(** On dated rows the test mask is the negation of the train mask. *)
Lemma date_ge_complement (rows : list Interaction) cutoff :
  Forall (fun r => is_Some (last_seen r)) rows ->
  Split.pl_filter (fun r => Split.date_ge (last_seen r) cutoff) rows =
    filter (fun r => ~ Split.date_lt (last_seen r) cutoff = Some true) rows.
Proof.
  unfold Split.pl_filter. induction 1 as [|r rows [d Hd] _ IH]; [done |].
  rewrite !filter_cons, IH. unfold Split.date_ge, Split.date_lt. rewrite Hd. simpl.
  assert (Some (bool_decide (d >= cutoff)) = Some true <->
          ~ Some (bool_decide (d < cutoff)) = Some true) as Hiff.
  { split.
    - intros [= H1] [= H2]. apply bool_decide_eq_true in H1, H2. lia.
    - intros H1. f_equal. apply bool_decide_eq_true.
      destruct (decide (d < cutoff)) as [Hlt|]; [|lia].
      exfalso. apply H1. f_equal. by apply bool_decide_eq_true. }
  destruct (decide (Some (bool_decide (d >= cutoff)) = Some true));
    destruct (decide (~ Some (bool_decide (d < cutoff)) = Some true));
    try done; tauto.
Qed.

(** C4: for every interaction set (rows with a [last_seen] date) and every
    cutoff date, [make_time_split] gives train = exactly the rows with
    [last_seen < cutoff] and test = exactly the rows with
    [last_seen >= cutoff], each in frame order; no row is in both, and
    train and test together hold every input row exactly once. *)
Theorem make_time_split_partitions :
  forall (interactions : list Interaction) (cutoff : date),
    Forall (fun r => is_Some (last_seen r)) interactions ->
    let s := Split.make_time_split interactions cutoff in
    (forall r, r ∈ Split.train s <-> r ∈ interactions /\ seen_before cutoff r)
    /\ (forall r, r ∈ Split.test s <-> r ∈ interactions /\ seen_from cutoff r)
    /\ Split.train s `sublist_of` interactions
    /\ Split.test s `sublist_of` interactions
    /\ (forall r, ~ (r ∈ Split.train s /\ r ∈ Split.test s))
    /\ Split.train s ++ Split.test s ≡ₚ interactions.
Proof.
  intros rows cutoff Hdated s.
  assert (forall r, r ∈ Split.train s <-> r ∈ rows /\ seen_before cutoff r) as Htrain.
  { intros r. unfold s, Split.make_time_split, Split.pl_filter. cbn [Split.train].
    rewrite list_elem_of_filter, date_lt_true. tauto. }
  assert (forall r, r ∈ Split.test s <-> r ∈ rows /\ seen_from cutoff r) as Htest.
  { intros r. unfold s, Split.make_time_split, Split.pl_filter. cbn [Split.test].
    rewrite list_elem_of_filter, date_ge_true. tauto. }
  repeat split; try (by apply Htrain); try (by apply Htest).
  - apply sublist_filter.
  - apply sublist_filter.
  - intros r [H1 H2]. apply Htrain in H1 as [_ (d & Hd & Hlt)].
    apply Htest in H2 as [_ (d' & Hd' & Hge)]. rewrite Hd in Hd'.
    injection Hd' as <-. lia.
  - unfold s, Split.make_time_split. cbn [Split.train Split.test].
    rewrite date_ge_complement by done. apply filter_app_complement.
Qed.

Lemma make_time_split_partitions_witness :
  let rows := [ {| customer_id := "u1"; article_id := "a"; freq := 2;
                   last_seen := Some 18500; implicit_score := 1 # 2 |};
                {| customer_id := "u1"; article_id := "b"; freq := 1;
                   last_seen := Some 18506; implicit_score := 1 # 3 |};
                {| customer_id := "u2"; article_id := "a"; freq := 1;
                   last_seen := Some 18510; implicit_score := 1 # 4 |} ] in
  let s := Split.make_time_split rows 18506 in
  Split.train s ++ Split.test s ≡ₚ rows.
Proof.
  intros rows s.
  apply (make_time_split_partitions rows 18506).
  repeat constructor; by eexists.
Defined.

(** ** Sorting *)

Section sorting.
Context {A : Type} (R : relation A) `{forall x y, Decision (R x y)}.

Lemma pl_insert_Permutation (x : A) (l : list A) : pl_insert R x l ≡ₚ x :: l.
Proof.
  induction l as [|y l IH]; simpl; [done |].
  destruct (decide (R x y)); [done |]. rewrite IH. apply Permutation_swap.
Qed.

Lemma pl_sort_Permutation (l : list A) : pl_sort R l ≡ₚ l.
Proof.
  induction l as [|x l IH]; simpl; [done |].
  by rewrite pl_insert_Permutation, IH.
Qed.

Lemma elem_of_pl_sort (l : list A) (x : A) : x ∈ pl_sort R l <-> x ∈ l.
Proof. by rewrite pl_sort_Permutation. Qed.

Lemma length_pl_sort (l : list A) : length (pl_sort R l) = length l.
Proof. by rewrite pl_sort_Permutation. Qed.

Context `{!Total R}.

Lemma pl_insert_Sorted (x : A) (l : list A) : Sorted R l -> Sorted R (pl_insert R x l).
Proof.
  induction 1 as [|y l Hs IH Hhd]; simpl; [by repeat constructor |].
  destruct (decide (R x y)) as [|Hn].
  - by repeat constructor.
  - constructor; [done |].
    assert (R y x) by (by destruct (total R x y)).
    destruct l as [|z l]; simpl in *; [by constructor |].
    destruct (decide (R x z)); constructor; [done |]. by inv Hhd.
Qed.

Lemma pl_sort_Sorted (l : list A) : Sorted R (pl_sort R l).
Proof.
  induction l as [|x l IH]; simpl; [constructor | by apply pl_insert_Sorted].
Qed.

Lemma pl_sort_StronglySorted `{!Transitive R} (l : list A) :
  StronglySorted R (pl_sort R l).
Proof. apply Sorted_StronglySorted; [done | apply pl_sort_Sorted]. Qed.
End sorting.

Lemma StronglySorted_sublist {A} (R : relation A) (l1 l2 : list A) :
  l1 `sublist_of` l2 -> StronglySorted R l2 -> StronglySorted R l1.
Proof.
  induction 1 as [|x l1 l2 Hsub IH|x l1 l2 Hsub IH]; intros Hs; [done | |].
  - apply StronglySorted_inv in Hs as [Hs Hall]. constructor; [by apply IH |].
    rewrite Forall_forall in *. intros y Hy. apply Hall.
    by eapply elem_of_sublist.
  - apply StronglySorted_inv in Hs as [Hs _]. by apply IH.
Qed.

(** Weakening the order on a list whose members all satisfy [P]. *)
Lemma StronglySorted_weaken {A} (R1 R2 : relation A) (P : A -> Prop) (l : list A) :
  (forall x y, P x -> P y -> R1 x y -> R2 x y) ->
  Forall P l -> StronglySorted R1 l -> StronglySorted R2 l.
Proof.
  intros Himp Hall Hs. induction Hs as [|x l Hs IH Hx]; [constructor |].
  apply Forall_cons in Hall as [Hpx Hall]. constructor; [by apply IH |].
  rewrite Forall_forall in *. intros y Hy. apply Himp; auto.
Qed.

(** ** The sort orders *)

Lemma str_lt_irrefl (a : string) : ~ str_lt a a.
Proof.
  unfold str_lt. intros Hlt.
  assert (String.compare a a = Eq) as Heq
    by (by apply OrderedTypeEx.String_as_OT.cmp_eq).
  congruence.
Qed.

Lemma str_lt_trans (a b c : string) : str_lt a b -> str_lt b c -> str_lt a c.
Proof.
  unfold str_lt. intros Hab Hbc.
  apply OrderedTypeEx.String_as_OT.cmp_lt.
  eapply OrderedTypeEx.String_as_OT.lt_trans;
    by apply OrderedTypeEx.String_as_OT.cmp_lt.
Qed.

Lemma str_lt_trichotomy (a b : string) : str_lt a b \/ a = b \/ str_lt b a.
Proof.
  unfold str_lt. destruct (String.compare a b) eqn:Hc.
  - right. left. by apply String.compare_eq_iff.
  - by left.
  - right. right. rewrite String.compare_antisym, Hc. done.
Qed.

(** Every sort of the baselines has one shape: a string key ascending,
    then a value descending. *)
Section key_then_value.
Context {A : Type} (key : A -> string) (ge : relation A).

Let lex : relation A := fun x y => str_lt (key x) (key y) \/ (key x = key y /\ ge x y).

Lemma lex_total : Total ge -> Total lex.
Proof.
  intros Ht x y. unfold lex.
  destruct (str_lt_trichotomy (key x) (key y)) as [?|[Heq|?]]; [by left; left | | by right; left].
  destruct (Ht x y); [left | right]; right; by rewrite Heq.
Qed.

Lemma lex_transitive : Transitive ge -> Transitive lex.
Proof.
  intros Ht x y z [Hxy|[Hxy Gxy]] [Hyz|[Hyz Gyz]]; unfold lex.
  - left. by eapply str_lt_trans.
  - left. by rewrite <- Hyz.
  - left. by rewrite Hxy.
  - right. split; [congruence | by etrans].
Qed.

(** Rows of one key inside a sorted frame are sorted by the value. *)
Lemma lex_sorted_group (k : string) (l : list A) :
  StronglySorted lex l ->
  StronglySorted ge (filter (fun r => key r = k) l).
Proof.
  intros Hs.
  apply (StronglySorted_weaken lex ge (fun r => key r = k)).
  - intros x y Hx Hy [Hlt|[_ Hge]]; [|done].
    rewrite Hx, Hy in Hlt. by apply str_lt_irrefl in Hlt.
  - apply Forall_forall. intros x Hx. by apply list_elem_of_filter in Hx as [? _].
  - eapply StronglySorted_sublist; [apply sublist_filter | done].
Qed.
End key_then_value.

#[export] Instance cnt_desc_total : Total Popularity.cnt_desc.
Proof. intros x y. unfold Popularity.cnt_desc. lia. Qed.

#[export] Instance cnt_desc_transitive : Transitive Popularity.cnt_desc.
Proof. intros x y z. unfold Popularity.cnt_desc. lia. Qed.

#[export] Instance by_item_cnt_total : Total Cooccurrence.by_item_cnt.
Proof.
  apply (lex_total Cooccurrence.item (fun x y => Cooccurrence.cnt y <= Cooccurrence.cnt x)).
  intros x y. lia.
Qed.

#[export] Instance by_item_cnt_transitive : Transitive Cooccurrence.by_item_cnt.
Proof.
  apply (lex_transitive Cooccurrence.item (fun x y => Cooccurrence.cnt y <= Cooccurrence.cnt x)).
  intros x y z. lia.
Qed.

#[export] Instance by_customer_sc_total : Total Cooccurrence.by_customer_sc.
Proof.
  apply (lex_total Cooccurrence.sc_customer_id
           (fun x y => Cooccurrence.sc_score y <= Cooccurrence.sc_score x)).
  intros x y. lia.
Qed.

#[export] Instance by_customer_sc_transitive : Transitive Cooccurrence.by_customer_sc.
Proof.
  apply (lex_transitive Cooccurrence.sc_customer_id
           (fun x y => Cooccurrence.sc_score y <= Cooccurrence.sc_score x)).
  intros x y z. lia.
Qed.

#[export] Instance by_customer_score_total : Total Cooccurrence.by_customer_score.
Proof.
  apply (lex_total customer_id (fun x y => (implicit_score y <= implicit_score x)%Q)).
  intros x y. destruct (Qlt_le_dec (implicit_score x) (implicit_score y)) as [Hlt|Hle];
    [right; by apply Qlt_le_weak | by left].
Qed.

#[export] Instance by_customer_score_transitive : Transitive Cooccurrence.by_customer_score.
Proof.
  apply (lex_transitive customer_id (fun x y => (implicit_score y <= implicit_score x)%Q)).
  intros x y z Hxy Hyz. by eapply Qle_trans.
Qed.

(** ** Grouped heads *)

Section group_head.
Context {A K : Type} `{EqDecision K} (key : A -> K).

Lemma filter_all (P : A -> Prop) `{forall x, Decision (P x)} (l : list A) :
  (forall x, x ∈ l -> P x) -> filter P l = l.
Proof.
  induction l as [|x l IH]; intros Hall; [done |].
  rewrite filter_cons. destruct (decide (P x)) as [|Hn].
  - f_equal. apply IH. intros y Hy. apply Hall. by right.
  - exfalso. apply Hn, Hall. by left.
Qed.

Lemma filter_none (P : A -> Prop) `{forall x, Decision (P x)} (l : list A) :
  (forall x, x ∈ l -> ~ P x) -> filter P l = [].
Proof.
  induction l as [|x l IH]; intros Hall; [done |].
  rewrite filter_cons. destruct (decide (P x)) as [Hp|].
  - exfalso. by apply (Hall x); [left |].
  - apply IH. intros y Hy. apply Hall. by right.
Qed.

(** Selecting one key out of a concatenation of per-key blocks. *)
Lemma filter_key_bind (f : K -> list A) (ks : list K) (k : K) :
  NoDup ks -> (forall k' x, x ∈ f k' -> key x = k') ->
  filter (fun r => key r = k) (ks ≫= f) = if decide (k ∈ ks) then f k else [].
Proof.
  intros Hnd Hf. induction Hnd as [|k0 ks Hk0 Hnd IH]; [done |].
  rewrite bind_cons, filter_app, IH.
  destruct (decide (k0 = k)) as [->|Hne].
  - rewrite filter_all by (intros x Hx; by apply (Hf k)).
    destruct (decide (k ∈ ks)); [done |].
    destruct (decide (k ∈ k :: ks)) as [|Hn]; [by rewrite app_nil_r |].
    exfalso. apply Hn. by left.
  - rewrite filter_none.
    2:{ intros x Hx Hk. apply Hne. rewrite <- Hk. symmetry. by apply Hf. }
    simpl. destruct (decide (k ∈ ks)) as [Hin|Hn].
    + destruct (decide (k ∈ k0 :: ks)) as [|Hn']; [done |].
      exfalso. apply Hn'. by right.
    + destruct (decide (k ∈ k0 :: ks)) as [Hin|]; [|done].
      apply elem_of_cons in Hin as [->|]; done.
Qed.

Lemma pl_group_head_bind (n : nat) (rows : list A) :
  pl_group_head key n rows =
    pl_unique (key <$> rows) ≫= fun k => pl_head n (filter (fun r => key r = k) rows).
Proof.
  unfold pl_group_head, pl_group_by.
  induction (pl_unique (key <$> rows)) as [|k ks IH]; [done |].
  by rewrite fmap_cons, !bind_cons, IH.
Qed.

(** The rows of one key that survive [group_by(key).head(n)] are the
    first [n] rows of that key, in frame order. *)
Lemma pl_group_head_key (n : nat) (rows : list A) (k : K) :
  filter (fun r => key r = k) (pl_group_head key n rows) =
    pl_head n (filter (fun r => key r = k) rows).
Proof.
  rewrite pl_group_head_bind, filter_key_bind.
  - destruct (decide (k ∈ pl_unique (key <$> rows))) as [|Hn]; [done |].
    rewrite filter_none; [unfold pl_head; by rewrite take_nil |].
    intros x Hx Hk. apply Hn, elem_of_pl_unique, list_elem_of_fmap. by exists x.
  - apply NoDup_pl_unique.
  - intros k' x Hx. unfold pl_head in Hx.
    apply elem_of_take in Hx as (i & Hx & _). apply list_elem_of_lookup_2 in Hx.
    by apply list_elem_of_filter in Hx as [? _].
Qed.

Lemma pl_group_head_sublist_key (n : nat) (rows : list A) (k : K) :
  filter (fun r => key r = k) (pl_group_head key n rows) `sublist_of` rows.
Proof.
  rewrite pl_group_head_key. unfold pl_head.
  etrans; [apply sublist_take | apply sublist_filter].
Qed.

Lemma elem_of_pl_group_head (n : nat) (rows : list A) (x : A) :
  x ∈ pl_group_head key n rows -> x ∈ rows.
Proof.
  intros Hx. eapply elem_of_sublist; [|apply (pl_group_head_sublist_key n rows (key x))].
  by apply list_elem_of_filter.
Qed.
End group_head.

(** ** Neighbour graph *)

Lemma elem_of_counts (prs : list (string * string)) (e : Cooccurrence.NeighborEdge) :
  e ∈ Cooccurrence.counts prs ->
  (Cooccurrence.item e, Cooccurrence.neighbor e) ∈ prs.
Proof.
  unfold Cooccurrence.counts. rewrite elem_of_pl_sort, list_elem_of_fmap.
  intros (g & -> & Hg). apply elem_of_pl_group_by in Hg as [Hk _].
  rewrite list_fmap_id in Hk. simpl. by destruct g as [[? ?] ?].
Qed.

Lemma elem_of_pairs (sds : list (string * string)) (p : string * string) :
  p ∈ Cooccurrence.pairs sds -> p.1 <> p.2.
Proof. unfold Cooccurrence.pairs. rewrite list_elem_of_filter. tauto. Qed.

(** C8 (as stated) fails on ties: for [tied_train] the edges of item "a"
    are (a, c, 1), (a, b, 1), equal counts with the neighbours not in
    ascending order. *)
Lemma neighbor_ties_not_by_id :
  ~ Sorted cnt_ge_then_neighbor
      (neighbor_list (Cooccurrence.build_item_neighbors tied_train 10 50) "a").
Proof.
  intros Hs.
  assert (neighbor_list (Cooccurrence.build_item_neighbors tied_train 10 50) "a" =
          [ {| Cooccurrence.item := "a"; Cooccurrence.neighbor := "c"; Cooccurrence.cnt := 1 |};
            {| Cooccurrence.item := "a"; Cooccurrence.neighbor := "b"; Cooccurrence.cnt := 1 |} ])
    as Heq by (vm_compute; reflexivity).
  rewrite Heq in Hs. apply Sorted_inv in Hs as [_ Hhd]. apply HdRel_inv in Hhd.
  destruct Hhd as [Hlt|[_ [Hlt|Heq']]]; simpl in *; [lia | | ]; discriminate.
Qed.

(** C8 (amended): in the edge frame of [build_item_neighbors], every item
    has at most [neighbors_per_item] edges, these are ordered by
    cooccurrence count descending (no order is promised among equal
    counts), and no edge joins an item with itself. *)
Theorem build_item_neighbors_invariant :
  forall (train : list Interaction) (seed_items_per_user neighbors_per_item : nat)
         (i : string),
    let edges := Cooccurrence.build_item_neighbors train seed_items_per_user
                   neighbors_per_item in
    (length (neighbor_list edges i) <= neighbors_per_item)%nat
    /\ StronglySorted cnt_ge (neighbor_list edges i)
    /\ Forall (fun e => Cooccurrence.item e <> Cooccurrence.neighbor e) edges.
Proof.
  intros train s n i edges.
  unfold edges, neighbor_list, Cooccurrence.build_item_neighbors.
  rewrite pl_group_head_key. unfold pl_head. split; [|split].
  - rewrite length_take. lia.
  - eapply StronglySorted_sublist; [apply sublist_take |].
    apply (lex_sorted_group Cooccurrence.item cnt_ge).
    apply (pl_sort_StronglySorted Cooccurrence.by_item_cnt).
  - apply Forall_forall. intros e He.
    apply elem_of_pl_group_head, elem_of_counts, elem_of_pairs in He. done.
Qed.

(** ** Seen items *)

Lemma elem_of_pl_join_left {A B K} `{EqDecision K} (kl : A -> K) (kr : B -> K)
    (ls : list A) (rs : list B) (l : A) (o : option B) :
  (l, o) ∈ pl_join_left kl kr ls rs ->
  l ∈ ls /\ match o with
            | Some r => r ∈ rs /\ kr r = kl l
            | None => forall r, r ∈ rs -> kr r <> kl l
            end.
Proof.
  unfold pl_join_left. rewrite list_elem_of_bind. intros (l' & Hin & Hl').
  destruct (filter (fun r => kr r = kl l') rs) as [|m ms] eqn:Hf.
  - apply list_elem_of_singleton in Hin as [= -> ->]. split; [done |].
    intros r Hr Hk. by apply (filter_nil_not_elem_of _ _ r Hf).
  - apply list_elem_of_fmap in Hin as (r & [= -> ->] & Hr). split; [done |].
    rewrite <- Hf in Hr. by apply list_elem_of_filter in Hr as [? ?].
Qed.

(** The seen list attached to a customer of train holds every article of
    the customer's train rows. *)
Lemma base_seen_complete (train : list Interaction) (users : list string)
    (u : string) (seen : list string) :
  (forall u, u ∈ users -> u ∈ customer_id <$> train) ->
  (u, seen) ∈ ((fun ur : string * option (string * list string) =>
                  (ur.1, default [] (snd <$> ur.2))) <$>
               pl_join_left id fst users (Popularity.user_seen train)) ->
  forall a, a ∈ train_items train u -> a ∈ seen.
Proof.
  intros Husers Hin a Ha.
  apply list_elem_of_fmap in Hin as ([u' o] & [= -> ->] & Hin).
  apply elem_of_pl_join_left in Hin as [Hu Ho]. simpl in *.
  destruct o as [[u'' seen']|]; simpl in *.
  - destruct Ho as [Hin Hk]. simpl in Hk. subst u''.
    unfold Popularity.user_seen in Hin.
    apply list_elem_of_fmap in Hin as (g & [= Hg1 ->] & Hg).
    apply elem_of_pl_group_by in Hg as [_ ->]. rewrite <- Hg1.
    by apply elem_of_pl_unique.
  - exfalso. apply Husers in Hu.
    assert (u' ∈ (Popularity.user_seen train).*1) as Hkey.
    { unfold Popularity.user_seen. rewrite <- list_fmap_compose.
      change (u' ∈ (pl_group_by customer_id train).*1).
      by rewrite pl_group_by_keys, elem_of_pl_unique. }
    apply list_elem_of_fmap in Hkey as (r & Hr & Hrin). by apply (Ho r).
Qed.

Lemma popularity_base_seen train max_users u seen :
  (u, seen) ∈ Popularity.base train max_users ->
  forall a, a ∈ train_items train u -> a ∈ seen.
Proof.
  apply base_seen_complete. intros u' Hu'. unfold Popularity.users in Hu'.
  eapply elem_of_sublist in Hu'; [|apply pl_head_opt_sublist].
  by rewrite elem_of_pl_unique in Hu'.
Qed.

Lemma cooccurrence_base_seen train max_users u seen :
  (u, seen) ∈ Cooccurrence.base train max_users ->
  forall a, a ∈ train_items train u -> a ∈ seen.
Proof.
  apply base_seen_complete. intros u' Hu'. unfold Cooccurrence.users in Hu'.
  rewrite <- (elem_of_pl_unique (customer_id <$> train)).
  destruct max_users as [[|n]|]; [done | | done].
  eapply elem_of_sublist; [done | apply sublist_take].
Qed.

(** ** Recommendation lists *)

(** The loop of [recs_for_seen] stops at [k] items once it starts below
    [k]. *)
Lemma recs_loop_length seen_set (k : Z) (items : list string) : forall out,
  len out < k -> len (Popularity.recs_loop seen_set k items out) <= k.
Proof.
  induction items as [|a items IH]; intros out Hout; simpl; [lia |].
  set (out' := if decide (a ∉ seen_set) then out ++ [a] else out).
  assert (len out' <= len out + 1) as Hle.
  { unfold out', len. destruct (decide (a ∉ seen_set)); [rewrite length_app; simpl |]; lia. }
  destruct (decide (len out' = k)) as [->|Hne]; [lia |]. apply IH. lia.
Qed.

(** The loop only ever appends pool items that are not seen. *)
Lemma recs_loop_elem_of seen_set (k : Z) (items : list string) : forall out x,
  x ∈ Popularity.recs_loop seen_set k items out ->
  x ∈ out \/ (x ∈ items /\ x ∉ seen_set).
Proof.
  induction items as [|a items IH]; intros out x Hx; simpl in Hx; [by left |].
  assert (forall y, y ∈ (if decide (a ∉ seen_set) then out ++ [a] else out) ->
                    y ∈ out \/ (y = a /\ a ∉ seen_set)) as Hout'.
  { intros y Hy. destruct (decide (a ∉ seen_set)); [|by left].
    apply elem_of_app in Hy as [?|Hy]; [by left |].
    apply list_elem_of_singleton in Hy. by right. }
  destruct (decide (len (if decide (a ∉ seen_set) then out ++ [a] else out) = k)).
  - destruct (Hout' x Hx) as [?|[-> ?]]; [by left |]. right. split; [by left | done].
  - apply IH in Hx as [Hx|[Hx ?]].
    + destruct (Hout' x Hx) as [?|[-> ?]]; [by left |]. right. split; [by left | done].
    + right. split; [by right | done].
Qed.

(** With [k = 0] the stop test of the loop is never met after the first
    append. *)
Lemma recs_loop_never_stops seen_set (items : list string) : forall out,
  out <> [] ->
  Popularity.recs_loop seen_set 0 items out =
    out ++ filter (fun a => a ∉ seen_set) items.
Proof.
  induction items as [|a items IH]; intros out Hout; simpl; [by rewrite app_nil_r |].
  rewrite filter_cons. destruct (decide (a ∉ seen_set)).
  - destruct (decide (len (out ++ [a]) = 0)) as [H0|_].
    + unfold len in H0. rewrite length_app in H0. simpl in H0. lia.
    + rewrite IH by (by destruct out). by rewrite <- app_assoc.
  - destruct (decide (len out = 0)) as [H0|_]; [|by apply IH].
    destruct out; [done | unfold len in H0; simpl in H0; lia].
Qed.

(** For K >= 1 both recommenders keep the invariant of C7: every list
    they return has at most K items and none of the customer's train
    articles. *)
Theorem recs_within_k_and_unseen :
  forall (train : list Interaction) (max_users : option nat),
    (forall (k : Z) (row : RecsRow) (recs : list string),
        1 <= k ->
        row ∈ Popularity.build_popularity_recs train k max_users ->
        rr_recs row = Some recs ->
        len recs <= k
        /\ forall a, a ∈ recs -> a ∉ train_items train (rr_customer_id row))
    /\ (forall (neighbors_df : list Cooccurrence.NeighborEdge)
               (k seed_items_per_user : nat) (row : RecsRow) (recs : list string),
        row ∈ Cooccurrence.build_cooccurrence_recs train neighbors_df k
                seed_items_per_user max_users ->
        rr_recs row = Some recs ->
        (length recs <= k)%nat
        /\ forall a, a ∈ recs -> a ∉ train_items train (rr_customer_id row)).
Proof.
  intros train max_users. split.
  - intros k row recs Hk Hrow Hrecs.
    unfold Popularity.build_popularity_recs in Hrow. cbv zeta in Hrow.
    apply list_elem_of_fmap in Hrow as ([u seen] & -> & Hbase).
    simpl in *. injection Hrecs as <-. unfold Popularity.recs_for_seen. split.
    + apply recs_loop_length. unfold len. simpl. lia.
    + intros a Ha Hin. apply recs_loop_elem_of in Ha as [Ha|[_ Ha]].
      * by apply elem_of_nil in Ha.
      * apply Ha, elem_of_list_to_set.
        by apply (popularity_base_seen train max_users u seen).
  - intros neighbors_df k s row recs Hrow Hrecs.
    unfold Cooccurrence.build_cooccurrence_recs in Hrow. cbv zeta in Hrow.
    apply list_elem_of_fmap in Hrow as ([u g] & -> & Hg).
    simpl in *. injection Hrecs as <-. unfold pl_head. split.
    + rewrite length_take. lia.
    + intros a Ha Hin. eapply elem_of_sublist in Ha; [|apply sublist_take].
      apply list_elem_of_fmap in Ha as (sc & -> & Hsc).
      apply elem_of_pl_group_by in Hg as [_ Hg]. simpl in Hg. subst g.
      apply list_elem_of_filter in Hsc as [Hu Hsc].
      unfold Cooccurrence.filtered in Hsc.
      apply list_elem_of_fmap in Hsc as ([sc' [u' seen]] & -> & Hsb).
      apply list_elem_of_filter in Hsb as [Hkeep Hjoin]. simpl in *.
      apply elem_of_pl_join_inner in Hjoin as (_ & Hbase & Hkey). simpl in Hkey.
      unfold Cooccurrence.not_seen in Hkeep. apply bool_decide_eq_true in Hkeep.
      apply Hkeep, elem_of_list_to_set.
      apply (cooccurrence_base_seen train max_users u' seen Hbase).
      by rewrite Hkey, Hu.
Qed.

Lemma recs_within_k_and_unseen_witness :
  len ["b"%string] <= 1
  /\ forall a, a ∈ ["b"%string] -> a ∉ train_items popular_b_train "u1".
Proof.
  apply (proj1 (recs_within_k_and_unseen popular_b_train (Some 100%nat)) 1
           {| rr_customer_id := "u1"; rr_recs := Some ["b"%string] |} ["b"%string]).
  - lia.
  - assert (Popularity.build_popularity_recs popular_b_train 1 (Some 100%nat) =
      [ {| rr_customer_id := "u1"; rr_recs := Some ["b"%string] |};
        {| rr_customer_id := "u2"; rr_recs := Some ["a"%string] |};
        {| rr_customer_id := "u3"; rr_recs := Some ["a"%string] |} ]) as ->
      by (vm_compute; reflexivity).
    by left.
  - reflexivity.
Defined.

(** C7 at K = 0: the popularity baseline returns the one-item list ["b"]
    for customer "u1", longer than K. [recs_for_seen] tests
    [len(out) == k] only after an append, so with [k = 0] it never stops
    once the first unseen item is in [out]; the co-occurrence baseline
    ([head(k)]) returns empty lists there. *)
Theorem popularity_k0_exceeds_k :
  Popularity.build_popularity_recs popular_b_train 0 (Some 100%nat) =
    [ {| rr_customer_id := "u1"; rr_recs := Some ["b"%string] |};
      {| rr_customer_id := "u2"; rr_recs := Some [] |};
      {| rr_customer_id := "u3"; rr_recs := Some [] |} ]
  /\ ~ (forall row recs,
          row ∈ Popularity.build_popularity_recs popular_b_train 0 (Some 100%nat) ->
          rr_recs row = Some recs -> len recs <= 0).
Proof.
  assert (Popularity.build_popularity_recs popular_b_train 0 (Some 100%nat) =
    [ {| rr_customer_id := "u1"; rr_recs := Some ["b"%string] |};
      {| rr_customer_id := "u2"; rr_recs := Some [] |};
      {| rr_customer_id := "u3"; rr_recs := Some [] |} ]) as Heq
    by (vm_compute; reflexivity).
  split; [done |]. rewrite Heq. intros Hall.
  specialize (Hall {| rr_customer_id := "u1"; rr_recs := Some ["b"%string] |}
                   ["b"%string] ltac:(by left) eq_refl).
  unfold len in Hall. simpl in Hall. lia.
Qed.

(** ** Cold start in the co-occurrence baseline *)

Lemma lonely_recs :
  Cooccurrence.build_cooccurrence_recs lonely_train
    (Cooccurrence.build_item_neighbors lonely_train 10 50) 12 10 (Some 100%nat)
  = [ {| rr_customer_id := "u3"; rr_recs := Some ["c"%string] |} ].
Proof. vm_compute. reflexivity. Qed.

(** C3 (as stated) fails: "u1", whose only seed "a" has no neighbour edge,
    has no row at all in the output (only "u3" has one). *)
Lemma cold_start_user_is_absent :
  ~ has_empty_entry
      (Cooccurrence.build_cooccurrence_recs lonely_train
         (Cooccurrence.build_item_neighbors lonely_train 10 50) 12 10 (Some 100%nat))
      "u1".
Proof.
  rewrite lonely_recs. intros (row & Hrow & Hu & _).
  apply list_elem_of_singleton in Hrow. subst row. discriminate Hu.
Qed.

Lemma elem_of_scored (sds : list (string * string))
    (neighbors_df : list Cooccurrence.NeighborEdge) (sc : Cooccurrence.Scored) :
  sc ∈ Cooccurrence.scored sds neighbors_df ->
  exists sd e, sd ∈ sds /\ e ∈ neighbors_df /\ Cooccurrence.item e = sd.2
               /\ sd.1 = Cooccurrence.sc_customer_id sc
               /\ Cooccurrence.neighbor e = Cooccurrence.sc_neighbor sc.
Proof.
  unfold Cooccurrence.scored. rewrite elem_of_pl_sort, list_elem_of_fmap.
  intros (g & -> & Hg). apply elem_of_pl_group_by in Hg as [Hk _].
  apply list_elem_of_fmap in Hk as ([sd e] & Hkey & Hin).
  apply elem_of_pl_join_inner in Hin as (Hsd & He & Hitem).
  exists sd, e. simpl in *. rewrite Hkey. done.
Qed.

Lemma elem_of_filtered (scd : list Cooccurrence.Scored)
    (bs : list (string * list string)) (sc : Cooccurrence.Scored) :
  sc ∈ Cooccurrence.filtered scd bs -> sc ∈ scd.
Proof.
  unfold Cooccurrence.filtered. rewrite list_elem_of_fmap.
  intros ([sc' b] & -> & Hin). apply list_elem_of_filter in Hin as [_ Hin].
  by apply elem_of_pl_join_inner in Hin as (? & _).
Qed.

(** C3 (amended): a customer none of whose seed items has a neighbour
    edge (in particular a customer without train rows) is absent from the
    output of the co-occurrence recommender: no row, and no error. For
    K >= 1 no row of the output carries an empty list. *)
Theorem cold_start_user_has_no_row :
  forall (train : list Interaction) (neighbors_df : list Cooccurrence.NeighborEdge)
         (k seed_items_per_user : nat) (max_users : option nat),
    let recs_df := Cooccurrence.build_cooccurrence_recs train neighbors_df k
                     seed_items_per_user max_users in
    (forall u, no_seed_edge train seed_items_per_user neighbors_df u ->
               u ∉ rr_customer_id <$> recs_df)
    /\ (forall u, no_seed_edge train seed_items_per_user neighbors_df u ->
                  ~ has_empty_entry recs_df u)
    /\ ((1 <= k)%nat -> forall row, row ∈ recs_df -> rr_recs row <> Some []).
Proof.
  intros train neighbors_df k s max_users recs_df.
  assert (forall u, no_seed_edge train s neighbors_df u ->
                    u ∉ rr_customer_id <$> recs_df) as Habsent.
  { intros u Hno Hin. unfold recs_df, Cooccurrence.build_cooccurrence_recs in Hin.
    cbv zeta in Hin. rewrite <- list_fmap_compose in Hin.
    apply list_elem_of_fmap in Hin as (g & Hu & Hg). simpl in Hu.
    apply elem_of_pl_group_by in Hg as [Hk _]. rewrite <- Hu in Hk.
    apply list_elem_of_fmap in Hk as (sc & Hsc & Hin).
    apply elem_of_filtered, elem_of_scored in Hin as (sd & e & Hsd & He & Hitem & Hcust & _).
    apply (Hno sd e); [done | congruence | done | done]. }
  split; [done |]. split.
  - intros u Hno (row & Hrow & Hu & _). apply (Habsent u Hno).
    apply list_elem_of_fmap. by exists row.
  - intros Hk row Hrow Hrecs. unfold recs_df, Cooccurrence.build_cooccurrence_recs in Hrow.
    cbv zeta in Hrow. apply list_elem_of_fmap in Hrow as (g & -> & Hg).
    simpl in Hrecs. apply elem_of_pl_group_by in Hg as [Hkey Hg2].
    apply list_elem_of_fmap in Hkey as (sc & Hsc & Hin).
    assert (sc ∈ g.2) as Hmem by (rewrite Hg2; by apply list_elem_of_filter).
    destruct (g.2) as [|sc0 rest]; [by apply elem_of_nil in Hmem |].
    destruct k; [lia |]. discriminate Hrecs.
Qed.

Lemma cold_start_user_has_no_row_witness :
  "u1"%string ∉ rr_customer_id <$>
    Cooccurrence.build_cooccurrence_recs lonely_train
      (Cooccurrence.build_item_neighbors lonely_train 10 50) 12 10 (Some 100%nat).
Proof.
  apply (cold_start_user_has_no_row lonely_train
           (Cooccurrence.build_item_neighbors lonely_train 10 50) 12 10 (Some 100%nat)).
  intros sd e Hsd Hu He.
  assert (Cooccurrence.seeds lonely_train 10 =
          [("u1", "a"); ("u2", "b"); ("u2", "c"); ("u3", "b")]%string) as Hseeds
    by (vm_compute; reflexivity).
  assert ((Cooccurrence.item <$> Cooccurrence.build_item_neighbors lonely_train 10 50) =
          ["b"; "c"]%string) as Hitems by (vm_compute; reflexivity).
  rewrite Hseeds in Hsd.
  assert (Cooccurrence.item e ∈ ["b"; "c"]%string) as Hi
    by (rewrite <- Hitems; apply list_elem_of_fmap; by exists e).
  repeat (apply elem_of_cons in Hsd as [->|Hsd]); try discriminate Hu;
    [| by apply elem_of_nil in Hsd].
  simpl. intros Heq. rewrite Heq in Hi.
  repeat (apply elem_of_cons in Hi as [Hi|Hi]; [discriminate Hi |]).
  by apply elem_of_nil in Hi.
Defined.

(** ** Top-N selections and ties *)

(** C2 (as stated) fails: on [tied_train] (a, c, b with equal scores) and
    two seeds per customer, a run that leaves tied rows in frame order (one
    of the orders the sort may return, and the one of the embedding)
    selects a, c; the order with the id tie-break selects a, b. *)
Lemma seed_ties_not_by_id : ~ ties_broken_by_id tied_train 2 50.
Proof.
  intros [Hseeds _]. specialize (Hseeds "u1"%string).
  vm_compute in Hseeds. discriminate Hseeds.
Qed.

Lemma seeds_of_seed_rows train n :
  Cooccurrence.seeds train n =
    (fun r => (customer_id r, article_id r)) <$> seed_rows train n.
Proof. reflexivity. Qed.

Lemma item_counts_popularity train (p : string * Z) :
  p ∈ Popularity.item_counts train -> p.2 = popularity train p.1.
Proof.
  unfold Popularity.item_counts. rewrite list_elem_of_fmap.
  intros (g & -> & Hg). apply elem_of_pl_group_by in Hg as [_ Hg]. simpl.
  by rewrite Hg.
Qed.

Lemma top_items_sorted train :
  StronglySorted (popularity_ge train) (Popularity.top_items train).
Proof.
  unfold Popularity.top_items, pl_head.
  eapply StronglySorted_sublist; [apply sublist_take |].
  apply (StronglySorted_fmap _ (fun x y : string * Z =>
           popularity train y.1 <= popularity train x.1)); [done |].
  apply (StronglySorted_weaken Popularity.cnt_desc _
           (fun p => p.2 = popularity train p.1)).
  - intros x y Hx Hy Hxy. unfold Popularity.cnt_desc in Hxy. by rewrite <- Hx, <- Hy.
  - apply Forall_forall. intros p Hp. apply item_counts_popularity.
    by rewrite (elem_of_pl_sort Popularity.cnt_desc) in Hp.
  - apply (pl_sort_StronglySorted Popularity.cnt_desc).
Qed.

(** C2 (amended): every top-N selection orders by the score or count
    descending and by nothing else. The seeds of a customer are the first
    [seed_items_per_user] of the customer's train rows in implicit_score
    descending order; the neighbours of an item are the first
    [neighbors_per_item] of its edges in count descending order; the
    popularity pool is the first 5000 articles in train-count descending
    order. No id is a sort key: two train rows of one customer with equal
    scores, two edges of one item with equal counts and two articles with
    equal counts are equivalent for the sort whatever their ids, so among
    ties neither the order nor, at the cut, the selected set is fixed by
    the ids, and no order among ties is promised. *)
Theorem top_n_orders_by_score_only :
  forall (train : list Interaction) (seed_items_per_user neighbors_per_item : nat),
    (forall u,
        let ranked := filter (fun r => customer_id r = u)
                        (pl_sort Cooccurrence.by_customer_score train) in
        filter (fun r => customer_id r = u) (seed_rows train seed_items_per_user) =
          take seed_items_per_user ranked
        /\ StronglySorted score_ge ranked
        /\ ranked ≡ₚ filter (fun r => customer_id r = u) train)
    /\ (forall i,
        let ranked := filter (fun e => Cooccurrence.item e = i)
                        (Cooccurrence.counts
                           (Cooccurrence.pairs
                              (Cooccurrence.seeds train seed_items_per_user))) in
        neighbor_list (Cooccurrence.build_item_neighbors train seed_items_per_user
                         neighbors_per_item) i = take neighbors_per_item ranked
        /\ StronglySorted cnt_ge ranked)
    /\ Popularity.top_items train =
         take 5000 (fst <$> pl_sort Popularity.cnt_desc (Popularity.item_counts train))
    /\ StronglySorted (popularity_ge train) (Popularity.top_items train)
    /\ (forall x y : Interaction,
          customer_id x = customer_id y -> (implicit_score x == implicit_score y)%Q ->
          Cooccurrence.by_customer_score x y /\ Cooccurrence.by_customer_score y x)
    /\ (forall x y : Cooccurrence.NeighborEdge,
          Cooccurrence.item x = Cooccurrence.item y ->
          Cooccurrence.cnt x = Cooccurrence.cnt y ->
          Cooccurrence.by_item_cnt x y /\ Cooccurrence.by_item_cnt y x)
    /\ (forall x y : string * Z,
          x.2 = y.2 -> Popularity.cnt_desc x y /\ Popularity.cnt_desc y x).
Proof.
  intros train s n.
  split; [|split; [|split; [|split; [|split; [|split]]]]];
    [| | | |
     intros x y Hc Hs; unfold Cooccurrence.by_customer_score;
       split; right; (split; [done |]); rewrite Hs; apply Qle_refl
     | intros x y Hi Hc; unfold Cooccurrence.by_item_cnt;
       split; right; (split; [done |]); lia
     | intros x y Hc; unfold Popularity.cnt_desc; lia].
  - intros u ranked. split; [|split].
    + unfold seed_rows. by rewrite pl_group_head_key.
    + apply (lex_sorted_group customer_id score_ge).
      apply (pl_sort_StronglySorted Cooccurrence.by_customer_score).
    + unfold ranked. by rewrite pl_sort_Permutation.
  - intros i ranked. split.
    + unfold neighbor_list, Cooccurrence.build_item_neighbors.
      by rewrite pl_group_head_key.
    + apply (lex_sorted_group Cooccurrence.item cnt_ge).
      apply (pl_sort_StronglySorted Cooccurrence.by_item_cnt).
  - reflexivity.
  - apply top_items_sorted.
Qed.

(** ** Score builder *)

Lemma main_one_purchase (today : date) :
  ScoreBuilder.main today one_purchase =
    [ {| ScoreBuilder.sb_customer_id := "u1";
         ScoreBuilder.sb_article_id := "a";
         ScoreBuilder.sb_freq := 1;
         ScoreBuilder.sb_last_seen := 18500;
         ScoreBuilder.sb_implicit_score := implicit_score_on today 1 18500 |} ].
Proof. reflexivity. Qed.

Lemma freq_score_pos (freq : Z) : 1 <= freq -> (0 < ScoreBuilder.freq_score freq)%R.
Proof.
  intros Hf. unfold ScoreBuilder.freq_score. rewrite <- ln_1.
  apply ln_increasing; [Lra.lra |]. apply IZR_le in Hf. Lra.lra.
Qed.

(** A later run scores the same pair strictly lower. *)
Lemma implicit_score_on_decreasing (today1 today2 : date) (freq : Z) (last_seen : date) :
  1 <= freq -> today1 < today2 ->
  (implicit_score_on today2 freq last_seen < implicit_score_on today1 freq last_seen)%R.
Proof.
  intros Hf Ht. unfold implicit_score_on.
  apply Rmult_lt_compat_l; [by apply freq_score_pos |].
  unfold ScoreBuilder.recency_score, ScoreBuilder.days_since_last,
    ScoreBuilder.half_life_days.
  apply exp_increasing. rewrite !minus_IZR. apply IZR_lt in Ht. Lra.lra.
Qed.


Lemma foldl_max_spec (rest : list Z) : forall d : Z,
  (foldl Z.max d rest ∈ d :: rest)
  /\ forall x, x ∈ d :: rest -> x <= foldl Z.max d rest.
Proof.
  induction rest as [|y rest IH]; intros d; simpl.
  - split; [by left |]. intros x Hx. apply list_elem_of_singleton in Hx. lia.
  - destruct (IH (Z.max d y)) as [Hin Hle]. split.
    + apply elem_of_cons in Hin as [Heq|Hin]; [|by right; right].
      rewrite Heq. destruct (Z.max_spec d y) as [[_ ->]|[_ ->]]; [right; by left | by left].
    + intros x Hx.
      assert (Z.max d y <= foldl Z.max (Z.max d y) rest) by (apply Hle; by left).
      apply elem_of_cons in Hx as [->|Hx]; [lia |].
      apply elem_of_cons in Hx as [->|Hx]; [lia |]. apply Hle. by right.
Qed.

Lemma max_date_spec (ds : list date) :
  ds <> [] ->
  ScoreBuilder.max_date ds ∈ ds /\ forall d, d ∈ ds -> d <= ScoreBuilder.max_date ds.
Proof. destruct ds as [|d rest]; [done |]. intros _. apply foldl_max_spec. Qed.

(** What [main] writes for a pair: the number of its complete events, the
    latest of their dates, and the score of that pair on the run date. *)
Lemma main_row_spec (today : date) (events : list ScoreBuilder.RawEvent)
    (row : ScoreBuilder.ScoredRow) :
  row ∈ ScoreBuilder.main today events ->
  let es := filter (fun e : string * string * date =>
                      (e.1.1, e.1.2) =
                        (ScoreBuilder.sb_customer_id row, ScoreBuilder.sb_article_id row))
              (ScoreBuilder.drop_nulls events) in
  ScoreBuilder.sb_freq row = len es
  /\ 1 <= ScoreBuilder.sb_freq row
  /\ ScoreBuilder.sb_last_seen row ∈ snd <$> es
  /\ (forall d, d ∈ snd <$> es -> d <= ScoreBuilder.sb_last_seen row)
  /\ ScoreBuilder.sb_implicit_score row =
       implicit_score_on today (ScoreBuilder.sb_freq row) (ScoreBuilder.sb_last_seen row).
Proof.
  unfold ScoreBuilder.main. cbv zeta.
  rewrite (elem_of_pl_sort ScoreBuilder.by_customer_score), list_elem_of_fmap.
  intros (g & -> & Hg). apply elem_of_pl_group_by in Hg as [Hk Hg]. simpl.
  assert ((g.1.1, g.1.2) = g.1) as -> by (by destruct g as [[? ?] ?]).
  rewrite <- Hg.
  assert (g.2 <> []) as Hne.
  { apply list_elem_of_fmap in Hk as (e & He & Hin). rewrite Hg. intros Hnil.
    by apply (filter_nil_not_elem_of _ _ e Hnil). }
  destruct (max_date_spec (snd <$> g.2)) as [Hin Hmax].
  { by destruct (g.2). }
  repeat split; try done.
  unfold len. destruct (g.2); [done | simpl; lia].
Qed.

(** Sorting commutes with a map that preserves the order. *)
Lemma pl_insert_fmap {A} (R : relation A) `{forall x y, Decision (R x y)}
    (f : A -> A) (x : A) (l : list A) :
  (forall x y, R (f x) (f y) <-> R x y) ->
  pl_insert R (f x) (f <$> l) = f <$> pl_insert R x l.
Proof.
  intros Hf. induction l as [|y l IH]; [done |]. cbn [fmap list_fmap pl_insert].
  change (list_fmap A A f l) with (f <$> l). rewrite IH.
  destruct (decide (R (f x) (f y))) as [H1|H1], (decide (R x y)) as [H2|H2];
    try done; exfalso.
  - by apply H2, Hf.
  - by apply H1, Hf.
Qed.

Lemma pl_sort_fmap {A} (R : relation A) `{forall x y, Decision (R x y)}
    (f : A -> A) (l : list A) :
  (forall x y, R (f x) (f y) <-> R x y) ->
  pl_sort R (f <$> l) = f <$> pl_sort R l.
Proof.
  intros Hf. induction l as [|x l IH]; [done |]. cbn [fmap list_fmap pl_sort].
  change (list_fmap A A f l) with (f <$> l). rewrite IH. by apply pl_insert_fmap.
Qed.

Lemma implicit_score_on_shift (today1 today2 : date) (freq : Z) (last_seen : date) :
  implicit_score_on today2 freq last_seen =
    (implicit_score_on today1 freq last_seen * decay today1 today2)%R.
Proof.
  unfold implicit_score_on, decay, ScoreBuilder.recency_score,
    ScoreBuilder.days_since_last, ScoreBuilder.half_life_days.
  rewrite Rmult_assoc, <- exp_plus. do 2 f_equal. rewrite !minus_IZR. Lra.lra.
Qed.

Lemma rescale_order (c : R) (x y : ScoreBuilder.ScoredRow) :
  (0 < c)%R ->
  ScoreBuilder.by_customer_score (rescale c x) (rescale c y) <->
  ScoreBuilder.by_customer_score x y.
Proof.
  intros Hc. unfold ScoreBuilder.by_customer_score, rescale. simpl.
  assert ((ScoreBuilder.sb_implicit_score y * c <= ScoreBuilder.sb_implicit_score x * c)%R
          <-> (ScoreBuilder.sb_implicit_score y <= ScoreBuilder.sb_implicit_score x)%R)
    as Hiff.
  { split; intros Hle.
    - by apply Rmult_le_reg_r in Hle.
    - apply Rmult_le_compat_r; [Lra.lra | done]. }
  tauto.
Qed.

(** Two runs on the same events differ by the decay between their dates,
    on every score, and in nothing else. *)
Lemma main_run_date_shift (today1 today2 : date) (events : list ScoreBuilder.RawEvent) :
  ScoreBuilder.main today2 events =
    rescale (decay today1 today2) <$> ScoreBuilder.main today1 events.
Proof.
  unfold ScoreBuilder.main. cbv zeta.
  rewrite <- (pl_sort_fmap ScoreBuilder.by_customer_score).
  2:{ intros x y. apply rescale_order. apply exp_pos. }
  f_equal. rewrite <- list_fmap_compose. apply list_fmap_ext. intros i g Hg.
  unfold rescale, compose. simpl. f_equal.
  apply (implicit_score_on_shift today1 today2).
Qed.



(** ** More on the two metrics *)

Lemma hits_in_app truth (l1 l2 : list string) :
  hits_in truth (l1 ++ l2) = hits_in truth l1 + hits_in truth l2.
Proof. unfold hits_in, len. rewrite filter_app, length_app. lia. Qed.

Lemma hits_in_take_mono truth (l : list string) (n m : nat) :
  (n <= m)%nat -> hits_in truth (take n l) <= hits_in truth (take m l).
Proof.
  intros Hnm. rewrite <- (take_drop n (take m l)), hits_in_app.
  rewrite take_take, Nat.min_l by done.
  pose proof (hits_in_nonneg truth (drop n (take m l))). lia.
Qed.

Lemma hits_in_zero truth (l : list string) :
  hits_in truth l = 0 <-> forall a, a ∈ l -> a ∉ truth.
Proof.
  unfold hits_in, len. split.
  - intros H0 a Ha Hin.
    assert (a ∈ filter (fun a => a ∈ truth) l) as Hf by (by apply list_elem_of_filter).
    destruct (filter (fun a => a ∈ truth) l); [by apply elem_of_nil in Hf | simpl in H0; lia].
  - intros Hno. rewrite filter_none; [done |]. intros x Hx. by apply Hno.
Qed.

Lemma Q_div_le_mono (a b : Q) (n : Z) :
  (a <= b)%Q -> 0 < n -> (a / inject_Z n <= b / inject_Z n)%Q.
Proof.
  intros Hab Hn. unfold Qdiv. apply Qmult_le_compat_r; [done |].
  apply Qinv_le_0_compat. change (inject_Z 0 <= inject_Z n)%Q.
  rewrite <- Zle_Qle. lia.
Qed.

(** Recall and AP on exact rationals, in [0, 1] for a list without
    repeated items. *)
Lemma recall_bounds_Q (recs : list string) (truth : gset string) (k : Z) :
  NoDup recs -> (0 <= Metrics.recall_at_k (F:=Q) recs truth k <= 1)%Q.
Proof.
  intros Hnd. rewrite recall_at_k_unfold.
  destruct (decide (truth = ∅)) as [|Hne]; [vm_compute; split; discriminate |].
  pose proof (size_nonempty_pos truth Hne).
  pose proof (hits_in_le_truth truth _ (py_prefix_NoDup recs k Hnd)).
  pose proof (hits_in_nonneg truth (py_prefix recs k)).
  apply Q_ratio_bounds; lia.
Qed.

Lemma ap_bounds_Q (recs : list string) (truth : gset string) (k : Z) :
  NoDup recs -> (0 <= Metrics.ap_at_k (F:=Q) recs truth k <= 1)%Q.
Proof.
  intros Hnd. unfold Metrics.ap_at_k. cbv zeta.
  destruct (decide (truth = ∅)); [vm_compute; split; discriminate |].
  destruct (decide (0 < Z.of_nat (size truth) `min` k)) as [Hk|];
    [| vm_compute; split; discriminate].
  pose proof (hits_in_le_truth truth _ (py_prefix_NoDup recs k Hnd)) as Hle.
  pose proof (hits_in_le_len truth (py_prefix recs k)) as Hlen.
  pose proof (py_prefix_length recs k ltac:(lia)) as Hpk.
  pose proof (ap_loop_bounds truth (py_prefix recs k) 1 0 fzero ltac:(lia)) as [Hl Hu].
  change (fzero (F:=Q)) with 0%Q in *.
  apply (Q_div_bounds _ (hits_in truth (py_prefix recs k))); [split; Lqa.lra | lia | lia].
Qed.

(** X2: for 0 <= K <= K', [recall_at_k] at K is at most [recall_at_k] at
    K' (on exact rationals): a longer cut-off never lowers recall. *)
Theorem recall_at_k_monotone :
  forall (recs : list string) (truth : gset string) (k k' : Z),
    0 <= k <= k' ->
    (Metrics.recall_at_k (F:=Q) recs truth k <= Metrics.recall_at_k (F:=Q) recs truth k')%Q.
Proof.
  intros recs truth k k' [Hk Hkk']. rewrite !recall_at_k_unfold.
  destruct (decide (truth = ∅)) as [|Hne]; [apply Qle_refl |].
  apply Q_div_le_mono; [|by apply size_nonempty_pos].
  rewrite <- Zle_Qle, !py_prefix_nonneg by lia.
  apply hits_in_take_mono. lia.
Qed.

Lemma recall_at_k_monotone_witness :
  (Metrics.recall_at_k (F:=Q) ["x"; "a"; "b"]%string {["a"%string; "b"%string]} 2
   <= Metrics.recall_at_k (F:=Q) ["x"; "a"; "b"]%string {["a"%string; "b"%string]} 3)%Q.
Proof.
  apply (recall_at_k_monotone ["x"; "a"; "b"]%string {["a"%string; "b"%string]} 2 3).
  lia.
Defined.

Lemma ap_loop_no_hits {F} `{PyNum F} truth (l : list string) : forall (i hits : Z) (s : F),
  (forall a, a ∈ l -> a ∉ truth) -> Metrics.ap_loop truth l i hits s = s.
Proof.
  induction l as [|a l IH]; intros i hits s Hno; [done |]. cbn [Metrics.ap_loop].
  destruct (decide (a ∈ truth)) as [Hin|_].
  - exfalso. by apply (Hno a); [left |].
  - apply IH. intros b Hb. apply Hno. by right.
Qed.

(** One hit makes the running sum strictly larger. *)
Lemma ap_loop_pos truth (l : list string) : forall (i hits : Z) (s : Q),
  0 <= hits < i -> (exists a, a ∈ l /\ a ∈ truth) ->
  (s < Metrics.ap_loop truth l i hits s)%Q.
Proof.
  induction l as [|a l IH]; intros i hits s Hi (b & Hb & Hbt).
  - by apply elem_of_nil in Hb.
  - cbn [Metrics.ap_loop]. destruct (decide (a ∈ truth)) as [Ha|Ha].
    + cbv zeta.
      pose proof (ap_loop_bounds truth l (i + 1) (hits + 1)
                    (fadd s (truediv_int (hits + 1) i)) ltac:(lia)) as [Hl _].
      change (truediv_int (F:=Q) (hits + 1) i) with (inject_Z (hits + 1) / inject_Z i)%Q in *.
      change (fadd (F:=Q)) with Qplus in *.
      assert (0 < inject_Z (hits + 1) / inject_Z i)%Q as Hpos.
      { apply Qlt_shift_div_l.
        - change (inject_Z 0 < inject_Z i)%Q. rewrite <- Zlt_Qlt. lia.
        - rewrite Qmult_0_l. change (inject_Z 0 < inject_Z (hits + 1))%Q.
          rewrite <- Zlt_Qlt. lia. }
      set (t := (inject_Z (hits + 1) / inject_Z i)%Q) in *.
      set (v := Metrics.ap_loop truth l (i + 1) (hits + 1) (s + t)%Q) in *.
      Lqa.lra.
    + apply IH; [lia |]. exists b. split; [|done].
      apply elem_of_cons in Hb as [->|Hb]; done.
Qed.

Lemma Q_div_zero_iff (s : Q) (n : Z) :
  (0 <= s)%Q -> 0 < n -> ((s / inject_Z n == 0)%Q <-> (s == 0)%Q).
Proof.
  intros Hs Hn.
  assert (0 < inject_Z n)%Q as Hq
    by (change (inject_Z 0 < inject_Z n)%Q; rewrite <- Zlt_Qlt; lia).
  split.
  - intros Hdiv. destruct (Qlt_le_dec 0 s) as [Hlt|Hle]; [|Lqa.lra].
    assert (0 < s / inject_Z n)%Q.
    { apply Qlt_shift_div_l; [done |]. by rewrite Qmult_0_l. }
    Lqa.lra.
  - intros ->. unfold Qdiv. apply Qmult_0_l.
Qed.

Lemma hits_in_pos (truth : gset string) (l : list string) :
  0 < hits_in truth l -> exists a, a ∈ l /\ a ∈ truth.
Proof.
  unfold hits_in, len. intros Hpos.
  destruct (filter (fun a => a ∈ truth) l) as [|a rest] eqn:Hf; [simpl in Hpos; lia |].
  assert (a ∈ filter (fun a => a ∈ truth) l) as Ha by (rewrite Hf; by left).
  apply list_elem_of_filter in Ha as [? ?]. by exists a.
Qed.

Lemma no_hit_cases (truth : gset string) (l : list string) :
  (forall a, a ∈ l -> a ∉ truth) \/ (exists a, a ∈ l /\ a ∈ truth).
Proof.
  pose proof (hits_in_nonneg truth l).
  destruct (decide (hits_in truth l = 0)) as [H0|Hn].
  - left. by apply hits_in_zero.
  - right. apply hits_in_pos. lia.
Qed.

(** X3: for K >= 1 and a non-empty truth set, each of [recall_at_k] and
    [ap_at_k] is zero exactly when none of the first K predictions is in
    the truth set (on exact rationals). *)
Theorem metrics_zero_iff_no_hit :
  forall (recs : list string) (truth : gset string) (k : Z),
    1 <= k -> truth <> ∅ ->
    ((Metrics.recall_at_k (F:=Q) recs truth k == 0)%Q <->
       forall a, a ∈ take (Z.to_nat k) recs -> a ∉ truth)
    /\ ((Metrics.ap_at_k (F:=Q) recs truth k == 0)%Q <->
       forall a, a ∈ take (Z.to_nat k) recs -> a ∉ truth).
Proof.
  intros recs truth k Hk Hne.
  pose proof (size_nonempty_pos truth Hne) as Hsz.
  rewrite <- (py_prefix_nonneg recs k) by lia.
  pose proof (hits_in_nonneg truth (py_prefix recs k)) as H0. split.
  - rewrite recall_at_k_unfold. destruct (decide (truth = ∅)); [done |].
    change (of_int (F:=Q)) with inject_Z. change (fdiv (F:=Q)) with Qdiv.
    rewrite Q_div_zero_iff; [| | done].
    2:{ change (inject_Z 0 <= inject_Z (hits_in truth (py_prefix recs k)))%Q.
        by rewrite <- Zle_Qle. }
    rewrite <- hits_in_zero. apply (inject_Z_injective _ 0).
  - unfold Metrics.ap_at_k. cbv zeta. destruct (decide (truth = ∅)); [done |].
    destruct (decide (0 < Z.of_nat (size truth) `min` k)) as [Hd|]; [|lia].
    pose proof (ap_loop_bounds truth (py_prefix recs k) 1 0 fzero ltac:(lia)) as [Hl _].
    change (fzero (F:=Q)) with 0%Q in *.
    change (of_int (F:=Q)) with inject_Z. change (fdiv (F:=Q)) with Qdiv.
    rewrite Q_div_zero_iff by done. split.
    + intros Hz. destruct (no_hit_cases truth (py_prefix recs k)) as [|Hhit]; [done |].
      pose proof (ap_loop_pos truth (py_prefix recs k) 1 0 0%Q ltac:(lia) Hhit).
      Lqa.lra.
    + intros Hno. by rewrite ap_loop_no_hits.
Qed.

Lemma metrics_zero_iff_no_hit_witness :
  (Metrics.ap_at_k (F:=Q) ["x"; "y"; "a"]%string {["a"%string]} 2 == 0)%Q <->
    forall a, a ∈ take (Z.to_nat 2) ["x"; "y"; "a"]%string -> a ∉ ({["a"%string]} : gset string).
Proof.
  apply (metrics_zero_iff_no_hit ["x"; "y"; "a"]%string {["a"%string]} 2); [lia |].
  apply (non_empty_singleton_L (C:=gset string)).
Defined.

(** A run of hits followed by misses adds one per hit. *)
Lemma ap_loop_hits_then_misses truth (l rest : list string) : forall (hits : Z) (s : Q),
  0 <= hits ->
  (forall a, a ∈ l -> a ∈ truth) -> (forall a, a ∈ rest -> a ∉ truth) ->
  (Metrics.ap_loop truth (l ++ rest) (hits + 1) hits s == s + inject_Z (len l))%Q.
Proof.
  induction l as [|a l IH]; intros hits s Hh Hl Hrest.
  - simpl. rewrite ap_loop_no_hits by done. unfold len. simpl.
    change (inject_Z (Z.of_nat 0)) with 0%Q. Lqa.lra.
  - cbn [app Metrics.ap_loop]. destruct (decide (a ∈ truth)) as [_|Hn].
    2:{ exfalso. apply Hn, Hl. by left. }
    cbv zeta. rewrite IH; [| lia | intros b Hb; apply Hl; by right | done].
    change (truediv_int (F:=Q) (hits + 1) (hits + 1))
      with (inject_Z (hits + 1) / inject_Z (hits + 1))%Q.
    change (fadd (F:=Q)) with Qplus.
    assert (inject_Z (hits + 1) / inject_Z (hits + 1) == 1)%Q as ->.
    { apply Qmult_inv_r. intros H0. change 0%Q with (inject_Z 0) in H0.
      rewrite inject_Z_injective in H0. lia. }
    unfold len. cbn [length]. rewrite Nat2Z.inj_succ, <- Z.add_1_l, inject_Z_plus.
    change (inject_Z 1) with 1%Q. Lqa.lra.
Qed.

(** X4: a perfect ranking scores AP@K = 1 (on exact rationals): when the
    list has no repeated item and its first [min(|truth|, K)] items are all
    in the truth set, [ap_at_k] is 1 and [recall_at_k] is
    [min(|truth|, K) / |truth|]. *)
Theorem perfect_ranking_scores_one :
  forall (recs : list string) (truth : gset string) (k : Z),
    1 <= k -> truth <> ∅ -> NoDup recs ->
    let m := Z.min (Z.of_nat (size truth)) k in
    m <= len recs ->
    (forall a, a ∈ take (Z.to_nat m) recs -> a ∈ truth) ->
    (Metrics.ap_at_k (F:=Q) recs truth k == 1)%Q
    /\ (Metrics.recall_at_k (F:=Q) recs truth k ==
        inject_Z m / inject_Z (Z.of_nat (size truth)))%Q.
Proof.
  intros recs truth k Hk Hne Hnd m Hlen Hall.
  pose proof (size_nonempty_pos truth Hne) as Hsz.
  set (pred := py_prefix recs k).
  assert (pred = take (Z.to_nat k) recs) as Hpred by (by apply py_prefix_nonneg; lia).
  assert (take (Z.to_nat m) pred = take (Z.to_nat m) recs) as Htake.
  { rewrite Hpred, take_take. f_equal. lia. }
  assert (hits_in truth (take (Z.to_nat m) pred) = m) as Hm.
  { rewrite Htake. unfold hits_in, len. rewrite filter_all by done.
    rewrite length_take. unfold len in Hlen. lia. }
  assert (hits_in truth pred = m) as Hhits.
  { pose proof (hits_in_le_truth truth pred (py_prefix_NoDup recs k Hnd)).
    pose proof (hits_in_le_len truth pred).
    pose proof (py_prefix_length recs k ltac:(lia)). fold pred in H1.
    pose proof (hits_in_take_mono truth pred (Z.to_nat m) (length pred)) as Hmono.
    rewrite firstn_all, Hm in Hmono.
    assert (Z.to_nat m <= length pred)%nat.
    { rewrite Hpred, length_take. unfold len in Hlen. lia. }
    lia. }
  assert (forall a, a ∈ drop (Z.to_nat m) pred -> a ∉ truth) as Hrest.
  { apply hits_in_zero.
    pose proof (hits_in_app truth (take (Z.to_nat m) pred) (drop (Z.to_nat m) pred)) as Happ.
    rewrite take_drop in Happ. lia. }
  split.
  - unfold Metrics.ap_at_k. cbv zeta. fold pred.
    destruct (decide (truth = ∅)); [done |].
    destruct (decide (0 < Z.of_nat (size truth) `min` k)); [|lia]. fold m.
    rewrite <- (take_drop (Z.to_nat m) pred).
    change (fdiv (F:=Q)) with Qdiv. change (of_int (F:=Q)) with inject_Z.
    rewrite (ap_loop_hits_then_misses truth _ _ 0 fzero); [| lia | | done].
    2:{ intros a Ha. apply Hall. by rewrite <- Htake. }
    change (fzero (F:=Q)) with 0%Q.
    assert (len (take (Z.to_nat m) pred) = m) as ->.
    { unfold len. rewrite Htake, length_take. unfold len in Hlen. lia. }
    rewrite Qplus_0_l. apply Qmult_inv_r.
    intros H0. change 0%Q with (inject_Z 0) in H0.
    rewrite inject_Z_injective in H0. lia.
  - rewrite recall_at_k_unfold. destruct (decide (truth = ∅)); [done |].
    fold pred. rewrite Hhits. apply Qeq_refl.
Qed.

Lemma perfect_ranking_scores_one_witness :
  (Metrics.ap_at_k (F:=Q) ["a"; "b"; "x"]%string {["a"%string; "b"%string]} 3 == 1)%Q
  /\ (Metrics.recall_at_k (F:=Q) ["a"; "b"; "x"]%string {["a"%string; "b"%string]} 3 ==
      inject_Z (Z.min (Z.of_nat (size ({["a"%string; "b"%string]} : gset string))) 3)
      / inject_Z (Z.of_nat (size ({["a"%string; "b"%string]} : gset string))))%Q.
Proof.
  apply (perfect_ranking_scores_one ["a"; "b"; "x"]%string {["a"%string; "b"%string]} 3).
  - lia.
  - intros Heq. apply (f_equal size) in Heq. vm_compute in Heq. discriminate Heq.
  - repeat constructor; rewrite ?elem_of_cons, ?elem_of_nil; intros Hx;
      repeat (destruct Hx as [Hx | Hx]; try discriminate Hx); done.
  - vm_compute. discriminate.
  - intros a Ha. vm_compute in Ha.
    repeat (apply elem_of_cons in Ha as [->|Ha]); [set_solver | set_solver |].
    by apply elem_of_nil in Ha.
Defined.

(** ** More on the evaluator *)

Lemma eval_df_length recs_df test max_users :
  len (Metrics.eval_df recs_df test max_users) =
    len (filter (evaluated recs_df test max_users) recs_df).
Proof.
  unfold Metrics.eval_df, len. f_equal.
  rewrite pl_join_inner_NoDup_length.
  2:{ rewrite truth_df_keys. apply NoDup_pl_unique. }
  f_equal. apply list_filter_iff. intros row.
  unfold evaluated. by rewrite truth_df_key_iff.
Qed.

Lemma eval_df_row recs_df test max_users (row : RecsRow) (tr : string * list string) :
  (row, tr) ∈ Metrics.eval_df recs_df test max_users -> row ∈ recs_df.
Proof.
  unfold Metrics.eval_df. intros Hin.
  by apply elem_of_pl_join_inner in Hin as (? & _).
Qed.

(** X5: when no row of the recs frame is evaluated (its customer is
    beyond the cap or has no test row; in particular for an empty recs
    frame or an empty test frame), [evaluate_recs] returns 0.0 for both
    means and 0 users instead of dividing by zero. *)
Theorem evaluate_recs_nothing_to_evaluate :
  forall F (N : PyNum F) (model_name : string) (recs_df : list RecsRow)
         (test : list Interaction) (k : Z) (max_users : option nat),
    ((forall row, row ∈ recs_df -> ~ evaluated recs_df test max_users row) ->
     Metrics.evaluate_recs (F:=F) model_name recs_df test k max_users =
       {| Metrics.mr_model := model_name; Metrics.mr_recall_at_k := fzero;
          Metrics.mr_map_at_k := fzero; Metrics.mr_users := 0 |})
    /\ Metrics.evaluate_recs (F:=F) model_name recs_df [] k max_users =
         {| Metrics.mr_model := model_name; Metrics.mr_recall_at_k := fzero;
            Metrics.mr_map_at_k := fzero; Metrics.mr_users := 0 |}
    /\ Metrics.evaluate_recs (F:=F) model_name [] test k max_users =
         {| Metrics.mr_model := model_name; Metrics.mr_recall_at_k := fzero;
            Metrics.mr_map_at_k := fzero; Metrics.mr_users := 0 |}.
Proof.
  intros F N model_name recs_df test k max_users.
  assert (forall recs_df test,
            (forall row, row ∈ recs_df -> ~ evaluated recs_df test max_users row) ->
            Metrics.evaluate_recs (F:=F) model_name recs_df test k max_users =
              {| Metrics.mr_model := model_name; Metrics.mr_recall_at_k := fzero;
                 Metrics.mr_map_at_k := fzero; Metrics.mr_users := 0 |}) as Hgen.
  { clear recs_df test. intros recs_df test Hnone.
    assert (Metrics.eval_df recs_df test max_users = []) as Hnil.
    { pose proof (eval_df_length recs_df test max_users) as Hlen.
      rewrite filter_none in Hlen by done.
      destruct (Metrics.eval_df recs_df test max_users); [done |].
      unfold len in Hlen. simpl in Hlen. lia. }
    unfold Metrics.evaluate_recs. cbv zeta. by rewrite Hnil. }
  split; [apply Hgen |]. split.
  - apply Hgen. intros row _ [_ Hin]. by apply elem_of_nil in Hin.
  - apply Hgen. intros row Hin. by apply elem_of_nil in Hin.
Qed.

Lemma evaluate_recs_nothing_to_evaluate_witness :
  Metrics.evaluate_recs (F:=Q) "popularity"
    [ {| rr_customer_id := "u2"; rr_recs := Some ["b"%string] |} ]
    popular_b_train 12 (Some 0%nat) =
  {| Metrics.mr_model := "popularity"; Metrics.mr_recall_at_k := fzero;
     Metrics.mr_map_at_k := fzero; Metrics.mr_users := 0 |}.
Proof.
  apply (proj1 (evaluate_recs_nothing_to_evaluate Q PyNum_Q "popularity"
           [ {| rr_customer_id := "u2"; rr_recs := Some ["b"%string] |} ]
           popular_b_train 12 (Some 0%nat))).
  intros row _ [Hcap _]. vm_compute in Hcap. by apply elem_of_nil in Hcap.
Defined.

Lemma foldl_Qplus_bounds (xs : list Q) : forall a : Q,
  Forall (fun x => 0 <= x <= 1)%Q xs ->
  (a <= foldl Qplus a xs <= a + inject_Z (len xs))%Q.
Proof.
  induction xs as [|x xs IH]; intros a Hall.
  - unfold len. simpl. change (inject_Z (Z.of_nat 0)) with 0%Q. Lqa.lra.
  - apply Forall_cons in Hall as [[Hx0 Hx1] Hall]. simpl.
    destruct (IH (a + x)%Q Hall) as [Hl Hu].
    unfold len in *. cbn [length]. rewrite Nat2Z.inj_succ, <- Z.add_1_l, inject_Z_plus.
    change (inject_Z 1) with 1%Q.
    set (v := foldl Qplus (a + x)%Q xs) in *. Lqa.lra.
Qed.

Lemma mean_bounds (xs : list Q) :
  Forall (fun x => 0 <= x <= 1)%Q xs -> (0 <= Metrics.mean (F:=Q) xs <= 1)%Q.
Proof.
  intros Hall. unfold Metrics.mean.
  destruct xs as [|x xs]; [vm_compute; split; discriminate |].
  pose proof (foldl_Qplus_bounds (x :: xs) 0 Hall) as [Hl Hu].
  change (fadd (F:=Q)) with Qplus. change (of_int (F:=Q) 0) with 0%Q.
  apply (Q_div_bounds _ (len (x :: xs))); [split; Lqa.lra | lia |].
  unfold len. simpl. lia.
Qed.

(** X6: when no recs list of the frame repeats an item, the two means
    [evaluate_recs] reports lie in [0, 1] (on exact rationals), for every
    K and cap, and [users] is at most the number of rows of the recs
    frame. *)
Theorem evaluate_recs_in_unit_interval :
  forall (model_name : string) (recs_df : list RecsRow) (test : list Interaction)
         (k : Z) (max_users : option nat),
    Forall (fun row => NoDup (default [] (rr_recs row))) recs_df ->
    let res := Metrics.evaluate_recs (F:=Q) model_name recs_df test k max_users in
    (0 <= Metrics.mr_recall_at_k res <= 1)%Q
    /\ (0 <= Metrics.mr_map_at_k res <= 1)%Q
    /\ 0 <= Metrics.mr_users res <= len recs_df.
Proof.
  intros model_name recs_df test k max_users Hnd res.
  unfold res, Metrics.evaluate_recs. cbv zeta.
  cbn [Metrics.mr_recall_at_k Metrics.mr_map_at_k Metrics.mr_users].
  assert (forall row : RecsRow * (string * list string),
            row ∈ Metrics.eval_df recs_df test max_users ->
            NoDup (default [] (rr_recs row.1))) as Hrows.
  { intros [row tr] Hin. rewrite Forall_forall in Hnd. apply Hnd.
    by apply (eval_df_row recs_df test max_users row tr). }
  split; [|split].
  - apply mean_bounds, Forall_fmap, Forall_forall. intros row Hin.
    apply recall_bounds_Q. by apply Hrows.
  - apply mean_bounds, Forall_fmap, Forall_forall. intros row Hin.
    apply ap_bounds_Q. by apply Hrows.
  - unfold len. rewrite length_fmap.
    pose proof (eval_df_length recs_df test max_users) as Hlen.
    pose proof (length_filter (evaluated recs_df test max_users) recs_df).
    unfold len in *. lia.
Qed.

Lemma evaluate_recs_in_unit_interval_witness :
  let res := Metrics.evaluate_recs (F:=Q) "popularity"
               [ {| rr_customer_id := "u2"; rr_recs := Some ["b"; "a"]%string |} ]
               popular_b_train 12 None in
  (0 <= Metrics.mr_recall_at_k res <= 1)%Q
  /\ (0 <= Metrics.mr_map_at_k res <= 1)%Q
  /\ 0 <= Metrics.mr_users res <= len [ {| rr_customer_id := "u2"; rr_recs := Some ["b"; "a"]%string |} ].
Proof.
  apply (evaluate_recs_in_unit_interval "popularity"
           [ {| rr_customer_id := "u2"; rr_recs := Some ["b"; "a"]%string |} ]
           popular_b_train 12 None).
  repeat constructor; simpl; rewrite ?elem_of_cons, ?elem_of_nil; intros Hx;
    repeat (destruct Hx as [Hx | Hx]; try discriminate Hx); done.
Defined.

(** ** More on the popularity baseline *)

(** Below [k] the loop appends unseen pool items until [out] has [k]. *)
Lemma recs_loop_take seen_set (k : Z) (items : list string) : forall out,
  len out < k ->
  Popularity.recs_loop seen_set k items out =
    out ++ take (Z.to_nat (k - len out)) (filter (fun a => a ∉ seen_set) items).
Proof.
  induction items as [|a items IH]; intros out Hout; cbn [Popularity.recs_loop].
  - by rewrite filter_nil, take_nil, app_nil_r.
  - rewrite filter_cons. destruct (decide (a ∉ seen_set)) as [Ha|Ha].
    + assert (len (out ++ [a]) = len out + 1) as Hlen
        by (unfold len; rewrite length_app; simpl; lia).
      replace (Z.to_nat (k - len out)) with (S (Z.to_nat (k - len out - 1))) by lia.
      cbn [take]. destruct (decide (len (out ++ [a]) = k)) as [Hk|Hk].
      * replace (Z.to_nat (k - len out - 1)) with 0%nat by lia. by rewrite take_0.
      * rewrite IH by lia. rewrite Hlen, <- app_assoc. simpl. do 3 f_equal. lia.
    + destruct (decide (len out = k)) as [Hk|Hk]; [lia |]. by apply IH.
Qed.

(** A negative [k] is never reached: the loop keeps every unseen item. *)
Lemma recs_loop_negative seen_set (k : Z) (items : list string) : forall out,
  k < 0 ->
  Popularity.recs_loop seen_set k items out =
    out ++ filter (fun a => a ∉ seen_set) items.
Proof.
  induction items as [|a items IH]; intros out Hk; cbn [Popularity.recs_loop];
    [by rewrite filter_nil, app_nil_r |].
  rewrite filter_cons.
  destruct (decide (len (if decide (a ∉ seen_set) then out ++ [a] else out) = k)) as [Heq|_].
  { unfold len in Heq. lia. }
  rewrite IH by done. destruct (decide (a ∉ seen_set)); [|done].
  by rewrite <- app_assoc.
Qed.

(** X7: [recs_for_seen] in closed form. For k >= 1 it returns the first k
    pool items that are not seen, in pool order (fewer when the pool runs
    out). For k < 0 it returns every unseen pool item. For k = 0 it returns
    [] when the pool is empty or its first item is seen, and every unseen
    pool item otherwise. *)
Theorem recs_for_seen_closed_form :
  forall (pool : list string) (k : Z) (seen : list string),
    let unseen := filter (fun a => a ∉ (list_to_set seen : gset string)) pool in
    (1 <= k -> Popularity.recs_for_seen pool k seen = take (Z.to_nat k) unseen)
    /\ (k < 0 -> Popularity.recs_for_seen pool k seen = unseen)
    /\ (k = 0 -> Popularity.recs_for_seen pool k seen =
                   match pool with
                   | [] => []
                   | a :: _ => if decide (a ∈ seen) then [] else unseen
                   end).
Proof.
  intros pool k seen unseen. unfold Popularity.recs_for_seen. split; [|split].
  - intros Hk. rewrite recs_loop_take by (unfold len; simpl; lia).
    unfold len. simpl. do 2 f_equal. lia.
  - intros Hk. by rewrite recs_loop_negative.
  - intros ->. destruct pool as [|a pool]; [done |]. unfold unseen. simpl.
    rewrite filter_cons.
    destruct (decide (a ∉ (list_to_set seen : gset string))) as [Ha|Ha].
    + destruct (decide (a ∈ seen)) as [Hin|_].
      { exfalso. apply Ha. by apply elem_of_list_to_set. }
      destruct (decide (len ([] ++ [a]) = 0)) as [H0|_]; [unfold len in H0; simpl in H0; lia |].
      by rewrite recs_loop_never_stops.
    + destruct (decide (a ∈ seen)) as [_|Hn]; [done |].
      exfalso. apply Ha. intros Hin. apply Hn. by apply elem_of_list_to_set in Hin.
Qed.

Lemma recs_for_seen_closed_form_witness :
  Popularity.recs_for_seen ["a"; "b"; "c"; "d"]%string 2 ["b"%string] =
    take (Z.to_nat 2)
      (filter (fun a => a ∉ (list_to_set ["b"%string] : gset string))
         ["a"; "b"; "c"; "d"]%string).
Proof.
  apply (recs_for_seen_closed_form ["a"; "b"; "c"; "d"]%string 2 ["b"%string]). lia.
Defined.

Lemma item_counts_keys (train : list Interaction) :
  (Popularity.item_counts train).*1 = pl_unique (article_id <$> train).
Proof.
  unfold Popularity.item_counts. rewrite <- list_fmap_compose.
  rewrite <- pl_group_by_keys. by apply list_fmap_ext.
Qed.

(** X8: the popularity pool holds at most 5000 articles, each an article
    of train, none twice; when train has at most 5000 distinct articles
    the pool holds every one of them. *)
Theorem top_items_pool :
  forall (train : list Interaction),
    (length (Popularity.top_items train) <= 5000)%nat
    /\ NoDup (Popularity.top_items train)
    /\ (forall a, a ∈ Popularity.top_items train -> a ∈ article_id <$> train)
    /\ ((length (pl_unique (article_id <$> train)) <= 5000)%nat ->
        Popularity.top_items train ≡ₚ pl_unique (article_id <$> train)).
Proof.
  intros train. unfold Popularity.top_items, pl_head.
  assert ((pl_sort Popularity.cnt_desc (Popularity.item_counts train)).*1
          ≡ₚ pl_unique (article_id <$> train)) as Hperm.
  { rewrite <- item_counts_keys. apply fmap_Permutation, pl_sort_Permutation. }
  split; [|split; [|split]].
  - rewrite length_take. lia.
  - eapply sublist_NoDup; [|apply sublist_take].
    rewrite Hperm. apply NoDup_pl_unique.
  - intros a Ha. eapply elem_of_sublist in Ha; [|apply sublist_take].
    rewrite Hperm in Ha. by rewrite elem_of_pl_unique in Ha.
  - intros Hlen. rewrite take_ge; [done |]. by rewrite Hperm.
Qed.

Lemma top_items_pool_witness :
  Popularity.top_items popular_b_train ≡ₚ pl_unique (article_id <$> popular_b_train).
Proof.
  apply (top_items_pool popular_b_train). vm_compute. lia.
Defined.

(** With distinct right keys a left join keeps one row per left row. *)
Lemma pl_join_left_NoDup {A B K} `{EqDecision K} (kl : A -> K) (kr : B -> K)
    (ls : list A) (rs : list B) :
  NoDup (kr <$> rs) ->
  pl_join_left kl kr ls rs =
    (fun l => (l, head (filter (fun r => kr r = kl l) rs))) <$> ls.
Proof.
  intros Hnd. unfold pl_join_left. induction ls as [|l ls IH]; [done |].
  rewrite bind_cons, fmap_cons, IH.
  pose proof (filter_key_NoDup_length kr rs (kl l) Hnd) as Hlen.
  destruct (filter (fun r => kr r = kl l) rs) as [|m [|m' ms]]; [done | done |].
  simpl in Hlen. destruct (decide (kl l ∈ kr <$> rs)); lia.
Qed.

Lemma user_seen_keys (train : list Interaction) :
  (Popularity.user_seen train).*1 = pl_unique (customer_id <$> train).
Proof.
  unfold Popularity.user_seen. rewrite <- list_fmap_compose.
  rewrite <- pl_group_by_keys. by apply list_fmap_ext.
Qed.

(** The seen list of a train customer: the distinct articles of the
    customer's train rows, in frame order. *)
Lemma user_seen_lookup (train : list Interaction) (u : string) :
  u ∈ customer_id <$> train ->
  head (filter (fun us : string * list string => us.1 = u) (Popularity.user_seen train)) =
    Some (u, pl_unique (train_items train u)).
Proof.
  intros Hu.
  pose proof (filter_key_NoDup_length fst (Popularity.user_seen train) u) as Hlen.
  rewrite user_seen_keys in Hlen. specialize (Hlen (NoDup_pl_unique _)).
  destruct (decide (u ∈ pl_unique (customer_id <$> train))) as [_|Hn];
    [| exfalso; by apply Hn, elem_of_pl_unique].
  destruct (filter (fun us : string * list string => us.1 = u) (Popularity.user_seen train))
    as [|[u' seen] rest] eqn:Hf; [done |].
  assert ((u', seen) ∈ filter (fun us : string * list string => us.1 = u)
            (Popularity.user_seen train)) as Hin by (rewrite Hf; by left).
  apply list_elem_of_filter in Hin as [Hk Hin]. simpl in Hk. subst u'.
  unfold Popularity.user_seen in Hin.
  apply list_elem_of_fmap in Hin as (g & [= Hg1 ->] & Hg).
  apply elem_of_pl_group_by in Hg as [_ ->]. by rewrite <- Hg1.
Qed.

Lemma base_closed_form (train : list Interaction) (users : list string) :
  (forall u, u ∈ users -> u ∈ customer_id <$> train) ->
  (fun ur : string * option (string * list string) =>
     (ur.1, default [] (snd <$> ur.2))) <$>
    pl_join_left id fst users (Popularity.user_seen train) =
  (fun u => (u, pl_unique (train_items train u))) <$> users.
Proof.
  intros Husers. rewrite pl_join_left_NoDup.
  2:{ rewrite user_seen_keys. apply NoDup_pl_unique. }
  rewrite <- list_fmap_compose. apply list_fmap_ext. intros i u Hu.
  unfold compose. simpl.
  rewrite (user_seen_lookup train u); [done |].
  apply Husers. by eapply list_elem_of_lookup_2.
Qed.

Lemma popularity_users_in_train (train : list Interaction) (max_users : option nat) u :
  u ∈ Popularity.users train max_users -> u ∈ customer_id <$> train.
Proof.
  intros Hu. unfold Popularity.users in Hu.
  eapply elem_of_sublist in Hu; [|apply pl_head_opt_sublist].
  by rewrite elem_of_pl_unique in Hu.
Qed.

(** X9: the popularity baseline in closed form. The output has exactly
    one row per customer of train within the cap, in the order of the
    customers; for K >= 1 the row of a customer holds the first K pool
    items that are not among the customer's train articles, in pool order
    (fewer when the pool runs out, never null). *)
Theorem build_popularity_recs_closed_form :
  forall (train : list Interaction) (k : Z) (max_users : option nat),
    rr_customer_id <$> Popularity.build_popularity_recs train k max_users =
      Popularity.users train max_users
    /\ NoDup (rr_customer_id <$> Popularity.build_popularity_recs train k max_users)
    /\ (max_users = None ->
        forall u, u ∈ customer_id <$> train ->
                  u ∈ rr_customer_id <$> Popularity.build_popularity_recs train k max_users)
    /\ (1 <= k ->
        Popularity.build_popularity_recs train k max_users =
          (fun u => {| rr_customer_id := u;
                       rr_recs := Some (take (Z.to_nat k)
                                          (filter (fun a => a ∉ train_items train u)
                                                  (Popularity.top_items train))) |})
            <$> Popularity.users train max_users).
Proof.
  intros train k max_users.
  assert (Popularity.build_popularity_recs train k max_users =
          (fun u => {| rr_customer_id := u;
                       rr_recs := Some (Popularity.recs_for_seen (Popularity.top_items train)
                                          k (pl_unique (train_items train u))) |})
            <$> Popularity.users train max_users) as Hform.
  { unfold Popularity.build_popularity_recs, Popularity.base. cbv zeta.
    rewrite base_closed_form by apply popularity_users_in_train.
    by rewrite <- list_fmap_compose. }
  assert (rr_customer_id <$> Popularity.build_popularity_recs train k max_users =
          Popularity.users train max_users) as Hcust.
  { rewrite Hform, <- list_fmap_compose. apply list_fmap_id. }
  split; [done |]. split; [|split].
  - rewrite Hcust. unfold Popularity.users.
    eapply sublist_NoDup; [apply NoDup_pl_unique | apply pl_head_opt_sublist].
  - intros -> u Hu. rewrite Hcust. unfold Popularity.users. simpl.
    by apply elem_of_pl_unique.
  - intros Hk. rewrite Hform. apply list_fmap_ext. intros i u _. do 2 f_equal.
    unfold Popularity.recs_for_seen.
    rewrite recs_loop_take by (unfold len; simpl; lia).
    unfold len. simpl. rewrite Z.sub_0_r. f_equal.
    apply list_filter_iff. intros a.
    by rewrite elem_of_list_to_set, elem_of_pl_unique.
Qed.

Lemma build_popularity_recs_closed_form_witness :
  Popularity.build_popularity_recs popular_b_train 2 None =
    (fun u => {| rr_customer_id := u;
                 rr_recs := Some (take (Z.to_nat 2)
                                    (filter (fun a => a ∉ train_items popular_b_train u)
                                            (Popularity.top_items popular_b_train))) |})
      <$> Popularity.users popular_b_train None.
Proof.
  apply (build_popularity_recs_closed_form popular_b_train 2 None). lia.
Defined.

(** ** More on the neighbour graph *)

Lemma elem_of_seeds (train : list Interaction) (n : nat) (u a : string) :
  (u, a) ∈ Cooccurrence.seeds train n ->
  exists r, r ∈ train /\ customer_id r = u /\ article_id r = a.
Proof.
  unfold Cooccurrence.seeds. intros Hin.
  apply list_elem_of_fmap in Hin as (r & [= -> ->] & Hr).
  apply elem_of_pl_group_head in Hr.
  rewrite (elem_of_pl_sort Cooccurrence.by_customer_score) in Hr. by exists r.
Qed.

Lemma elem_of_pairs_iff (sds : list (string * string)) (a b : string) :
  (a, b) ∈ Cooccurrence.pairs sds <->
  a <> b /\ exists u, (u, a) ∈ sds /\ (u, b) ∈ sds.
Proof.
  unfold Cooccurrence.pairs. rewrite list_elem_of_filter, list_elem_of_fmap. simpl.
  split.
  - intros [Hne ([[u1 a1] [u2 b1]] & [= -> ->] & Hin)]. split; [done |].
    apply elem_of_pl_join_inner in Hin as (H1 & H2 & Hk). simpl in Hk. subst u2.
    by exists u1.
  - intros [Hne (u & H1 & H2)]. split; [done |].
    exists ((u, a), (u, b)). split; [done |]. by apply elem_of_pl_join_inner.
Qed.

Lemma elem_of_counts_iff (prs : list (string * string)) (e : Cooccurrence.NeighborEdge) :
  e ∈ Cooccurrence.counts prs <->
  (Cooccurrence.item e, Cooccurrence.neighbor e) ∈ prs
  /\ Cooccurrence.cnt e =
       len (filter (fun p => p = (Cooccurrence.item e, Cooccurrence.neighbor e)) prs).
Proof.
  unfold Cooccurrence.counts.
  rewrite (elem_of_pl_sort Cooccurrence.by_item_cnt), list_elem_of_fmap. split.
  - intros (g & -> & Hg). apply elem_of_pl_group_by in Hg as [Hk Hg].
    rewrite list_fmap_id in Hk. simpl. rewrite Hg.
    destruct g as [[a b] rows]. simpl in *. done.
  - intros [Hin Hcnt].
    exists ((Cooccurrence.item e, Cooccurrence.neighbor e),
            filter (fun p => p = (Cooccurrence.item e, Cooccurrence.neighbor e)) prs).
    split.
    + destruct e as [a b c]. simpl in *. by rewrite Hcnt.
    + apply elem_of_pl_group_by. simpl. by rewrite list_fmap_id.
Qed.

Lemma counts_keys (prs : list (string * string)) :
  (fun e => (Cooccurrence.item e, Cooccurrence.neighbor e)) <$> Cooccurrence.counts prs
  ≡ₚ pl_unique prs.
Proof.
  unfold Cooccurrence.counts.
  rewrite (pl_sort_Permutation Cooccurrence.by_item_cnt), <- list_fmap_compose.
  assert (forall gs : list (string * string * list (string * string)),
            (fun e => (Cooccurrence.item e, Cooccurrence.neighbor e)) ∘
            (fun g => {| Cooccurrence.item := g.1.1; Cooccurrence.neighbor := g.1.2;
                         Cooccurrence.cnt := len g.2 |}) <$> gs = gs.*1) as Hfst.
  { intros gs. apply list_fmap_ext. by intros i [[a b] rows] _. }
  by rewrite Hfst, pl_group_by_keys, list_fmap_id.
Qed.

(** Distinctness survives [group_by(key).head(n)] for any projection that
    determines the key. *)
Lemma pl_group_head_NoDup {A K G} `{EqDecision K} (key : A -> K) (g : A -> G)
    (n : nat) (rows : list A) :
  (forall x y, g x = g y -> key x = key y) ->
  NoDup (g <$> rows) -> NoDup (g <$> pl_group_head key n rows).
Proof.
  intros Hg Hnd. rewrite pl_group_head_bind.
  set (f := fun k => pl_head n (filter (fun r => key r = k) rows)).
  assert (forall k x, x ∈ f k -> key x = k /\ x ∈ rows) as Hf.
  { intros k x Hx. unfold f, pl_head in Hx.
    eapply elem_of_sublist in Hx; [|apply sublist_take].
    by apply list_elem_of_filter in Hx. }
  assert (forall k, NoDup (g <$> f k)) as Hblock.
  { intros k. eapply sublist_NoDup; [exact Hnd |].
    apply fmap_sublist. unfold f, pl_head.
    etrans; [apply sublist_take | apply sublist_filter]. }
  pose proof (NoDup_pl_unique (key <$> rows)) as Hks.
  induction Hks as [|k ks Hk Hks IH]; [constructor |].
  rewrite bind_cons, fmap_app. apply NoDup_app. split; [done |]. split; [|done].
  intros x Hx Hx'.
  apply list_elem_of_fmap in Hx as (y & -> & Hy).
  apply list_elem_of_fmap in Hx' as (z & Hyz & Hz).
  apply list_elem_of_bind in Hz as (k' & Hz & Hk').
  apply Hf in Hy as [Hy _]. apply Hf in Hz as [Hz _].
  apply Hg in Hyz. congruence.
Qed.

(** X10: every edge of [build_item_neighbors] joins two seed items of one
    customer, both articles of train; its count is the number of
    (item, neighbor) seed pairs, at least 1; and no (item, neighbor) pair
    has two edges. *)
Theorem build_item_neighbors_edges :
  forall (train : list Interaction) (seed_items_per_user neighbors_per_item : nat),
    let sds := Cooccurrence.seeds train seed_items_per_user in
    let edges := Cooccurrence.build_item_neighbors train seed_items_per_user
                   neighbors_per_item in
    (forall e, e ∈ edges ->
       (exists u, (u, Cooccurrence.item e) ∈ sds /\ (u, Cooccurrence.neighbor e) ∈ sds)
       /\ Cooccurrence.item e ∈ article_id <$> train
       /\ Cooccurrence.neighbor e ∈ article_id <$> train
       /\ Cooccurrence.cnt e =
            len (filter (fun p => p = (Cooccurrence.item e, Cooccurrence.neighbor e))
                   (Cooccurrence.pairs sds))
       /\ 1 <= Cooccurrence.cnt e)
    /\ NoDup ((fun e => (Cooccurrence.item e, Cooccurrence.neighbor e)) <$> edges).
Proof.
  intros train s n sds edges. split.
  - intros e He. unfold edges, Cooccurrence.build_item_neighbors in He.
    apply elem_of_pl_group_head, elem_of_counts_iff in He as [Hpair Hcnt]. fold sds in Hpair, Hcnt.
    pose proof Hpair as Hp. apply elem_of_pairs_iff in Hp as [_ (u & Hu1 & Hu2)].
    split; [by exists u |].
    apply elem_of_seeds in Hu1 as (r1 & Hr1 & _ & Ha1).
    apply elem_of_seeds in Hu2 as (r2 & Hr2 & _ & Ha2).
    split; [apply list_elem_of_fmap; by exists r1 |].
    split; [apply list_elem_of_fmap; by exists r2 |].
    split; [done |]. rewrite Hcnt. unfold len.
    assert ((Cooccurrence.item e, Cooccurrence.neighbor e) ∈
              filter (fun p => p = (Cooccurrence.item e, Cooccurrence.neighbor e))
                (Cooccurrence.pairs sds)) as Hin by (by apply list_elem_of_filter).
    destruct (filter _ (Cooccurrence.pairs sds)); [by apply elem_of_nil in Hin | simpl; lia].
  - unfold edges, Cooccurrence.build_item_neighbors.
    apply pl_group_head_NoDup; [by intros x y [= -> _] |].
    rewrite counts_keys. apply NoDup_pl_unique.
Qed.

(** *** Counting pairs *)

Section counting.
Context {A B : Type}.

Lemma length_filter_fmap (f : A -> B) (P : B -> Prop) `{forall y, Decision (P y)}
    (l : list A) :
  length (filter P (f <$> l)) = length (filter (fun x => P (f x)) l).
Proof.
  induction l as [|x l IH]; [done |]. rewrite fmap_cons, !filter_cons.
  destruct (decide (P (f x))); simpl; by rewrite IH.
Qed.

Lemma length_filter_bind (f : A -> list B) (P : B -> Prop) `{forall y, Decision (P y)}
    (l : list A) :
  length (filter P (l ≫= f)) = sum_list_with (fun x => length (filter P (f x))) l.
Proof.
  induction l as [|x l IH]; [done |].
  rewrite bind_cons, filter_app, length_app, IH. done.
Qed.

Lemma count_swap_step (P : A -> B -> Prop) `{forall x y, Decision (P x y)}
    (x : A) (l1 : list A) (l2 : list B) :
  sum_list_with (fun y => length (filter (fun x' => P x' y) (x :: l1))) l2 =
    (length (filter (P x) l2)
     + sum_list_with (fun y => length (filter (fun x' => P x' y) l1)) l2)%nat.
Proof.
  induction l2 as [|y l2 IH]; [done |].
  cbn [sum_list_with]. rewrite IH, !filter_cons.
  destruct (decide (P x y)); simpl; lia.
Qed.

(** Counting the pairs of a relation row by row or column by column. *)
Lemma count_swap (P : A -> B -> Prop) `{forall x y, Decision (P x y)}
    (l1 : list A) (l2 : list B) :
  sum_list_with (fun x => length (filter (P x) l2)) l1 =
    sum_list_with (fun y => length (filter (fun x => P x y) l1)) l2.
Proof.
  induction l1 as [|x l1 IH].
  - simpl. induction l2 as [|y l2 IH2]; simpl; [done | by rewrite <- IH2].
  - rewrite count_swap_step, <- IH. done.
Qed.
End counting.

Lemma sum_list_with_ext_in {A} (f g : A -> nat) (l : list A) :
  (forall x, x ∈ l -> f x = g x) -> sum_list_with f l = sum_list_with g l.
Proof.
  induction l as [|x l IH]; intros Hfg; [done |]. simpl.
  rewrite (Hfg x) by (by left). rewrite IH; [done |].
  intros y Hy. apply Hfg. by right.
Qed.

(** The number of (a, b) rows among the pairs of a seed frame, as a double
    count over the seeds. *)
Lemma pairs_count (sds : list (string * string)) (a b : string) :
  a <> b ->
  length (filter (fun p => p = (a, b)) (Cooccurrence.pairs sds)) =
    sum_list_with
      (fun l : string * string =>
         length (filter (fun r : string * string => r.1 = l.1 /\ l.2 = a /\ r.2 = b) sds))
      sds.
Proof.
  intros Hab. unfold Cooccurrence.pairs.
  rewrite list_filter_filter.
  rewrite (list_filter_iff _ (fun p : string * string => p = (a, b))).
  2:{ intros [x y]. simpl. split; [tauto |]. intros [= -> ->]. done. }
  rewrite length_filter_fmap. unfold pl_join_inner. rewrite length_filter_bind.
  apply sum_list_with_ext_in. intros l _.
  rewrite length_filter_fmap, list_filter_filter. f_equal.
  apply list_filter_iff. intros r. simpl. split.
  - intros [[= H1 H2] H3]. done.
  - intros (H1 & H2 & H3). split; [by rewrite H2, H3 | done].
Qed.

(** Co-occurrence is symmetric: (a, b) and (b, a) occur equally often. *)
Lemma pairs_count_sym (sds : list (string * string)) (a b : string) :
  length (filter (fun p => p = (a, b)) (Cooccurrence.pairs sds)) =
  length (filter (fun p => p = (b, a)) (Cooccurrence.pairs sds)).
Proof.
  destruct (decide (a = b)) as [->|Hab]; [done |].
  rewrite (pairs_count sds a b), (pairs_count sds b a) by done.
  rewrite (count_swap (fun l r : string * string => r.1 = l.1 /\ l.2 = a /\ r.2 = b)).
  apply sum_list_with_ext_in. intros l _. f_equal.
  apply list_filter_iff. intros r. simpl. split; intros (H1 & H2 & H3); by rewrite H1.
Qed.

(** X11: co-occurrence counts are symmetric. Before the cut to
    [neighbors_per_item], the edge (a, b, c) is counted exactly when
    (b, a, c) is; in the frame [build_item_neighbors] returns, two edges
    in opposite directions carry the same count. *)
Theorem cooccurrence_counts_symmetric :
  forall (train : list Interaction) (seed_items_per_user neighbors_per_item : nat),
    let all_counts :=
      Cooccurrence.counts (Cooccurrence.pairs (Cooccurrence.seeds train seed_items_per_user)) in
    (forall a b c,
        {| Cooccurrence.item := a; Cooccurrence.neighbor := b; Cooccurrence.cnt := c |}
          ∈ all_counts <->
        {| Cooccurrence.item := b; Cooccurrence.neighbor := a; Cooccurrence.cnt := c |}
          ∈ all_counts)
    /\ (forall e1 e2,
          e1 ∈ Cooccurrence.build_item_neighbors train seed_items_per_user neighbors_per_item ->
          e2 ∈ Cooccurrence.build_item_neighbors train seed_items_per_user neighbors_per_item ->
          Cooccurrence.item e1 = Cooccurrence.neighbor e2 ->
          Cooccurrence.neighbor e1 = Cooccurrence.item e2 ->
          Cooccurrence.cnt e1 = Cooccurrence.cnt e2).
Proof.
  intros train s n all_counts.
  assert (forall a b c,
            {| Cooccurrence.item := a; Cooccurrence.neighbor := b; Cooccurrence.cnt := c |}
              ∈ all_counts ->
            {| Cooccurrence.item := b; Cooccurrence.neighbor := a; Cooccurrence.cnt := c |}
              ∈ all_counts) as Hswap.
  { intros a b c. unfold all_counts. rewrite !elem_of_counts_iff. simpl.
    intros [Hin Hc]. split.
    - apply elem_of_pairs_iff in Hin as [Hne (u & H1 & H2)].
      apply elem_of_pairs_iff. split; [done | by exists u].
    - rewrite Hc. unfold len. f_equal. apply pairs_count_sym. }
  split.
  - intros a b c. split; apply Hswap.
  - intros e1 e2 H1 H2 Hi Hn.
    unfold Cooccurrence.build_item_neighbors in H1, H2.
    apply elem_of_pl_group_head, elem_of_counts_iff in H1 as [_ Hc1].
    apply elem_of_pl_group_head, elem_of_counts_iff in H2 as [_ Hc2].
    rewrite Hc1, Hc2, Hi, Hn. unfold len. f_equal. apply pairs_count_sym.
Qed.

(** ** More on the co-occurrence recommender *)

Lemma pl_join_inner_NoDup_fst {A B K} `{EqDecision K} (kl : A -> K) (kr : B -> K)
    (ls : list A) (rs : list B) :
  NoDup (kr <$> rs) ->
  (pl_join_inner kl kr ls rs).*1 = filter (fun l => kl l ∈ kr <$> rs) ls.
Proof.
  intros Hnd. unfold pl_join_inner. induction ls as [|l ls IH]; [done |].
  rewrite bind_cons, fmap_app, IH, filter_cons, <- list_fmap_compose.
  pose proof (filter_key_NoDup_length kr rs (kl l) Hnd) as Hlen.
  destruct (decide (kl l ∈ kr <$> rs)).
  - destruct (filter (fun r => kr r = kl l) rs) as [|m [|m' ms]]; simpl in *; [lia | done | lia].
  - destruct (filter (fun r => kr r = kl l) rs); simpl in *; [done | lia].
Qed.

(** A sublist of a duplicate-free list is the filter of its members. *)
Lemma sublist_filter_eq {A} (Q : A -> Prop) `{forall x, Decision (Q x)} (l1 l : list A) :
  l1 `sublist_of` l -> NoDup l ->
  (forall x, x ∈ l1 <-> x ∈ l /\ Q x) -> l1 = filter Q l.
Proof.
  induction 1 as [|x l1 l Hsub IH|x l1 l Hsub IH]; intros Hnd Hiff.
  - done.
  - apply NoDup_cons in Hnd as [Hx Hnd]. rewrite filter_cons.
    destruct (decide (Q x)) as [_|Hn].
    2:{ exfalso. apply Hn. apply (Hiff x). by left. }
    f_equal. apply IH; [done |]. intros y. split.
    + intros Hy. assert (y ∈ l) by (by eapply elem_of_sublist).
      split; [done |]. apply Hiff. by right.
    + intros [Hy Hq]. assert (y ∈ x :: l1) as Hin by (apply Hiff; split; [by right | done]).
      apply elem_of_cons in Hin as [->|]; done.
  - apply NoDup_cons in Hnd as [Hx Hnd]. rewrite filter_cons.
    destruct (decide (Q x)) as [Hq|_].
    { exfalso. apply Hx. eapply elem_of_sublist; [|done]. apply Hiff. split; [by left | done]. }
    apply IH; [done |]. intros y. split.
    + intros Hy. split; [by eapply elem_of_sublist |]. by apply Hiff.
    + intros [Hy Hq]. apply Hiff. split; [by right | done].
Qed.

Lemma cooccurrence_users_in_train (train : list Interaction) (max_users : option nat) u :
  u ∈ Cooccurrence.users train max_users -> u ∈ customer_id <$> train.
Proof.
  intros Hu. unfold Cooccurrence.users in Hu.
  rewrite <- (elem_of_pl_unique (customer_id <$> train)).
  destruct max_users as [[|n]|]; [done | | done].
  eapply elem_of_sublist; [done | apply sublist_take].
Qed.

Lemma cooccurrence_users_NoDup (train : list Interaction) (max_users : option nat) :
  NoDup (Cooccurrence.users train max_users).
Proof.
  unfold Cooccurrence.users. destruct max_users as [[|n]|]; try apply NoDup_pl_unique.
  eapply sublist_NoDup; [apply NoDup_pl_unique | apply sublist_take].
Qed.

Lemma cooccurrence_base_closed_form (train : list Interaction) (max_users : option nat) :
  Cooccurrence.base train max_users =
    (fun u => (u, pl_unique (train_items train u))) <$> Cooccurrence.users train max_users.
Proof.
  unfold Cooccurrence.base.
  apply (base_closed_form train (Cooccurrence.users train max_users)).
  apply cooccurrence_users_in_train.
Qed.

Lemma cooccurrence_base_keys (train : list Interaction) (max_users : option nat) :
  (Cooccurrence.base train max_users).*1 = Cooccurrence.users train max_users.
Proof.
  rewrite cooccurrence_base_closed_form, <- list_fmap_compose. apply list_fmap_id.
Qed.

Lemma scored_keys (sds : list (string * string)) (nbs : list Cooccurrence.NeighborEdge) :
  NoDup ((fun sc => (Cooccurrence.sc_customer_id sc, Cooccurrence.sc_neighbor sc)) <$>
           Cooccurrence.scored sds nbs).
Proof.
  unfold Cooccurrence.scored.
  rewrite (pl_sort_Permutation Cooccurrence.by_customer_sc), <- list_fmap_compose.
  set (gs := pl_group_by _ _).
  assert ((fun sc => (Cooccurrence.sc_customer_id sc, Cooccurrence.sc_neighbor sc)) ∘
          (fun g : string * string * list (string * string * Cooccurrence.NeighborEdge) =>
             {| Cooccurrence.sc_customer_id := g.1.1; Cooccurrence.sc_neighbor := g.1.2;
                Cooccurrence.sc_score := py_sum ((fun se => Cooccurrence.cnt se.2) <$> g.2) |})
          <$> gs = gs.*1) as ->.
  { apply list_fmap_ext. by intros i [[a b] rows] _. }
  unfold gs. rewrite pl_group_by_keys. apply NoDup_pl_unique.
Qed.

Lemma scored_NoDup (sds : list (string * string)) (nbs : list Cooccurrence.NeighborEdge) :
  NoDup (Cooccurrence.scored sds nbs).
Proof. eapply NoDup_fmap_1, scored_keys. Qed.

(** The rows that survive the seen filter: those of a capped customer
    whose neighbour is not among the customer's train articles, in the
    order of [scored]. *)
Lemma filtered_closed_form (train : list Interaction) (max_users : option nat)
    (sds : list (string * string)) (nbs : list Cooccurrence.NeighborEdge) :
  Cooccurrence.filtered (Cooccurrence.scored sds nbs) (Cooccurrence.base train max_users) =
    filter (fun sc => Cooccurrence.sc_customer_id sc ∈ Cooccurrence.users train max_users
                      /\ Cooccurrence.sc_neighbor sc ∉
                           train_items train (Cooccurrence.sc_customer_id sc))
      (Cooccurrence.scored sds nbs).
Proof.
  apply sublist_filter_eq; [| apply scored_NoDup |].
  - unfold Cooccurrence.filtered.
    etrans; [apply fmap_sublist, sublist_filter |].
    rewrite pl_join_inner_NoDup_fst.
    + apply sublist_filter.
    + rewrite cooccurrence_base_keys. apply cooccurrence_users_NoDup.
  - intros sc. unfold Cooccurrence.filtered. rewrite list_elem_of_fmap. split.
    + intros ([sc' [u seen]] & -> & Hin). simpl.
      apply list_elem_of_filter in Hin as [Hkeep Hin]. simpl in Hkeep.
      apply elem_of_pl_join_inner in Hin as (Hsc & Hb & Hk). simpl in Hk. subst u.
      rewrite cooccurrence_base_closed_form in Hb.
      apply list_elem_of_fmap in Hb as (u & [= Hu ->] & Hin).
      split; [done |]. split; [by rewrite Hu |].
      unfold Cooccurrence.not_seen in Hkeep. apply bool_decide_eq_true in Hkeep.
      intros Ha. apply Hkeep. rewrite elem_of_list_to_set, elem_of_pl_unique. by rewrite <- Hu.
    + intros (Hsc & Hu & Hnew).
      exists (sc, (Cooccurrence.sc_customer_id sc,
                   pl_unique (train_items train (Cooccurrence.sc_customer_id sc)))).
      split; [done |]. apply list_elem_of_filter. split.
      * simpl. unfold Cooccurrence.not_seen. apply bool_decide_eq_true.
        by rewrite elem_of_list_to_set, elem_of_pl_unique.
      * apply elem_of_pl_join_inner. split; [done |]. split; [|done].
        rewrite cooccurrence_base_closed_form. apply list_elem_of_fmap.
        by exists (Cooccurrence.sc_customer_id sc).
Qed.

Lemma sublist_filter_impl {A} (P Q : A -> Prop) `{forall x, Decision (P x)}
    `{forall x, Decision (Q x)} (l : list A) :
  (forall x, P x -> Q x) -> filter P l `sublist_of` filter Q l.
Proof.
  intros Himp. induction l as [|x l IH]; [done |]. rewrite !filter_cons.
  destruct (decide (P x)) as [Hp|_], (decide (Q x)) as [_|Hq].
  - by apply sublist_skip.
  - exfalso. by apply Hq, Himp.
  - by apply sublist_cons.
  - done.
Qed.

Lemma NoDup_key_group {A} (kc kn : A -> string) (P : A -> Prop)
    `{forall x, Decision (P x)} (u : string) (l : list A) :
  NoDup ((fun x => (kc x, kn x)) <$> l) ->
  NoDup (kn <$> filter (fun x => kc x = u /\ P x) l).
Proof.
  induction l as [|x l IH]; intros Hnd; [constructor |].
  rewrite fmap_cons in Hnd. apply NoDup_cons in Hnd as [Hx Hnd].
  rewrite filter_cons. destruct (decide (kc x = u /\ P x)) as [[Hu _]|_]; [|by apply IH].
  rewrite fmap_cons. constructor; [|by apply IH].
  intros Hin. apply Hx. apply list_elem_of_fmap in Hin as (y & Hy & Hin).
  apply list_elem_of_filter in Hin as [[Hyu _] Hin].
  apply list_elem_of_fmap. exists y. split; [congruence | done].
Qed.

Lemma scored_score (sds : list (string * string)) (nbs : list Cooccurrence.NeighborEdge)
    (sc : Cooccurrence.Scored) :
  sc ∈ Cooccurrence.scored sds nbs ->
  matches sds nbs (Cooccurrence.sc_customer_id sc) (Cooccurrence.sc_neighbor sc) <> []
  /\ Cooccurrence.sc_score sc =
       py_sum ((fun se => Cooccurrence.cnt se.2) <$>
                 matches sds nbs (Cooccurrence.sc_customer_id sc) (Cooccurrence.sc_neighbor sc)).
Proof.
  unfold Cooccurrence.scored.
  rewrite (elem_of_pl_sort Cooccurrence.by_customer_sc), list_elem_of_fmap.
  intros (g & -> & Hg). apply elem_of_pl_group_by in Hg as [Hk Hg]. simpl.
  unfold matches.
  assert ((g.1.1, g.1.2) = g.1) as -> by (by destruct g as [[? ?] ?]).
  rewrite <- Hg. split; [|done].
  apply list_elem_of_fmap in Hk as (se & Hse & Hin). rewrite Hg. intros Hnil.
  by apply (filter_nil_not_elem_of _ _ se Hnil).
Qed.

Lemma cooccurrence_recs_rows (train : list Interaction)
    (nbs : list Cooccurrence.NeighborEdge) (k s : nat) (max_users : option nat) :
  Cooccurrence.build_cooccurrence_recs train nbs k s max_users =
    (fun u => {| rr_customer_id := u;
                 rr_recs := Some (take k (Cooccurrence.sc_neighbor <$>
                                            candidates train nbs s u)) |})
      <$> served_customers train nbs s max_users.
Proof.
  unfold Cooccurrence.build_cooccurrence_recs. cbv zeta.
  rewrite filtered_closed_form.
  unfold pl_group_by, served_customers.
  rewrite <- list_fmap_compose. apply list_fmap_ext. intros i u Hu.
  unfold compose. cbn [fst snd]. do 3 f_equal.
  apply list_elem_of_lookup_2 in Hu. rewrite elem_of_pl_unique in Hu.
  apply list_elem_of_fmap in Hu as (sc0 & -> & Hsc0).
  apply list_elem_of_filter in Hsc0 as [[Hu0 _] _].
  unfold candidates. rewrite list_filter_filter.
  f_equal. apply list_filter_iff. intros sc. split.
  - intros [Heq [_ Hnew]]. split; [done | by rewrite <- Heq].
  - intros [Heq Hnew]. rewrite Heq. done.
Qed.

(** Every seed-edge match has its scored row. *)
Lemma scored_complete (sds : list (string * string))
    (nbs : list Cooccurrence.NeighborEdge) (u nb : string) :
  (exists sc, sc ∈ Cooccurrence.scored sds nbs
              /\ Cooccurrence.sc_customer_id sc = u /\ Cooccurrence.sc_neighbor sc = nb)
  <-> exists a e, (u, a) ∈ sds /\ e ∈ nbs /\ Cooccurrence.item e = a
                  /\ Cooccurrence.neighbor e = nb.
Proof.
  split.
  - intros (sc & Hsc & <- & <-).
    apply elem_of_scored in Hsc as ([u a] & e & Hsd & He & Hitem & Hu & Hnb).
    simpl in *. subst u. by exists a, e.
  - intros (a & e & Hsd & He & Hitem & Hnb).
    set (rows := pl_join_inner snd Cooccurrence.item sds nbs).
    set (key := fun se : string * string * Cooccurrence.NeighborEdge =>
                  (se.1.1, Cooccurrence.neighbor se.2)).
    exists {| Cooccurrence.sc_customer_id := u; Cooccurrence.sc_neighbor := nb;
              Cooccurrence.sc_score :=
                py_sum ((fun se => Cooccurrence.cnt se.2) <$>
                          filter (fun se => key se = (u, nb)) rows) |}.
    split; [|done]. unfold Cooccurrence.scored.
    rewrite (elem_of_pl_sort Cooccurrence.by_customer_sc), list_elem_of_fmap.
    exists ((u, nb), filter (fun se => key se = (u, nb)) rows). split; [done |].
    apply elem_of_pl_group_by. split; [|done]. simpl.
    apply list_elem_of_fmap. exists ((u, a), e). split; [by rewrite <- Hnb |].
    by apply elem_of_pl_join_inner.
Qed.

(** The candidates of a customer name exactly the neighbours that a seed
    of the customer reaches by an edge and that are not among the
    customer's train articles. *)
Lemma candidates_complete (train : list Interaction)
    (nbs : list Cooccurrence.NeighborEdge) (s : nat) (u nb : string) :
  nb ∈ Cooccurrence.sc_neighbor <$> candidates train nbs s u <->
  (exists a e, (u, a) ∈ Cooccurrence.seeds train s /\ e ∈ nbs
               /\ Cooccurrence.item e = a /\ Cooccurrence.neighbor e = nb)
  /\ nb ∉ train_items train u.
Proof.
  rewrite <- scored_complete. unfold candidates. rewrite list_elem_of_fmap. split.
  - intros (sc & -> & Hsc). apply list_elem_of_filter in Hsc as [[Hu Hnew] Hsc].
    split; [by exists sc | done].
  - intros [(sc & Hsc & Hu & Hnb) Hnew]. exists sc. split; [done |].
    apply list_elem_of_filter. split; [|done]. split; [done | by rewrite Hnb].
Qed.

(** The customers with a row: those within the cap for which a seed
    reaches, by an edge, an article that is not among their train
    articles. *)
Lemma served_customers_complete (train : list Interaction)
    (nbs : list Cooccurrence.NeighborEdge) (s : nat) (max_users : option nat) (u : string) :
  u ∈ served_customers train nbs s max_users <->
  u ∈ Cooccurrence.users train max_users
  /\ exists a e, (u, a) ∈ Cooccurrence.seeds train s /\ e ∈ nbs
                 /\ Cooccurrence.item e = a
                 /\ Cooccurrence.neighbor e ∉ train_items train u.
Proof.
  unfold served_customers. rewrite elem_of_pl_unique, list_elem_of_fmap. split.
  - intros (sc & -> & Hsc). apply list_elem_of_filter in Hsc as [[Hu Hnew] Hsc].
    split; [done |].
    destruct (proj1 (scored_complete _ nbs _ _) (ex_intro _ sc (conj Hsc (conj eq_refl eq_refl))))
      as (a & e & Hsd & He & Hitem & Hnb).
    exists a, e. by rewrite Hnb.
  - intros [Hu (a & e & Hsd & He & Hitem & Hnew)].
    destruct (proj2 (scored_complete (Cooccurrence.seeds train s) nbs u
                       (Cooccurrence.neighbor e)))
      as (sc & Hsc & Hcu & Hnb); [by exists a, e |].
    exists sc. split; [done |]. apply list_elem_of_filter. split; [|done].
    rewrite Hcu, Hnb. done.
Qed.

(** X12: the co-occurrence recommender in closed form. A customer has a
    row exactly when it is within the cap and one of its seeds reaches, by
    an edge of the neighbour frame, an article that is not among its train
    articles. The row then holds the first K of the customer's candidates
    (at least one article for K >= 1). The candidates name, each once,
    exactly the articles so reached; the score of a candidate is the sum
    of the counts of the edges that lead from a seed of the customer to
    it, and the candidates come by score descending. *)
Theorem build_cooccurrence_recs_closed_form :
  forall (train : list Interaction) (neighbors_df : list Cooccurrence.NeighborEdge)
         (k seed_items_per_user : nat) (max_users : option nat),
    let sds := Cooccurrence.seeds train seed_items_per_user in
    let cands := candidates train neighbors_df seed_items_per_user in
    let out := Cooccurrence.build_cooccurrence_recs train neighbors_df k
                 seed_items_per_user max_users in
    let reached (u nb : string) :=
      exists a e, (u, a) ∈ sds /\ e ∈ neighbors_df /\ Cooccurrence.item e = a
                  /\ Cooccurrence.neighbor e = nb in
    (forall u, u ∈ rr_customer_id <$> out <->
               u ∈ Cooccurrence.users train max_users
               /\ exists nb, reached u nb /\ nb ∉ train_items train u)
    /\ (forall row, row ∈ out ->
          rr_recs row =
            Some (take k (Cooccurrence.sc_neighbor <$> cands (rr_customer_id row)))
          /\ ((0 < k)%nat -> rr_recs row <> Some []))
    /\ (forall u nb, nb ∈ Cooccurrence.sc_neighbor <$> cands u <->
                     reached u nb /\ nb ∉ train_items train u)
    /\ (forall u, NoDup (Cooccurrence.sc_neighbor <$> cands u))
    /\ (forall u, StronglySorted sc_score_ge (cands u))
    /\ (forall u sc, sc ∈ cands u ->
          Cooccurrence.sc_score sc =
            py_sum ((fun se => Cooccurrence.cnt se.2) <$>
                      matches sds neighbors_df u (Cooccurrence.sc_neighbor sc))).
Proof.
  intros train nbs k s max_users sds cands out reached.
  assert (rr_customer_id <$> out = served_customers train nbs s max_users) as Hcust.
  { unfold out. rewrite cooccurrence_recs_rows, <- list_fmap_compose. apply list_fmap_id. }
  split; [|split; [|split; [|split; [|split]]]].
  - intros u. rewrite Hcust, served_customers_complete. split.
    + intros [Hu (a & e & Hsd & He & Hitem & Hnew)]. split; [done |].
      exists (Cooccurrence.neighbor e). split; [by exists a, e | done].
    + intros [Hu (nb & (a & e & Hsd & He & Hitem & <-) & Hnew)]. split; [done |].
      by exists a, e.
  - intros row Hrow. unfold out in Hrow. rewrite cooccurrence_recs_rows in Hrow.
    apply list_elem_of_fmap in Hrow as (u & -> & Hu). simpl. split; [done |].
    intros Hk. apply served_customers_complete in Hu as [_ (a & e & Hsd & He & Hitem & Hnew)].
    assert (Cooccurrence.neighbor e ∈ Cooccurrence.sc_neighbor <$> candidates train nbs s u)
      as Hin by (apply candidates_complete; split; [by exists a, e | done]).
    unfold cands.
    destruct (Cooccurrence.sc_neighbor <$> candidates train nbs s u) as [|nb rest];
      [by apply elem_of_nil in Hin |].
    destruct k as [|k]; [lia | discriminate].
  - intros u nb. apply candidates_complete.
  - intros u. unfold cands, candidates.
    apply (NoDup_key_group Cooccurrence.sc_customer_id Cooccurrence.sc_neighbor
             (fun sc => Cooccurrence.sc_neighbor sc ∉ train_items train u)).
    apply scored_keys.
  - intros u. unfold cands, candidates.
    eapply (StronglySorted_sublist _ _
              (filter (fun sc => Cooccurrence.sc_customer_id sc = u)
                 (Cooccurrence.scored (Cooccurrence.seeds train s) nbs))).
    + apply sublist_filter_impl. tauto.
    + apply (lex_sorted_group Cooccurrence.sc_customer_id sc_score_ge).
      apply (pl_sort_StronglySorted Cooccurrence.by_customer_sc).
  - intros u sc Hsc. unfold cands, candidates in Hsc.
    apply list_elem_of_filter in Hsc as [[<- _] Hsc]. by apply scored_score.
Qed.

(** X13: in the frame of the co-occurrence recommender no customer has two
    rows, every customer is a customer of train within the cap, no list is
    null, no list names an article twice, and every recommended article is
    the neighbour of an edge whose item is one of the customer's seeds. *)
Theorem build_cooccurrence_recs_rows :
  forall (train : list Interaction) (neighbors_df : list Cooccurrence.NeighborEdge)
         (k seed_items_per_user : nat) (max_users : option nat),
    let out := Cooccurrence.build_cooccurrence_recs train neighbors_df k
                 seed_items_per_user max_users in
    NoDup (rr_customer_id <$> out)
    /\ forall row, row ∈ out ->
         rr_customer_id row ∈ Cooccurrence.users train max_users
         /\ rr_customer_id row ∈ customer_id <$> train
         /\ exists recs, rr_recs row = Some recs /\ NoDup recs
              /\ forall a, a ∈ recs ->
                   exists sd e, sd ∈ Cooccurrence.seeds train seed_items_per_user
                                /\ sd.1 = rr_customer_id row /\ e ∈ neighbors_df
                                /\ Cooccurrence.item e = sd.2
                                /\ Cooccurrence.neighbor e = a.
Proof.
  intros train nbs k s max_users out. unfold out. rewrite cooccurrence_recs_rows. split.
  - rewrite <- list_fmap_compose, list_fmap_id. apply NoDup_pl_unique.
  - intros row Hrow. apply list_elem_of_fmap in Hrow as (u & -> & Hu). simpl.
    unfold served_customers in Hu. rewrite elem_of_pl_unique in Hu.
    apply list_elem_of_fmap in Hu as (sc0 & -> & Hsc0).
    apply list_elem_of_filter in Hsc0 as [[Hu0 _] _].
    split; [done |]. split; [by eapply cooccurrence_users_in_train |].
    eexists. split; [done |]. split.
    + eapply sublist_NoDup; [|apply sublist_take].
      apply (NoDup_key_group Cooccurrence.sc_customer_id Cooccurrence.sc_neighbor
               (fun sc => Cooccurrence.sc_neighbor sc ∉
                            train_items train (Cooccurrence.sc_customer_id sc0))).
      apply scored_keys.
    + intros a Ha. eapply elem_of_sublist in Ha; [|apply sublist_take].
      apply list_elem_of_fmap in Ha as (sc & -> & Hsc).
      apply list_elem_of_filter in Hsc as [[Hcu _] Hsc].
      apply elem_of_scored in Hsc as (sd & e & Hsd & He & Hitem & Hcust & Hnb).
      exists sd, e. repeat split; try done. congruence.
Qed.

(** X14: the cap [max_users = 0] is read differently by the two
    baselines. The popularity baseline tests [max_users is not None],
    keeps no customer and returns an empty frame. The co-occurrence
    baseline tests [if max_users] and applies no cap at all: every
    customer one of whose seeds reaches, by an edge of the neighbour
    frame, an article that is not among its train articles has a row. *)
Theorem max_users_zero_edge :
  forall (train : list Interaction) (neighbors_df : list Cooccurrence.NeighborEdge)
         (k : Z) (k' seed_items_per_user : nat),
    Popularity.build_popularity_recs train k (Some 0%nat) = []
    /\ (forall u a e,
          (u, a) ∈ Cooccurrence.seeds train seed_items_per_user ->
          e ∈ neighbors_df -> Cooccurrence.item e = a ->
          Cooccurrence.neighbor e ∉ train_items train u ->
          u ∈ rr_customer_id <$>
                Cooccurrence.build_cooccurrence_recs train neighbors_df k'
                  seed_items_per_user (Some 0%nat)).
Proof.
  intros train nbs k k' s. split.
  - unfold Popularity.build_popularity_recs, Popularity.base, Popularity.users.
    cbv zeta. unfold pl_head_opt, pl_head. by rewrite take_0.
  - intros u a e Hsd He Hitem Hnew.
    rewrite cooccurrence_recs_rows, <- list_fmap_compose, list_fmap_id.
    apply served_customers_complete. split; [|by exists a, e].
    unfold Cooccurrence.users. apply elem_of_pl_unique.
    apply elem_of_seeds in Hsd as (r & Hr & Hu & _).
    apply list_elem_of_fmap. by exists r.
Qed.

Lemma max_users_zero_edge_witness :
  Popularity.build_popularity_recs lonely_train 12 (Some 0%nat) = []
  /\ "u3"%string ∈ rr_customer_id <$>
       Cooccurrence.build_cooccurrence_recs lonely_train
         (Cooccurrence.build_item_neighbors lonely_train 10 50) 12 10 (Some 0%nat).
Proof.
  destruct (max_users_zero_edge lonely_train
              (Cooccurrence.build_item_neighbors lonely_train 10 50) 12 12 10)
    as [Hpop Hco].
  split; [exact Hpop |].
  apply (Hco "u3"%string "b"%string
           {| Cooccurrence.item := "b"; Cooccurrence.neighbor := "c";
              Cooccurrence.cnt := 1 |}).
  - vm_compute. do 3 right. left.
  - vm_compute. left.
  - reflexivity.
  - vm_compute. intros Hin. apply elem_of_cons in Hin as [Hin|Hin]; [discriminate Hin |].
    by apply elem_of_nil in Hin.
Defined.

(** ** More on the splitter *)

Lemma pl_filter_dated {A} (d : A -> option date) (mask : option date -> option bool)
    (rows : list A) :
  mask None = None ->
  Split.pl_filter (fun r => mask (d r)) rows =
    Split.pl_filter (fun r => mask (d r)) (filter (fun r => is_Some (d r)) rows).
Proof.
  intros Hnull. unfold Split.pl_filter. rewrite list_filter_filter.
  apply list_filter_iff. intros r. split; [|tauto].
  intros Hm. split; [done |]. destruct (d r); [done |]. by rewrite Hnull in Hm.
Qed.

(** X15: [make_time_split] loses exactly the rows whose [last_seen] is
    null: such a row is in neither frame, and train and test together
    hold every other row exactly once. *)
Theorem make_time_split_drops_nulls :
  forall (interactions : list Interaction) (cutoff : date),
    let s := Split.make_time_split interactions cutoff in
    (forall r, last_seen r = None -> (r ∉ Split.train s) /\ (r ∉ Split.test s))
    /\ Split.train s ++ Split.test s ≡ₚ filter (fun r => is_Some (last_seen r)) interactions
    /\ len (Split.train s) + len (Split.test s) =
         len interactions - len (filter (fun r => last_seen r = None) interactions).
Proof.
  intros rows cutoff s.
  assert (Split.train s ++ Split.test s ≡ₚ filter (fun r => is_Some (last_seen r)) rows)
    as Hperm.
  { unfold s, Split.make_time_split. cbn [Split.train Split.test].
    rewrite (pl_filter_dated last_seen (fun d => Split.date_lt d cutoff)) by done.
    rewrite (pl_filter_dated last_seen (fun d => Split.date_ge d cutoff)) by done.
    rewrite date_ge_complement.
    - apply filter_app_complement.
    - apply Forall_forall. intros r Hr. by apply list_elem_of_filter in Hr as [? _]. }
  split; [|split; [done |]].
  - intros r Hnull. unfold s, Split.make_time_split, Split.pl_filter.
    cbn [Split.train Split.test]. rewrite !list_elem_of_filter, Hnull. simpl.
    split; intros [? _]; done.
  - apply Permutation_length in Hperm. rewrite length_app in Hperm.
    pose proof (filter_app_complement (fun r => is_Some (last_seen r)) rows) as Hc.
    apply Permutation_length in Hc. rewrite length_app in Hc.
    assert (filter (fun r => ~ (is_Some (last_seen r))) rows =
            filter (fun r => last_seen r = None) rows) as Heq.
    { apply list_filter_iff. intros r. destruct (last_seen r) as [d|]; split.
      - intros Hn. exfalso. by apply Hn.
      - done.
      - done.
      - intros _ [d Hd]. done. }
    rewrite Heq in Hc. unfold len. lia.
Qed.

Lemma seen_before_mono (c1 c2 : date) (r : Interaction) :
  c1 <= c2 -> seen_before c1 r -> seen_before c2 r.
Proof. intros Hc (d & Hd & Hlt). exists d. split; [done | lia]. Qed.

Lemma seen_from_mono (c1 c2 : date) (r : Interaction) :
  c1 <= c2 -> seen_from c2 r -> seen_from c1 r.
Proof. intros Hc (d & Hd & Hlt). exists d. split; [done | lia]. Qed.

Lemma train_filter (rows : list Interaction) (c : date) :
  Split.train (Split.make_time_split rows c) = filter (seen_before c) rows.
Proof.
  unfold Split.make_time_split, Split.pl_filter. cbn [Split.train].
  apply list_filter_iff. intros r. apply date_lt_true.
Qed.

Lemma test_filter (rows : list Interaction) (c : date) :
  Split.test (Split.make_time_split rows c) = filter (seen_from c) rows.
Proof.
  unfold Split.make_time_split, Split.pl_filter. cbn [Split.test].
  apply list_filter_iff. intros r. apply date_ge_true.
Qed.

(** X16: splits at two cutoffs nest. For [c1 <= c2] the train frame at
    [c1] is a sub-frame of the train frame at [c2] and is what splitting
    that frame at [c1] gives; symmetrically for the test frames; the rows
    between the two cutoffs are the test part of the earlier split of the
    later train frame. Splitting a train (test) frame again at its own
    cutoff returns it unchanged with an empty test (train) frame. *)
Theorem make_time_split_nests :
  forall (interactions : list Interaction) (c1 c2 : date),
    c1 <= c2 ->
    let split := Split.make_time_split in
    Split.train (split interactions c1) `sublist_of` Split.train (split interactions c2)
    /\ Split.test (split interactions c2) `sublist_of` Split.test (split interactions c1)
    /\ Split.train (split (Split.train (split interactions c2)) c1)
       = Split.train (split interactions c1)
    /\ Split.test (split (Split.test (split interactions c1)) c2)
       = Split.test (split interactions c2)
    /\ Split.test (split (Split.train (split interactions c2)) c1)
       = filter (fun r => seen_from c1 r /\ seen_before c2 r) interactions
    /\ split (Split.train (split interactions c1)) c1
       = {| Split.train := Split.train (split interactions c1); Split.test := [] |}
    /\ split (Split.test (split interactions c1)) c1
       = {| Split.train := []; Split.test := Split.test (split interactions c1) |}.
Proof.
  intros rows c1 c2 Hc split. unfold split.
  assert (forall r c, ~ (seen_before c r /\ seen_from c r)) as Hexcl.
  { intros r c [(d & Hd & Hlt) (d' & Hd' & Hge)]. rewrite Hd in Hd'.
    injection Hd' as <-. lia. }
  repeat split.
  - rewrite !train_filter. apply sublist_filter_impl. intros r. by apply seen_before_mono.
  - rewrite !test_filter. apply sublist_filter_impl. intros r. by apply seen_from_mono.
  - rewrite !train_filter, list_filter_filter. apply list_filter_iff. intros r.
    split; [tauto |]. intros H1. split; [done | by eapply seen_before_mono].
  - rewrite !test_filter, list_filter_filter. apply list_filter_iff. intros r.
    split; [tauto |]. intros H2. split; [done | by eapply seen_from_mono].
  - by rewrite test_filter, train_filter, list_filter_filter.
  - assert (Split.test (Split.make_time_split (Split.train (Split.make_time_split rows c1)) c1)
            = []) as Hnil.
    { rewrite test_filter, train_filter, list_filter_filter. apply filter_none.
      intros r _ [H2 H1]. by apply (Hexcl r c1). }
    assert (Split.train (Split.make_time_split (Split.train (Split.make_time_split rows c1)) c1)
            = Split.train (Split.make_time_split rows c1)) as Hid.
    { rewrite !train_filter, list_filter_filter. apply list_filter_iff. tauto. }
    destruct (Split.make_time_split (Split.train (Split.make_time_split rows c1)) c1)
      as [tr te] eqn:Hs. simpl in *. by subst.
  - assert (Split.train (Split.make_time_split (Split.test (Split.make_time_split rows c1)) c1)
            = []) as Hnil.
    { rewrite test_filter, train_filter, list_filter_filter. apply filter_none.
      intros r _ [H2 H1]. by apply (Hexcl r c1). }
    assert (Split.test (Split.make_time_split (Split.test (Split.make_time_split rows c1)) c1)
            = Split.test (Split.make_time_split rows c1)) as Hid.
    { rewrite !test_filter, list_filter_filter. apply list_filter_iff. tauto. }
    destruct (Split.make_time_split (Split.test (Split.make_time_split rows c1)) c1)
      as [tr te] eqn:Hs. simpl in *. by subst.
Qed.

Lemma make_time_split_nests_witness :
  Split.train (Split.make_time_split tied_train 18000)
    `sublist_of` Split.train (Split.make_time_split tied_train 18506).
Proof.
  apply (make_time_split_nests tied_train 18000 18506). lia.
Defined.

(** ** More on the score builder *)

Lemma foldl_add_from (l : list Z) (a : Z) : foldl Z.add a l = a + foldl Z.add 0 l.
Proof.
  revert a. induction l as [|x l IH]; intros a; simpl; [lia |].
  rewrite (IH (a + x)), (IH (0 + x)). lia.
Qed.

Lemma py_sum_cons (x : Z) (l : list Z) : py_sum (x :: l) = x + py_sum l.
Proof. unfold py_sum. simpl. rewrite foldl_add_from. lia. Qed.

Lemma py_sum_Permutation (l l' : list Z) : l ≡ₚ l' -> py_sum l = py_sum l'.
Proof.
  induction 1 as [|x l l' _ IH|x y l|l l' l'' _ IH1 _ IH2].
  - done.
  - by rewrite !py_sum_cons, IH.
  - rewrite !py_sum_cons. lia.
  - congruence.
Qed.

Lemma py_sum_of_nat {A} (f : A -> nat) (l : list A) :
  py_sum ((fun x => Z.of_nat (f x)) <$> l) = Z.of_nat (sum_list_with f l).
Proof.
  induction l as [|x l IH]; [done |]. rewrite fmap_cons, py_sum_cons, IH. simpl. lia.
Qed.

(** The groups of a frame hold every row exactly once. *)
Lemma group_sizes_sum {A K} `{EqDecision K} (key : A -> K) (rows : list A) :
  sum_list_with (fun k => length (filter (fun r => key r = k) rows))
    (pl_unique (key <$> rows)) = length rows.
Proof.
  rewrite <- (count_swap (fun r k => key r = k) rows (pl_unique (key <$> rows))).
  rewrite (sum_list_with_ext_in _ (fun _ => 1%nat)).
  - induction rows as [|r rows IH]; [done |]. clear IH.
    induction (r :: rows) as [|x l IH]; simpl; [done | by rewrite IH].
  - intros r Hr.
    pose proof (filter_key_NoDup_length id (pl_unique (key <$> rows)) (key r)) as Hlen.
    rewrite list_fmap_id in Hlen. specialize (Hlen (NoDup_pl_unique _)).
    destruct (decide (key r ∈ pl_unique (key <$> rows))) as [_|Hn].
    + rewrite <- Hlen. f_equal. apply list_filter_iff. intros k. simpl. split; congruence.
    + exfalso. apply Hn, elem_of_pl_unique, list_elem_of_fmap. by exists r.
Qed.

(** The events with no missing field. *)
Lemma drop_nulls_complete (events : list ScoreBuilder.RawEvent) (c a : string) (d : date) :
  (c, a, d) ∈ ScoreBuilder.drop_nulls events <->
  {| ScoreBuilder.t_dat := Some d; ScoreBuilder.ev_customer_id := Some c;
     ScoreBuilder.ev_article_id := Some a |} ∈ events.
Proof.
  unfold ScoreBuilder.drop_nulls. rewrite list_elem_of_omap. split.
  - intros ([[d'|] [c'|] [a'|]] & Hin & Heq); simpl in Heq; try discriminate Heq.
    by injection Heq as -> -> ->.
  - intros Hin. eexists. split; [exact Hin | done].
Qed.

Lemma main_keys (today : date) (events : list ScoreBuilder.RawEvent) :
  (fun r => (ScoreBuilder.sb_customer_id r, ScoreBuilder.sb_article_id r)) <$>
    ScoreBuilder.main today events
  ≡ₚ pl_unique ((fun e : string * string * date => (e.1.1, e.1.2)) <$>
                  ScoreBuilder.drop_nulls events).
Proof.
  unfold ScoreBuilder.main. cbv zeta.
  rewrite (pl_sort_Permutation ScoreBuilder.by_customer_score), <- list_fmap_compose.
  rewrite <- pl_group_by_keys.
  assert (forall (f : string * string * list (string * string * date) -> ScoreBuilder.ScoredRow)
                 gs,
            (forall g, ScoreBuilder.sb_customer_id (f g) = g.1.1
                       /\ ScoreBuilder.sb_article_id (f g) = g.1.2) ->
            (fun r => (ScoreBuilder.sb_customer_id r, ScoreBuilder.sb_article_id r)) ∘ f
              <$> gs = gs.*1) as Hfst.
  { intros f gs Hf. apply list_fmap_ext. intros i [[c a] rows] _.
    unfold compose. destruct (Hf (c, a, rows)) as [-> ->]. done. }
  rewrite Hfst; [done |]. by intros g.
Qed.

Lemma main_freq_sum (today : date) (events : list ScoreBuilder.RawEvent) :
  py_sum (ScoreBuilder.sb_freq <$> ScoreBuilder.main today events) =
    len (ScoreBuilder.drop_nulls events).
Proof.
  unfold ScoreBuilder.main. cbv zeta.
  rewrite (py_sum_Permutation _ _
             (fmap_Permutation _ _ _ (pl_sort_Permutation ScoreBuilder.by_customer_score _))).
  rewrite <- list_fmap_compose. unfold pl_group_by. rewrite <- list_fmap_compose.
  unfold compose. cbn [ScoreBuilder.sb_freq snd]. unfold len.
  rewrite (py_sum_of_nat
             (fun k => length (filter (fun e : string * string * date => (e.1.1, e.1.2) = k)
                                 (ScoreBuilder.drop_nulls events)))).
  f_equal. apply group_sizes_sum.
Qed.


#[local] Instance sb_score_ge_total :
  Total (fun x y : ScoreBuilder.ScoredRow =>
           (ScoreBuilder.sb_implicit_score y <= ScoreBuilder.sb_implicit_score x)%R).
Proof.
  intros x y.
  destruct (Rle_dec (ScoreBuilder.sb_implicit_score y) (ScoreBuilder.sb_implicit_score x));
    [by left | right; Lra.lra].
Qed.

#[local] Instance sb_score_ge_trans :
  Transitive (fun x y : ScoreBuilder.ScoredRow =>
                (ScoreBuilder.sb_implicit_score y <= ScoreBuilder.sb_implicit_score x)%R).
Proof. intros x y z Hxy Hyz. Lra.lra. Qed.

Lemma main_sorted (today : date) (events : list ScoreBuilder.RawEvent) :
  StronglySorted ScoreBuilder.by_customer_score (ScoreBuilder.main today events).
Proof.
  unfold ScoreBuilder.main. cbv zeta.
  apply (@pl_sort_StronglySorted _ ScoreBuilder.by_customer_score _).
  - apply (lex_total ScoreBuilder.sb_customer_id), sb_score_ge_total.
  - apply (lex_transitive ScoreBuilder.sb_customer_id), sb_score_ge_trans.
Qed.

Lemma recency_score_cases (today last_seen : date) :
  (0 < ScoreBuilder.recency_score (ScoreBuilder.days_since_last today last_seen))%R
  /\ (last_seen <= today ->
      (ScoreBuilder.recency_score (ScoreBuilder.days_since_last today last_seen) <= 1)%R)
  /\ (today < last_seen ->
      (1 < ScoreBuilder.recency_score (ScoreBuilder.days_since_last today last_seen))%R).
Proof.
  unfold ScoreBuilder.recency_score, ScoreBuilder.days_since_last,
    ScoreBuilder.half_life_days.
  rewrite minus_IZR. split; [apply exp_pos |]. split; intros Hd.
  - apply IZR_le in Hd. rewrite <- exp_0.
    destruct (Req_dec (IZR today) (IZR last_seen)) as [Heq|Hne].
    + right. f_equal. rewrite Heq. Lra.lra.
    + left. apply exp_increasing. Lra.lra.
  - apply IZR_lt in Hd. rewrite <- exp_0. apply exp_increasing. Lra.lra.
Qed.

(** X18: every score the builder writes is strictly positive; a pair last
    bought on or before the run date scores at most [log1p(freq)], and a
    pair whose last purchase is dated after the run date scores strictly
    more than [log1p(freq)], the recency factor having no cap at 1.  The
    output is ordered by customer ascending and, inside one customer, by
    score descending. *)
Theorem main_scores_positive_and_sorted :
  forall (today : date) (events : list ScoreBuilder.RawEvent),
    (forall row, row ∈ ScoreBuilder.main today events ->
       (0 < ScoreBuilder.sb_implicit_score row)%R
       /\ (ScoreBuilder.sb_last_seen row <= today ->
           (ScoreBuilder.sb_implicit_score row
            <= ScoreBuilder.freq_score (ScoreBuilder.sb_freq row))%R)
       /\ (today < ScoreBuilder.sb_last_seen row ->
           (ScoreBuilder.freq_score (ScoreBuilder.sb_freq row)
            < ScoreBuilder.sb_implicit_score row)%R))
    /\ StronglySorted
         (fun x y =>
            str_lt (ScoreBuilder.sb_customer_id x) (ScoreBuilder.sb_customer_id y)
            \/ (ScoreBuilder.sb_customer_id x = ScoreBuilder.sb_customer_id y
                /\ (ScoreBuilder.sb_implicit_score y
                    <= ScoreBuilder.sb_implicit_score x)%R))
         (ScoreBuilder.main today events).
Proof.
  intros today events. split; [|apply main_sorted].
  intros row Hrow.
  destruct (main_row_spec today events row Hrow) as (_ & Hf & _ & _ & Hscore).
  rewrite Hscore. unfold implicit_score_on.
  pose proof (freq_score_pos _ Hf) as Hpos.
  destruct (recency_score_cases today (ScoreBuilder.sb_last_seen row)) as (Hr0 & Hr1 & Hr2).
  split; [by apply Rmult_lt_0_compat |]. split; intros Hd.
  - specialize (Hr1 Hd). rewrite <- (Rmult_1_r (ScoreBuilder.freq_score _)) at 2.
    apply Rmult_le_compat_l; [Lra.lra | done].
  - specialize (Hr2 Hd). rewrite <- (Rmult_1_r (ScoreBuilder.freq_score _)) at 1.
    by apply Rmult_lt_compat_l.
Qed.

(** ** The scripts run one after the other *)

#[local] Set Warnings "-abstract-large-number".

Lemma pl_unique_NoDup_id {A} `{EqDecision A} (l : list A) : NoDup l -> pl_unique l = l.
Proof.
  induction 1 as [|x l Hx Hnd IH]; [done |]. simpl. rewrite IH. f_equal.
  apply filter_all. intros y Hy ->. done.
Qed.

Lemma filter_ext_in {A} (P Q : A -> Prop) `{forall x, Decision (P x)}
    `{forall x, Decision (Q x)} (l : list A) :
  (forall x, x ∈ l -> P x <-> Q x) -> filter P l = filter Q l.
Proof.
  induction l as [|x l IH]; intros Hpq; [done |]. rewrite !filter_cons.
  rewrite IH by (intros y Hy; apply Hpq; by right).
  assert (P x <-> Q x) as Hx by (apply Hpq; by left).
  destruct (decide (P x)), (decide (Q x)); tauto.
Qed.

Lemma NoDup_subseteq_filter_length {A} (P : A -> Prop) `{forall x, Decision (P x)}
    (l1 l2 : list A) :
  NoDup l1 -> (forall x, x ∈ l1 -> x ∈ l2) ->
  (length (filter P l1) <= length (filter P l2))%nat.
Proof.
  intros Hnd Hsub. apply submseteq_length, NoDup_submseteq.
  - by apply NoDup_filter.
  - intros x Hx. apply list_elem_of_filter in Hx as [Hp Hx].
    apply list_elem_of_filter. split; [done | by apply Hsub].
Qed.

(** The number of users [evaluate_recs] reports for a frame with one row
    per customer, within the cap: the customers that have a test row. *)
Lemma evaluate_recs_users_count {F} `{PyNum F} (model_name : string)
    (f : string -> RecsRow) (us : list string) (test : list Interaction)
    (k : Z) (n : nat) :
  (forall u, rr_customer_id (f u) = u) -> NoDup us -> (length us <= n)%nat ->
  Metrics.mr_users (Metrics.evaluate_recs model_name (f <$> us) test k (Some n)) =
    len (filter (fun u => u ∈ customer_id <$> test) us).
Proof.
  intros Hf Hnd Hlen. unfold Metrics.evaluate_recs. cbv zeta.
  cbn [Metrics.mr_users]. unfold len at 1. rewrite length_fmap.
  pose proof (eval_df_length (f <$> us) test (Some n)) as Hcount.
  unfold len in Hcount at 1. rewrite Hcount. unfold len. f_equal.
  rewrite length_filter_fmap. f_equal. apply filter_ext_in. intros u Hu.
  unfold evaluated, Metrics.eval_users. rewrite Hf.
  assert (rr_customer_id <$> (f <$> us) = us) as ->.
  { rewrite <- list_fmap_compose. rewrite <- (list_fmap_id us) at 2.
    apply list_fmap_ext. intros i x _. apply Hf. }
  rewrite pl_unique_NoDup_id by done. simpl. unfold pl_head. rewrite take_ge by done.
  tauto.
Qed.

Lemma top_items_NoDup (train : list Interaction) : NoDup (Popularity.top_items train).
Proof.
  unfold Popularity.top_items, pl_head.
  eapply sublist_NoDup; [|apply sublist_take].
  rewrite (fmap_Permutation _ _ _ (pl_sort_Permutation Popularity.cnt_desc _)).
  rewrite item_counts_keys. apply NoDup_pl_unique.
Qed.

Lemma top_items_in_train (train : list Interaction) (a : string) :
  a ∈ Popularity.top_items train -> a ∈ article_id <$> train.
Proof.
  unfold Popularity.top_items, pl_head. intros Ha.
  eapply elem_of_sublist in Ha; [|apply sublist_take].
  rewrite (fmap_Permutation _ _ _ (pl_sort_Permutation Popularity.cnt_desc _)) in Ha.
  by rewrite item_counts_keys, elem_of_pl_unique in Ha.
Qed.

Lemma popularity_recs_form (train : list Interaction) (k : Z) (max_users : option nat) :
  1 <= k ->
  Popularity.build_popularity_recs train k max_users =
    (fun u => {| rr_customer_id := u;
                 rr_recs := Some (take (Z.to_nat k)
                                    (filter (fun a => a ∉ train_items train u)
                                            (Popularity.top_items train))) |})
      <$> Popularity.users train max_users.
Proof.
  intros Hk. unfold Popularity.build_popularity_recs, Popularity.base. cbv zeta.
  rewrite base_closed_form by apply popularity_users_in_train.
  rewrite <- list_fmap_compose. apply list_fmap_ext. intros i u _.
  unfold compose. cbn [fst snd]. do 2 f_equal.
  unfold Popularity.recs_for_seen.
  rewrite recs_loop_take by (unfold len; simpl; lia).
  unfold len. simpl. rewrite Z.sub_0_r. f_equal.
  apply list_filter_iff. intros a.
  by rewrite elem_of_list_to_set, elem_of_pl_unique.
Qed.

Lemma popularity_users_NoDup (train : list Interaction) (max_users : option nat) :
  NoDup (Popularity.users train max_users).
Proof.
  unfold Popularity.users.
  eapply sublist_NoDup; [apply NoDup_pl_unique | apply pl_head_opt_sublist].
Qed.

Lemma served_customers_capped (train : list Interaction)
    (nbs : list Cooccurrence.NeighborEdge) (s : nat) (max_users : option nat) (u : string) :
  u ∈ served_customers train nbs s max_users -> u ∈ Cooccurrence.users train max_users.
Proof.
  unfold served_customers. rewrite elem_of_pl_unique, list_elem_of_fmap.
  intros (sc & -> & Hsc). by apply list_elem_of_filter in Hsc as [[Hu _] _].
Qed.

Lemma neighbor_in_train (train : list Interaction) (s n : nat)
    (e : Cooccurrence.NeighborEdge) :
  e ∈ Cooccurrence.build_item_neighbors train s n ->
  Cooccurrence.neighbor e ∈ article_id <$> train.
Proof.
  unfold Cooccurrence.build_item_neighbors. intros He.
  apply elem_of_pl_group_head, elem_of_counts_iff in He as [Hpair _].
  apply elem_of_pairs_iff in Hpair as [_ (u & _ & Hu2)].
  apply elem_of_seeds in Hu2 as (r & Hr & _ & Ha).
  apply list_elem_of_fmap. by exists r.
Qed.

(** What a row of either baseline holds, for a train frame cut out of
    [rows] by a predicate. *)
Lemma popularity_row_spec (train : list Interaction) (k : Z) (max_users : option nat)
    (row : RecsRow) :
  1 <= k -> row ∈ Popularity.build_popularity_recs train k max_users ->
  rr_customer_id row ∈ customer_id <$> train
  /\ exists recs, rr_recs row = Some recs /\ (length recs <= Z.to_nat k)%nat /\ NoDup recs
       /\ forall a, a ∈ recs ->
            a ∈ article_id <$> train /\ a ∉ train_items train (rr_customer_id row).
Proof.
  intros Hk Hrow. rewrite popularity_recs_form in Hrow by done.
  apply list_elem_of_fmap in Hrow as (u & -> & Hu). simpl.
  split; [by eapply popularity_users_in_train |].
  eexists. split; [done |]. split; [rewrite length_take; lia |]. split.
  - eapply sublist_NoDup; [|apply sublist_take].
    apply NoDup_filter, top_items_NoDup.
  - intros a Ha. eapply elem_of_sublist in Ha; [|apply sublist_take].
    apply list_elem_of_filter in Ha as [Hnew Ha].
    split; [by apply top_items_in_train | done].
Qed.

Lemma cooccurrence_row_spec (train : list Interaction) (s n k seed : nat)
    (max_users : option nat) (row : RecsRow) :
  row ∈ Cooccurrence.build_cooccurrence_recs train
          (Cooccurrence.build_item_neighbors train s n) k seed max_users ->
  rr_customer_id row ∈ customer_id <$> train
  /\ exists recs, rr_recs row = Some recs /\ (length recs <= k)%nat /\ NoDup recs
       /\ forall a, a ∈ recs ->
            a ∈ article_id <$> train /\ a ∉ train_items train (rr_customer_id row).
Proof.
  intros Hrow. rewrite cooccurrence_recs_rows in Hrow.
  apply list_elem_of_fmap in Hrow as (u & -> & Hu). simpl.
  split.
  { eapply cooccurrence_users_in_train. by eapply served_customers_capped. }
  eexists. split; [done |]. split; [rewrite length_take; lia |]. split.
  - eapply sublist_NoDup; [|apply sublist_take].
    apply (NoDup_key_group Cooccurrence.sc_customer_id Cooccurrence.sc_neighbor
             (fun sc => Cooccurrence.sc_neighbor sc ∉ train_items train u)).
    apply scored_keys.
  - intros a Ha. eapply elem_of_sublist in Ha; [|apply sublist_take].
    apply list_elem_of_fmap in Ha as (sc & -> & Hsc).
    apply list_elem_of_filter in Hsc as [[_ Hnew] Hsc]. split; [|done].
    apply elem_of_scored in Hsc as (sd & e & _ & He & _ & _ & <-).
    by eapply neighbor_in_train.
Qed.

(** X19: the two baselines run on the train frame of the split use the
    past only. In the frames [popularity.main] and [cooccurrence.main]
    write, every row belongs to a customer with an interaction before the
    cutoff, its list is not null, holds at most 12 articles and none
    twice; every recommended article has an interaction before the cutoff
    (an article first bought from the cutoff on is never recommended), and
    the customer has no interaction with it before the cutoff. *)
Theorem baselines_recommend_from_the_past :
  forall (interactions : list Interaction),
    let s := Split.make_time_split interactions Mains.cutoff_date in
    let pop := Mains.popularity_main (Split.train s) in
    let co := (Mains.cooccurrence_main (Split.train s)).2 in
    NoDup (rr_customer_id <$> pop)
    /\ NoDup (rr_customer_id <$> co)
    /\ forall row, row ∈ pop ++ co ->
         (exists r, r ∈ interactions /\ customer_id r = rr_customer_id row
                    /\ seen_before Mains.cutoff_date r)
         /\ exists recs, rr_recs row = Some recs /\ (length recs <= 12)%nat /\ NoDup recs
              /\ forall a, a ∈ recs ->
                   (exists r, r ∈ interactions /\ article_id r = a
                              /\ seen_before Mains.cutoff_date r)
                   /\ ~ (exists r, r ∈ interactions
                                   /\ customer_id r = rr_customer_id row
                                   /\ article_id r = a
                                   /\ seen_before Mains.cutoff_date r).
Proof.
  intros rows s pop co. unfold pop, co, s. rewrite train_filter.
  set (train := filter (seen_before Mains.cutoff_date) rows).
  unfold Mains.popularity_main, Mains.cooccurrence_main. cbv zeta. cbn [snd].
  split; [|split].
  - rewrite popularity_recs_form by lia.
    rewrite <- list_fmap_compose, list_fmap_id. apply popularity_users_NoDup.
  - rewrite cooccurrence_recs_rows.
    rewrite <- list_fmap_compose, list_fmap_id. apply NoDup_pl_unique.
  - intros row Hrow.
    assert (rr_customer_id row ∈ customer_id <$> train
            /\ exists recs, rr_recs row = Some recs /\ (length recs <= 12)%nat /\ NoDup recs
                 /\ forall a, a ∈ recs ->
                      a ∈ article_id <$> train
                      /\ a ∉ train_items train (rr_customer_id row)) as [Hcust Hrecs].
    { apply elem_of_app in Hrow as [Hrow|Hrow].
      - eapply (popularity_row_spec train 12 _ row); [lia | exact Hrow].
      - eapply (cooccurrence_row_spec train 10 50 12 10 _ row). exact Hrow. }
    split.
    { apply list_elem_of_fmap in Hcust as (r & Hr & Hin).
      apply list_elem_of_filter in Hin as [Hbefore Hin]. by exists r. }
    destruct Hrecs as (recs & Hsome & Hlen & Hnd & Hall).
    exists recs. repeat (split; [done |]). intros a Ha.
    destruct (Hall a Ha) as [Hart Hnew]. split.
    + apply list_elem_of_fmap in Hart as (r & Hr & Hin).
      apply list_elem_of_filter in Hin as [Hbefore Hin]. by exists r.
    + intros (r & Hin & Hc & Har & Hbefore). apply Hnew.
      unfold train_items. apply list_elem_of_fmap. exists r. split; [done |].
      apply list_elem_of_filter. split; [done |].
      apply list_elem_of_filter. done.
Qed.

Lemma evaluate_recs_bounds_Q (model_name : string) (recs_df : list RecsRow)
    (test : list Interaction) (k : Z) (max_users : option nat) :
  (forall row, row ∈ recs_df -> NoDup (default [] (rr_recs row))) ->
  let res := Metrics.evaluate_recs (F:=Q) model_name recs_df test k max_users in
  (0 <= Metrics.mr_recall_at_k res <= 1)%Q /\ (0 <= Metrics.mr_map_at_k res <= 1)%Q.
Proof.
  intros Hnd res. unfold res, Metrics.evaluate_recs. cbv zeta.
  cbn [Metrics.mr_recall_at_k Metrics.mr_map_at_k].
  assert (forall row : RecsRow * (string * list string),
            row ∈ Metrics.eval_df recs_df test max_users ->
            NoDup (default [] (rr_recs row.1))) as Hrows.
  { intros [row tr] Hin. apply Hnd.
    by apply (eval_df_row recs_df test max_users row tr). }
  split.
  - apply mean_bounds, Forall_fmap, Forall_forall. intros row Hin.
    apply recall_bounds_Q. by apply Hrows.
  - apply mean_bounds, Forall_fmap, Forall_forall. intros row Hin.
    apply ap_bounds_Q. by apply Hrows.
Qed.

(** The users counted for each baseline when recommender and evaluator
    share the cap [n]. *)
Lemma popularity_users_evaluated {F} `{PyNum F} (model_name : string)
    (train test : list Interaction) (k k' : Z) (n : nat) :
  1 <= k ->
  Metrics.mr_users
    (Metrics.evaluate_recs model_name
       (Popularity.build_popularity_recs train k (Some n)) test k' (Some n)) =
  len (filter (fun u => u ∈ customer_id <$> test) (Popularity.users train (Some n))).
Proof.
  intros Hk. rewrite popularity_recs_form by done.
  apply evaluate_recs_users_count; [done | apply popularity_users_NoDup |].
  unfold Popularity.users, pl_head_opt, pl_head. rewrite length_take. lia.
Qed.

Lemma cooccurrence_users_evaluated {F} `{PyNum F} (model_name : string)
    (train test : list Interaction) (nbs : list Cooccurrence.NeighborEdge)
    (k s : nat) (k' : Z) (n : nat) :
  (0 < n)%nat ->
  Metrics.mr_users
    (Metrics.evaluate_recs model_name
       (Cooccurrence.build_cooccurrence_recs train nbs k s (Some n)) test k' (Some n)) =
  len (filter (fun u => u ∈ customer_id <$> test)
         (served_customers train nbs s (Some n))).
Proof.
  intros Hn. rewrite cooccurrence_recs_rows.
  apply evaluate_recs_users_count; [done | apply NoDup_pl_unique |].
  etrans.
  - apply submseteq_length, NoDup_submseteq; [apply NoDup_pl_unique |].
    intros u Hu. by eapply served_customers_capped.
  - unfold Cooccurrence.users. destruct n as [|n]; [lia |].
    unfold pl_head. rewrite length_take. lia.
Qed.

Lemma length_pl_unique_size (l : list string) :
  length (pl_unique l) = size (list_to_set l : gset string).
Proof.
  rewrite <- (size_list_to_set (C:=gset string) (pl_unique l)) by apply NoDup_pl_unique.
  f_equal. apply set_eq. intros x.
  by rewrite !elem_of_list_to_set, elem_of_pl_unique.
Qed.

(** X20: [metrics.main] on the frames the two baselines write from the
    train frame of the split, against its test frame, on exact rationals.
    All four means lie in [0, 1]. The users counted for a baseline are
    the customers of its recs frame that have a test row, and each of
    them also has a row before the cutoff: a customer seen only from the
    cutoff on is never evaluated. When train has at most 100000 distinct
    customers, so that the cap of neither baseline cuts, the
    co-occurrence baseline is evaluated on at most as many users as the
    popularity baseline. *)
Theorem metrics_main_after_baselines :
  forall (interactions : list Interaction),
    let s := Split.make_time_split interactions Mains.cutoff_date in
    let train := Split.train s in
    let test := Split.test s in
    let pop := Mains.popularity_main train in
    let co := Mains.cooccurrence_main train in
    let res := Mains.metrics_main (F:=Q) pop co.2 test in
    let with_test (us : list string) :=
      len (filter (fun u => u ∈ customer_id <$> test) us) in
    ((0 <= Metrics.mr_recall_at_k res.1 <= 1)%Q /\ (0 <= Metrics.mr_map_at_k res.1 <= 1)%Q)
    /\ ((0 <= Metrics.mr_recall_at_k res.2 <= 1)%Q /\ (0 <= Metrics.mr_map_at_k res.2 <= 1)%Q)
    /\ Metrics.mr_users res.1 = with_test (rr_customer_id <$> pop)
    /\ Metrics.mr_users res.2 = with_test (rr_customer_id <$> co.2)
    /\ ((size (list_to_set (customer_id <$> train) : gset string) <= 100000)%nat ->
        Metrics.mr_users res.2 <= Metrics.mr_users res.1)
    /\ (forall u, u ∈ (rr_customer_id <$> pop) ++ (rr_customer_id <$> co.2) ->
          u ∈ customer_id <$> filter (seen_before Mains.cutoff_date) interactions)
    /\ (forall u, u ∈ customer_id <$> test <->
          exists r, r ∈ interactions /\ customer_id r = u
                    /\ seen_from Mains.cutoff_date r).
Proof.
  intros rows s train test pop co res with_test.
  assert (0 < 100000)%nat as Hcap by (apply Nat.ltb_lt; vm_compute; reflexivity).
  unfold res, Mains.metrics_main. cbv zeta. cbn [fst snd].
  unfold co, pop, Mains.cooccurrence_main, Mains.popularity_main. cbv zeta. cbn [fst snd].
  assert (rr_customer_id <$> Popularity.build_popularity_recs train 12 (Some 100000%nat)
          = Popularity.users train (Some 100000%nat)) as Hpop.
  { rewrite popularity_recs_form by lia. rewrite <- list_fmap_compose. apply list_fmap_id. }
  assert (rr_customer_id <$>
            Cooccurrence.build_cooccurrence_recs train
              (Cooccurrence.build_item_neighbors train 10 50) 12 10 (Some 100000%nat)
          = served_customers train (Cooccurrence.build_item_neighbors train 10 50) 10
              (Some 100000%nat)) as Hco.
  { rewrite cooccurrence_recs_rows. rewrite <- list_fmap_compose. apply list_fmap_id. }
  rewrite Hpop, Hco.
  rewrite popularity_users_evaluated by lia.
  rewrite cooccurrence_users_evaluated by done.
  split; [|split; [|split; [|split; [|split; [|split]]]]].
  - apply evaluate_recs_bounds_Q. intros row Hrow.
    eapply popularity_row_spec in Hrow as (_ & recs & -> & _ & Hnd & _); [done | lia].
  - apply evaluate_recs_bounds_Q. intros row Hrow.
    by apply cooccurrence_row_spec in Hrow as (_ & recs & -> & _ & Hnd & _).
  - done.
  - done.
  - intros Hsmall. rewrite <- length_pl_unique_size in Hsmall.
    assert (Popularity.users train (Some 100000%nat) = pl_unique (customer_id <$> train))
      as Hall by (unfold Popularity.users, pl_head_opt, pl_head; by rewrite take_ge).
    rewrite Hall. unfold len. apply inj_le.
    apply NoDup_subseteq_filter_length; [apply NoDup_pl_unique |].
    intros u Hu. apply elem_of_pl_unique.
    eapply cooccurrence_users_in_train. by eapply served_customers_capped.
  - intros u Hu. unfold train, s in *. rewrite train_filter in *.
    apply elem_of_app in Hu as [Hu|Hu].
    + by apply popularity_users_in_train in Hu.
    + eapply cooccurrence_users_in_train. by eapply served_customers_capped.
  - intros u. unfold test, s. rewrite test_filter, list_elem_of_fmap. split.
    + intros (r & -> & Hr). apply list_elem_of_filter in Hr as [Hfrom Hr]. by exists r.
    + intros (r & Hr & <- & Hfrom). exists r. split; [done |].
      by apply list_elem_of_filter.
Qed.

Lemma metrics_main_after_baselines_witness :
  let interactions :=
    lonely_train ++
    [ {| customer_id := "u3"; article_id := "c"; freq := 1;
         last_seen := Some 18510; implicit_score := 1 |} ] in
  let s := Split.make_time_split interactions Mains.cutoff_date in
  let res := Mains.metrics_main (F:=Q) (Mains.popularity_main (Split.train s))
               (Mains.cooccurrence_main (Split.train s)).2 (Split.test s) in
  (size (list_to_set (customer_id <$> Split.train s) : gset string) <= 100000)%nat
  /\ Metrics.mr_users res.2 <= Metrics.mr_users res.1.
Proof.
  intros interactions s res.
  assert (size (list_to_set (customer_id <$> Split.train s) : gset string) <= 100000)%nat
    as Hsmall.
  { rewrite <- length_pl_unique_size. apply Nat.leb_le. vm_compute. reflexivity. }
  split; [exact Hsmall |].
  exact (proj1 (proj2 (proj2 (proj2 (proj2 (metrics_main_after_baselines interactions)))))
           Hsmall).
Defined.

(** ** The item-feature builder *)

Section item_features.
Context {cell : Type} (cast_utf8 : cell -> cell).

Lemma get_column_is_Some (c : string) (lf : ItemFeatures.frame (cell:=cell)) :
  c ∈ ItemFeatures.schema_names lf <-> is_Some (ItemFeatures.get_column c lf).
Proof.
  unfold ItemFeatures.schema_names. induction lf as [|col lf IH]; simpl.
  - split; [by intros ?%elem_of_nil | by intros [? ?]].
  - rewrite elem_of_cons. destruct (decide (col.1 = c)) as [->|Hne].
    + split; [by eexists | by left].
    + rewrite <- IH. split; [by intros [->|?] | by right].
Qed.

Lemma select_names (names : list string) (lf : ItemFeatures.frame (cell:=cell)) :
  ItemFeatures.schema_names (ItemFeatures.select names lf) =
    filter (fun c => c ∈ ItemFeatures.schema_names lf) names.
Proof.
  unfold ItemFeatures.select. induction names as [|c names IH]; [done |].
  rewrite filter_cons. cbn [omap list_omap].
  destruct (decide (c ∈ ItemFeatures.schema_names lf)) as [Hc|Hc].
  - apply get_column_is_Some in Hc as [vs Hvs]. rewrite Hvs. simpl.
    f_equal. apply IH.
  - destruct (ItemFeatures.get_column c lf) as [vs|] eqn:Hvs; [|apply IH].
    exfalso. apply Hc, get_column_is_Some. by eexists.
Qed.

Lemma get_column_select (names : list string) (lf : ItemFeatures.frame (cell:=cell))
    (c : string) :
  ItemFeatures.get_column c (ItemFeatures.select names lf) =
    if decide (c ∈ names) then ItemFeatures.get_column c lf else None.
Proof.
  unfold ItemFeatures.select. induction names as [|n names IH].
  - simpl. destruct (decide (c ∈ [])) as [Hin|_]; [by apply elem_of_nil in Hin | done].
  - cbn [omap list_omap]. destruct (decide (n = c)) as [->|Hne].
    + destruct (decide (c ∈ c :: names)) as [_|Hn]; [|exfalso; apply Hn; by left].
      destruct (ItemFeatures.get_column c lf) as [vs|] eqn:Hvs; simpl.
      * by destruct (decide (c = c)).
      * rewrite IH. by destruct (decide (c ∈ names)).
    + assert (forall X : option (list cell),
                (if decide (c ∈ n :: names) then X else None) =
                (if decide (c ∈ names) then X else None)) as ->.
      { intros X. destruct (decide (c ∈ n :: names)) as [Hin|Hin],
          (decide (c ∈ names)) as [Hin'|Hin']; try done.
        - apply elem_of_cons in Hin as [->|Hin]; done.
        - exfalso. apply Hin. by right. }
      destruct (ItemFeatures.get_column n lf) as [vs|]; simpl; [|apply IH].
      destruct (decide (n = c)); [done | apply IH].
Qed.
End item_features.

Lemma get_column_cast_article_id {cell} (cast_utf8 : cell -> cell) (c : string)
    (lf : ItemFeatures.frame (cell:=cell)) :
  ItemFeatures.get_column c (ItemFeatures.cast_article_id cast_utf8 lf) =
    if decide (c = "article_id"%string)
    then (fun vs : list cell => cast_utf8 <$> vs) <$> ItemFeatures.get_column c lf
    else ItemFeatures.get_column c lf.
Proof.
  unfold ItemFeatures.cast_article_id. induction lf as [|[n vs] lf IH].
  - simpl. by destruct (decide (c = "article_id"%string)).
  - rewrite fmap_cons. cbn [fst snd].
    destruct (decide (n = "article_id"%string)) as [->|Hn]; cbn [ItemFeatures.get_column fst snd].
    + destruct (decide ("article_id"%string = c)) as [<-|Hc].
      * by destruct (decide ("article_id"%string = "article_id"%string)).
      * rewrite IH. done.
    + destruct (decide (n = c)) as [->|Hc]; [|by rewrite IH].
      by destruct (decide (c = "article_id"%string)).
Qed.

Lemma cast_article_id_names {cell} (cast_utf8 : cell -> cell)
    (lf : ItemFeatures.frame (cell:=cell)) :
  ItemFeatures.schema_names (ItemFeatures.cast_article_id cast_utf8 lf) =
    ItemFeatures.schema_names lf.
Proof.
  unfold ItemFeatures.schema_names, ItemFeatures.cast_article_id.
  rewrite <- list_fmap_compose. apply list_fmap_ext. intros i [n vs] _.
  unfold compose. simpl. by destruct (decide (n = "article_id"%string)).
Qed.

Lemma keep_cols_NoDup : NoDup ItemFeatures.keep_cols.
Proof. apply (bool_decide_unpack _). by vm_compute. Qed.

(** X21: the item-feature builder. It raises [FileNotFoundError] without
    the CSV file and [ValueError] exactly when the CSV has no [article_id]
    column; a missing column of the other eleven is skipped without an
    error. Otherwise the frame it writes holds the columns of [keep_cols]
    that the CSV has, in the order of [keep_cols] (whatever their order in
    the CSV), [article_id] first, at most 12 columns, no name twice; a
    column outside [keep_cols] is dropped, [article_id] holds the cast
    values and every other kept column its values unchanged. *)
Theorem item_features_main_spec :
  forall (cell : Type) (cast_utf8 : cell -> cell) (lf : ItemFeatures.frame (cell:=cell)),
    ItemFeatures.main cast_utf8 None = inl FileNotFoundError
    /\ ("article_id"%string ∉ ItemFeatures.schema_names lf ->
        ItemFeatures.main cast_utf8 (Some lf) = inl ValueError)
    /\ ("article_id"%string ∈ ItemFeatures.schema_names lf ->
        exists out,
          ItemFeatures.main cast_utf8 (Some lf) = inr out
          /\ ItemFeatures.schema_names out =
               filter (fun c => c ∈ ItemFeatures.schema_names lf) ItemFeatures.keep_cols
          /\ head (ItemFeatures.schema_names out) = Some "article_id"%string
          /\ (length out <= 12)%nat
          /\ NoDup (ItemFeatures.schema_names out)
          /\ forall c,
               ItemFeatures.get_column c out =
                 if decide (c ∈ ItemFeatures.keep_cols) then
                   if decide (c = "article_id"%string)
                   then (fun vs : list cell => cast_utf8 <$> vs) <$> ItemFeatures.get_column c lf
                   else ItemFeatures.get_column c lf
                 else None).
Proof.
  intros cell cast_utf8 lf.
  assert ("article_id"%string ∈ ItemFeatures.existing lf <->
          "article_id"%string ∈ ItemFeatures.schema_names lf) as Hid.
  { unfold ItemFeatures.existing. rewrite list_elem_of_filter. split; [by intros [? _] |].
    intros Hin. split; [done | by left]. }
  split; [done |]. split.
  - intros Hno. unfold ItemFeatures.main. cbv zeta.
    destruct (decide ("article_id"%string ∉ ItemFeatures.existing lf)) as [_|Hin]; [done |].
    exfalso. apply Hin. by rewrite Hid.
  - intros Hin. eexists. split.
    { unfold ItemFeatures.main. cbv zeta.
      destruct (decide ("article_id"%string ∉ ItemFeatures.existing lf)) as [Hno|_]; [|done].
      exfalso. apply Hno. by rewrite Hid. }
    assert (ItemFeatures.schema_names
              (ItemFeatures.cast_article_id cast_utf8
                 (ItemFeatures.select (ItemFeatures.existing lf) lf)) =
            filter (fun c => c ∈ ItemFeatures.schema_names lf) ItemFeatures.keep_cols)
      as Hnames.
    { rewrite cast_article_id_names, select_names. unfold ItemFeatures.existing.
      apply filter_all. intros c Hc. by apply list_elem_of_filter in Hc as [? _]. }
    split; [done |]. split; [|split; [|split]].
    + rewrite Hnames. unfold ItemFeatures.keep_cols. by rewrite filter_cons_True.
    + transitivity (length ItemFeatures.keep_cols); [|done].
      unfold ItemFeatures.schema_names in Hnames.
      rewrite <- (length_fmap fst), Hnames. apply length_filter.
    + rewrite Hnames. apply NoDup_filter, keep_cols_NoDup.
    + intros c. rewrite get_column_cast_article_id, get_column_select.
      unfold ItemFeatures.existing.
      destruct (decide (c ∈ ItemFeatures.keep_cols)) as [Hk|Hk].
      * destruct (decide (c ∈ filter (fun c0 => c0 ∈ ItemFeatures.schema_names lf)
                                ItemFeatures.keep_cols)) as [_|Hn]; [done |].
        assert (ItemFeatures.get_column c lf = None) as ->; [|by destruct (decide _)].
        destruct (ItemFeatures.get_column c lf) as [vs|] eqn:Hvs; [|done].
        exfalso. apply Hn, list_elem_of_filter. split; [|done].
        apply get_column_is_Some. by eexists.
      * destruct (decide (c ∈ filter (fun c0 => c0 ∈ ItemFeatures.schema_names lf)
                                ItemFeatures.keep_cols)) as [Hn|_].
        { by apply list_elem_of_filter in Hn as [_ ?]. }
        by destruct (decide (c = "article_id"%string)).
Qed.

(** ** The schema writer *)

Lemma foldl_min_Q_spec (rest : list Q) : forall x : Q,
  (foldl (fun m y => if Qle_bool y m then y else m) x rest ∈ x :: rest)
  /\ forall y, y ∈ x :: rest ->
       (foldl (fun m y => if Qle_bool y m then y else m) x rest <= y)%Q.
Proof.
  induction rest as [|z rest IH]; intros x; simpl.
  - split; [by left |]. intros y Hy. apply list_elem_of_singleton in Hy as ->. Lqa.lra.
  - destruct (IH (if Qle_bool z x then z else x)) as [Hin Hle]. split.
    + apply elem_of_cons in Hin as [Heq|Hin]; [|by right; right].
      rewrite Heq. destruct (Qle_bool z x); [right; by left | by left].
    + intros y Hy.
      assert (foldl (fun m y => if Qle_bool y m then y else m)
                (if Qle_bool z x then z else x) rest
              <= (if Qle_bool z x then z else x))%Q as Hm by (apply Hle; by left).
      apply elem_of_cons in Hy as [Heq|Hy].
      * rewrite Heq. destruct (Qle_bool z x) eqn:Hzx; [|done].
        apply Qle_bool_iff in Hzx. Lqa.lra.
      * apply elem_of_cons in Hy as [Heq|Hy]; [|apply Hle; by right].
        rewrite Heq. destruct (Qle_bool z x) eqn:Hzx; [done |].
        assert (~ (z <= x)%Q) as Hn by (rewrite <- Qle_bool_iff, Hzx; discriminate).
        Lqa.lra.
Qed.

Lemma foldl_max_Q_spec (rest : list Q) : forall x : Q,
  (foldl (fun m y => if Qle_bool m y then y else m) x rest ∈ x :: rest)
  /\ forall y, y ∈ x :: rest ->
       (y <= foldl (fun m y => if Qle_bool m y then y else m) x rest)%Q.
Proof.
  induction rest as [|z rest IH]; intros x; simpl.
  - split; [by left |]. intros y Hy. apply list_elem_of_singleton in Hy as ->. Lqa.lra.
  - destruct (IH (if Qle_bool x z then z else x)) as [Hin Hle]. split.
    + apply elem_of_cons in Hin as [Heq|Hin]; [|by right; right].
      rewrite Heq. destruct (Qle_bool x z); [right; by left | by left].
    + intros y Hy.
      assert ((if Qle_bool x z then z else x)
              <= foldl (fun m y => if Qle_bool m y then y else m)
                   (if Qle_bool x z then z else x) rest)%Q as Hm by (apply Hle; by left).
      apply elem_of_cons in Hy as [Heq|Hy].
      * rewrite Heq. destruct (Qle_bool x z) eqn:Hzx; [|done].
        apply Qle_bool_iff in Hzx. Lqa.lra.
      * apply elem_of_cons in Hy as [Heq|Hy]; [|apply Hle; by right].
        rewrite Heq. destruct (Qle_bool x z) eqn:Hzx; [done |].
        assert (~ (x <= z)%Q) as Hn by (rewrite <- Qle_bool_iff, Hzx; discriminate).
        Lqa.lra.
Qed.

Lemma foldl_min_spec (rest : list Z) : forall d : Z,
  (foldl Z.min d rest ∈ d :: rest)
  /\ forall x, x ∈ d :: rest -> foldl Z.min d rest <= x.
Proof.
  induction rest as [|y rest IH]; intros d; simpl.
  - split; [by left |]. intros x Hx. apply list_elem_of_singleton in Hx. lia.
  - destruct (IH (Z.min d y)) as [Hin Hle]. split.
    + apply elem_of_cons in Hin as [Heq|Hin]; [|by right; right].
      rewrite Heq. destruct (Z.min_spec d y) as [[_ ->]|[_ ->]]; [by left | right; by left].
    + intros x Hx.
      assert (foldl Z.min (Z.min d y) rest <= Z.min d y) by (apply Hle; by left).
      apply elem_of_cons in Hx as [->|Hx]; [lia |].
      apply elem_of_cons in Hx as [->|Hx]; [lia |]. apply Hle. by right.
Qed.

Section schema.
Context {dtype : Type} (pl_dtype_to_str : dtype -> string).

Lemma dtypes_fold_other (l : list (string * dtype)) (n : string) :
  forall d0 : gmap string string,
    n ∉ l.*1 ->
    foldl (fun d nd => <[nd.1 := pl_dtype_to_str nd.2]> d) d0 l !! n = d0 !! n.
Proof.
  induction l as [|[n' d'] l IH]; intros d0 Hn; [done |]. simpl.
  rewrite fmap_cons, not_elem_of_cons in Hn. destruct Hn as [Hne Hn].
  rewrite IH by done. simpl. by rewrite lookup_insert_ne.
Qed.

Lemma dtypes_fold_lookup (l : list (string * dtype)) (n : string) (d : dtype) :
  forall d0 : gmap string string,
    NoDup l.*1 -> (n, d) ∈ l ->
    foldl (fun d nd => <[nd.1 := pl_dtype_to_str nd.2]> d) d0 l !! n =
      Some (pl_dtype_to_str d).
Proof.
  induction l as [|[n' d'] l IH]; intros d0 Hnd Hin; [by apply elem_of_nil in Hin |].
  rewrite fmap_cons in Hnd. apply NoDup_cons in Hnd as [Hfresh Hnd]. simpl.
  apply elem_of_cons in Hin as [[= -> ->]|Hin]; [|by apply IH].
  rewrite dtypes_fold_other by done. simpl. by rewrite lookup_insert_eq.
Qed.

Lemma zip_fst_NoDup {A B} (l : list A) (k : list B) : NoDup l -> NoDup (zip l k).*1.
Proof.
  intros Hnd. revert k. induction Hnd as [|x l Hx Hnd IH]; intros [|y k]; simpl;
    try constructor.
  - intros Hin. apply Hx. apply list_elem_of_fmap in Hin as ([x' y'] & -> & Hin).
    by apply elem_of_zip_l in Hin.
  - apply IH.
Qed.
End schema.

(** X22: the schema writer. It raises [FileNotFoundError] when either
    parquet file is missing and [TypeError] ([float(None)]) when the
    interactions frame has no row, writing nothing. Otherwise it succeeds
    whatever the item frame holds: the reported minimum and maximum of
    [implicit_score] and of [freq] are values of the column and bound
    every value of it, the row and column counts are those of the two
    frames, and for a frame whose column names are distinct the dtypes
    dict maps each column to [str] of its data type. *)
Theorem feature_schema_main_spec :
  forall (dtype item_row : Type) (pl_dtype_to_str : dtype -> string)
         (interactions : FeatureSchema.Frame (dtype:=dtype) Interaction)
         (item_features : FeatureSchema.Frame (dtype:=dtype) item_row),
    FeatureSchema.main pl_dtype_to_str None (Some item_features) = inl FileNotFoundError
    /\ FeatureSchema.main pl_dtype_to_str (Some interactions) (@None (FeatureSchema.Frame item_row))
       = inl FileNotFoundError
    /\ (FeatureSchema.rows interactions = [] ->
        FeatureSchema.main pl_dtype_to_str (Some interactions) (Some item_features)
        = inl TypeError)
    /\ (FeatureSchema.rows interactions <> [] ->
        exists schema,
          FeatureSchema.main pl_dtype_to_str (Some interactions) (Some item_features)
          = inr schema
          /\ let st := FeatureSchema.interactions_stats_of schema in
             let scores := implicit_score <$> FeatureSchema.rows interactions in
             let freqs := freq <$> FeatureSchema.rows interactions in
             FeatureSchema.st_rows st = len (FeatureSchema.rows interactions)
             /\ FeatureSchema.st_cols st = len (FeatureSchema.columns interactions)
             /\ FeatureSchema.item_rows schema = len (FeatureSchema.rows item_features)
             /\ FeatureSchema.item_cols schema = len (FeatureSchema.columns item_features)
             /\ FeatureSchema.implicit_score_min st ∈ scores
             /\ FeatureSchema.implicit_score_max st ∈ scores
             /\ (forall x, x ∈ scores ->
                   (FeatureSchema.implicit_score_min st <= x
                    <= FeatureSchema.implicit_score_max st)%Q)
             /\ FeatureSchema.freq_min st ∈ freqs
             /\ FeatureSchema.freq_max st ∈ freqs
             /\ (forall x, x ∈ freqs ->
                   FeatureSchema.freq_min st <= x <= FeatureSchema.freq_max st)
             /\ (NoDup (FeatureSchema.columns interactions) ->
                 forall i name dt,
                   FeatureSchema.columns interactions !! i = Some name ->
                   FeatureSchema.dtypes interactions !! i = Some dt ->
                   FeatureSchema.interactions_dtypes schema !! name =
                     Some (pl_dtype_to_str dt))
             /\ (NoDup (FeatureSchema.columns item_features) ->
                 forall i name dt,
                   FeatureSchema.columns item_features !! i = Some name ->
                   FeatureSchema.dtypes item_features !! i = Some dt ->
                   FeatureSchema.item_features_dtypes schema !! name =
                     Some (pl_dtype_to_str dt))).
Proof.
  intros dtype item_row str interactions item_features.
  split; [done |]. split; [done |]. split.
  - intros Hnil. unfold FeatureSchema.main, FeatureSchema.interactions_stats.
    cbv zeta. by rewrite Hnil.
  - intros Hrows. unfold FeatureSchema.main, FeatureSchema.interactions_stats. cbv zeta.
    destruct (FeatureSchema.rows interactions) as [|r rs] eqn:Hr; [done |].
    rewrite !fmap_cons. cbn [FeatureSchema.min_Q FeatureSchema.max_Q FeatureSchema.min_Z
      FeatureSchema.max_Z FeatureSchema.py_number FeatureSchema.bind_result].
    eexists. split; [done |]. cbv zeta.
    cbn [FeatureSchema.interactions_stats_of FeatureSchema.st_rows FeatureSchema.st_cols
         FeatureSchema.item_rows FeatureSchema.item_cols FeatureSchema.implicit_score_min
         FeatureSchema.implicit_score_max FeatureSchema.freq_min FeatureSchema.freq_max
         FeatureSchema.interactions_dtypes FeatureSchema.item_features_dtypes].
    destruct (foldl_min_Q_spec (implicit_score <$> rs) (implicit_score r)) as [Hqmin Hqle].
    destruct (foldl_max_Q_spec (implicit_score <$> rs) (implicit_score r)) as [Hqmax Hqge].
    destruct (foldl_min_spec (freq <$> rs) (freq r)) as [Hzmin Hzle].
    destruct (foldl_max_spec (freq <$> rs) (freq r)) as [Hzmax Hzge].
    assert (forall {row} (df : FeatureSchema.Frame (dtype:=dtype) row),
              NoDup (FeatureSchema.columns df) ->
              forall i name dt,
                FeatureSchema.columns df !! i = Some name ->
                FeatureSchema.dtypes df !! i = Some dt ->
                FeatureSchema.dtypes_dict str df !! name = Some (str dt)) as Hdict.
    { intros row df Hnd i name dt Hn Hd. unfold FeatureSchema.dtypes_dict.
      apply dtypes_fold_lookup; [by apply zip_fst_NoDup |].
      apply list_elem_of_lookup. exists i.
      rewrite lookup_zip_with, Hn. simpl. by rewrite Hd. }
    repeat split; try done.
    + by apply Hqle.
    + by apply Hqge.
    + by apply Hzle.
    + by apply Hzge.
    + by apply Hdict.
    + by apply Hdict.
Qed.

Lemma item_features_main_spec_witness :
  let lf : ItemFeatures.frame :=
    [ ("colour_group_name", ["Black"]); ("article_id", ["108775015"]);
      ("detail_desc", ["Jersey top"]) ]%string in
  "article_id"%string ∈ ItemFeatures.schema_names lf
  /\ exists out,
       ItemFeatures.main (String.append "s:") (Some lf) = inr out
       /\ ItemFeatures.schema_names out = ["article_id"; "colour_group_name"]%string
       /\ ItemFeatures.get_column "article_id" out = Some ["s:108775015"%string]
       /\ ItemFeatures.get_column "detail_desc" out = None.
Proof.
  intros lf.
  assert ("article_id"%string ∈ ItemFeatures.schema_names lf) as Hin
    by (right; left).
  split; [exact Hin |].
  destruct (proj2 (proj2 (item_features_main_spec string (String.append "s:") lf)) Hin)
    as (out & Hmain & Hnames & _ & _ & _ & Hcol).
  exists out. split; [exact Hmain |]. split; [rewrite Hnames; reflexivity |].
  split; rewrite Hcol; reflexivity.
Defined.

Lemma feature_schema_main_spec_witness :
  let interactions : FeatureSchema.Frame (dtype:=string) Interaction :=
    {| FeatureSchema.columns :=
         ["customer_id"; "article_id"; "freq"; "last_seen"; "implicit_score"]%string;
       FeatureSchema.dtypes := ["String"; "String"; "UInt32"; "Date"; "Float64"]%string;
       FeatureSchema.rows := popular_b_train |} in
  let item_features : FeatureSchema.Frame (dtype:=string) unit :=
    {| FeatureSchema.columns := ["article_id"%string];
       FeatureSchema.dtypes := ["String"%string];
       FeatureSchema.rows := [] |} in
  FeatureSchema.rows interactions <> []
  /\ exists schema,
       FeatureSchema.main id (Some interactions) (Some item_features) = inr schema
       /\ FeatureSchema.interactions_dtypes schema !! "freq"%string = Some "UInt32"%string
       /\ FeatureSchema.item_rows schema = 0.
Proof.
  intros interactions item_features.
  assert (FeatureSchema.rows interactions <> []) as Hne by discriminate.
  split; [exact Hne |].
  destruct (proj2 (proj2 (proj2 (feature_schema_main_spec string unit id interactions
                                   item_features))) Hne)
    as (schema & Hmain & _ & _ & Hrows & _ & _ & _ & _ & _ & _ & _ & Hdict & _).
  exists schema. split; [exact Hmain |]. split; [|exact Hrows].
  apply (Hdict ltac:(apply (bool_decide_unpack _); vm_compute; exact I) 2%nat);
    reflexivity.
Defined.
